(** * Gomoku / Tic-Tac-Toe engine of [src/app.ts]: model and properties

    The game state, the move validator, the four linearizations of the
    board and the win detector of [app.ts], as Rocq functions, with the
    properties of the specification stated over them.

    Conventions of the embedding:
    - a JavaScript string is a [list ascii] (code units below 256);
    - a JavaScript [number] that only ever holds an integer is a [Z], or a
      [nat] where the code uses it as a count or an array index that is
      never negative ([turn], [winCase]);
    - an array is a [list]; reading past its end gives [undefined];
    - a function that can throw a [TypeError] or a [SyntaxError] returns an
      [option], [None] standing for the exception;
    - the object [game] is mutated in place by the code: the functions that
      write to it return the new state. *)

From Stdlib Require Import ZArith Ascii String Lia Bool.
From stdpp Require Import base tactics option list.

(** ** Strings *)

Abbreviation jsstring := (list ascii) (only parsing).

Definition js (s : string) : jsstring := list_ascii_of_string s.

(** ** Data model *)

(** [type Cell = string]; a read outside a row yields [undefined], which is
    not a string, so the model keeps it apart. *)
Inductive Cell : Type :=
  | Undefined
  | Str (s : jsstring).

Abbreviation Row := (list Cell) (only parsing).
Abbreviation Gameboard := (list (list Cell)) (only parsing).

Record Player : Type := mkPlayer {
  name : jsstring;
  totalWins : Z
}.

Record Game : Type := mkGame {
  type : jsstring;
  players : list Player;
  gameboard : Gameboard;
  turn : nat;
  winCase : nat;
  remainingEmptyCells : Z
}.

Record Input : Type := mkInput {
  row : Z;
  col : Z
}.

Abbreviation Error := (list ascii) (only parsing).

Definition TIC_TAC_TOE : jsstring := js "tic-tac-toe".
Definition GOMOKU : jsstring := js "gomoku".

(** ** A small error monad: [None] is a thrown exception *)

Definition bind {A B} (m : option A) (f : A -> option B) : option B :=
  match m with
  | Some a => f a
  | None => None
  end.

Notation "'let*' x := m 'in' f" := (bind m (fun x => f))
  (at level 10, x name, m at level 100, f at level 200,
   format "'[v' 'let*'  x  :=  m  'in' '/' f ']'").

(** ** JavaScript truthiness of a cell: only a non-empty string is truthy *)

Definition truthy (cell : Cell) : bool :=
  match cell with
  | Str (_ :: _) => true
  | _ => false
  end.

(** ** Array reads *)

(** [arr[i]] for a number [i]: [None] is [undefined]. *)
Definition at_index {A} (arr : list A) (i : Z) : option A :=
  if (i <? 0)%Z then None else arr !! Z.to_nat i.

(** [row[k]] as a cell value. *)
Definition cellOfRow (r : Row) (k : nat) : Cell :=
  match r !! k with
  | Some cell => cell
  | None => Undefined
  end.

(** [gameboard[j][k]] where the code has already established
    [j < gameboard.length] (so that [gameboard[j]] is an array). *)
Definition cellOf (gameboard : Gameboard) (j k : nat) : Cell :=
  match gameboard !! j with
  | Some r => cellOfRow r k
  | None => Undefined
  end.

(** ** initGameboard, initPlayers, initGame *)

(** The two nested [for] loops push [size] rows of [size] empty strings;
    for [size <= 0] neither loop body runs. *)
Definition initGameboard (size : Z) : Gameboard :=
  replicate (Z.to_nat size) (replicate (Z.to_nat size) (Str [])).

Definition initPlayers : list Player :=
  [ mkPlayer (js "X") 0%Z; mkPlayer (js "O") 0%Z ].

(** [===] on strings *)
Fixpoint jsstring_eqb (a b : jsstring) : bool :=
  match a, b with
  | [], [] => true
  | x :: a', y :: b' => Ascii.eqb x y && jsstring_eqb a' b'
  | _, _ => false
  end.

Definition initGame (gameType : jsstring) : Game :=
  let gameboardSize : Z :=
    (if jsstring_eqb gameType TIC_TAC_TOE then 3 else 10)%Z in
  let winCase : nat := if jsstring_eqb gameType TIC_TAC_TOE then 3 else 5 in
  mkGame gameType initPlayers (initGameboard gameboardSize) 0 winCase
         (gameboardSize * gameboardSize)%Z.

(** ** concatGameboard *)

Definition ROW_BREAK : ascii := "B".
Definition EMPTY_CELL_MARK : ascii := "E".

(** [cell ? cell : EMPTY_CELL_MARK] *)
Definition cellMark (cell : Cell) : jsstring :=
  match cell with
  | Str (c :: s) => c :: s
  | _ => [EMPTY_CELL_MARK]
  end.

(** The inner [forEach]: [rowStr += cellMark]. *)
Definition rowStr (r : Row) : jsstring :=
  foldl (fun acc cell => acc ++ cellMark cell) [] r.

(** The outer [forEach]: [concatenatedGameboard += rowStr + ROW_BREAK]. *)
Definition concatGameboard (gameboard : Gameboard) : jsstring :=
  foldl (fun acc r => acc ++ (rowStr r ++ [ROW_BREAK])) [] gameboard.

(** ** The regular expressions of hasWinner *)

(** Characters with a meaning of their own in a pattern. *)
Definition metachar (c : ascii) : bool :=
  existsb (Ascii.eqb c) (js "\^$.*+?()[]{}|").

Fixpoint startsWith (p s : jsstring) : bool :=
  match p, s with
  | [], _ => true
  | _ :: _, [] => false
  | a :: p', b :: s' => Ascii.eqb a b && startsWith p' s'
  end.

(** Unanchored search for a literal pattern, as [RegExp.prototype.test]
    does for a pattern without operators. *)
Fixpoint occursIn (p s : jsstring) : bool :=
  startsWith p s ||
  match s with
  | [] => false
  | _ :: s' => occursIn p s'
  end.

(** [new RegExp(`${name}{${n}}`)] for a name of ordinary characters: the
    quantifier [{n}] binds to the last character only, so the pattern is
    the name without its last character followed by [n] copies of that
    character. The constructor throws on the empty name (nothing to
    repeat); names with pattern operators are outside the fragment
    modelled and are given [None] as well. *)
Definition newRegExp (name : jsstring) (n : nat) : option jsstring :=
  if existsb metachar name then None
  else match last name with
       | None => None
       | Some c => Some (removelast name ++ replicate n c)
       end.

Definition test (regexp : jsstring) (s : jsstring) : bool :=
  occursIn regexp s.

Definition hasWinner (concatenatedGameboard : jsstring) (game : Game)
  : option bool :=
  let* p0 := players game !! 0 in
  let* playerOneRegexp := newRegExp (name p0) (winCase game) in
  let* p1 := players game !! 1 in
  let* playerTwoRegexp := newRegExp (name p1) (winCase game) in
  Some (test playerOneRegexp concatenatedGameboard
        || test playerTwoRegexp concatenatedGameboard).

(** ** The linearizations: transpose, diagonals, anti-diagonals *)

(** [gameboard[0].map((col, i) => gameboard.map(row => row[i]))];
    [gameboard[0]] is [undefined] on the empty board and [.map] throws. *)
Definition transposeGameboard (gameboard : Gameboard) : option Gameboard :=
  let* row0 := gameboard !! 0 in
  Some (imap (fun i _ => (fun r => cellOfRow r i) <$> gameboard) row0).

(** The indices visited by [for (let i = 0; i <= hi; i++)]. *)
Definition upTo (hi : Z) : list nat := seq 0 (Z.to_nat (hi + 1)).

(** The inner loop of [diagonalizeGameboard] for the outer index [i]:
    [j] runs over [0..i], [k = i - j], and the cell is pushed when
    [j < size && k < size]. *)
Definition diagonalRow (gameboard : Gameboard) (i : nat) : Row :=
  let size := length gameboard in
  omap (fun j =>
          let k := i - j in
          if (j <? size) && (k <? size)
          then Some (cellOf gameboard j k) else None)
       (upTo (Z.of_nat i)).

Definition diagonalizeGameboard (gameboard : Gameboard) : Gameboard :=
  let size := Z.of_nat (length gameboard) in
  (fun i => diagonalRow gameboard i) <$> upTo (2 * (size - 1)).

(** The inner loop of [antiDiagonalizeGameboard]:
    [k = size - 1 - i + j], pushed when [j < size && k >= 0]. *)
Definition antiDiagonalRow (gameboard : Gameboard) (i : nat) : Row :=
  let size := length gameboard in
  omap (fun j =>
          let k := (Z.of_nat size - 1 - Z.of_nat i + Z.of_nat j)%Z in
          if (j <? size) && (0 <=? k)%Z
          then Some (cellOf gameboard j (Z.to_nat k)) else None)
       (upTo (Z.of_nat i)).

Definition antiDiagonalizeGameboard (gameboard : Gameboard) : Gameboard :=
  let size := Z.of_nat (length gameboard) in
  (fun i => antiDiagonalRow gameboard i) <$> upTo (2 * (size - 1)).

(** ** checkForWin *)

Definition TIED : jsstring := js "The game is tied!".

(** [`Player ${name} wins!`] *)
Definition winsMessage (name : jsstring) : jsstring :=
  js "Player " ++ name ++ js " wins!".

(** [game.players[lastMove].totalWins++; return `Player ... wins!`] *)
Definition declareWinner (game : Game) (lastMove : nat)
  : option (jsstring * Game) :=
  let* p := players game !! lastMove in
  let p' := mkPlayer (name p) (totalWins p + 1) in
  Some (winsMessage (name p),
        mkGame (type game) (<[lastMove := p']> (players game))
               (gameboard game) (turn game) (winCase game)
               (remainingEmptyCells game)).

Definition lastMoveOf (game : Game) : nat :=
  if turn game =? 0 then 1 else 0.

Definition checkForWin (game : Game) : option (jsstring * Game) :=
  let lastMove := lastMoveOf game in
  let horizontallyConcatenatedGameboard := concatGameboard (gameboard game) in
  let* w := hasWinner horizontallyConcatenatedGameboard game in
  if w then declareWinner game lastMove else
  let* transposedGameboard := transposeGameboard (gameboard game) in
  let verticallyConcatenatedGameboard := concatGameboard transposedGameboard in
  let* w := hasWinner verticallyConcatenatedGameboard game in
  if w then declareWinner game lastMove else
  let diagonalizedGameboard := diagonalizeGameboard (gameboard game) in
  let diagonallyConcatenatedGameboard := concatGameboard diagonalizedGameboard in
  let* w := hasWinner diagonallyConcatenatedGameboard game in
  if w then declareWinner game lastMove else
  let antiDiagonalizedGameboard := antiDiagonalizeGameboard (gameboard game) in
  let antiDiagonallyConcatenatedGameboard :=
    concatGameboard antiDiagonalizedGameboard in
  let* w := hasWinner antiDiagonallyConcatenatedGameboard game in
  if w then declareWinner game lastMove else
  if (remainingEmptyCells game =? 0)%Z then Some (TIED, game)
  else Some ([], game).

(** ** updateGame *)

(** [arr[i] = v]: inside the array the element is replaced; past its end
    JavaScript lengthens the array (the skipped positions read as
    [undefined]; they are holes, which the model fills with [Undefined]);
    a negative index only adds a property and leaves the elements alone.
    An accepted move is always inside its row. *)
Definition set_index {A} (undef : A) (arr : list A) (i : Z) (v : A) : list A :=
  if (i <? 0)%Z then arr
  else
    let n := Z.to_nat i in
    if n <? length arr then <[n := v]> arr
    else arr ++ replicate (n - length arr) undef ++ [v].

Definition updateGame (input : Input) (game : Game) : option Game :=
  let* r := at_index (gameboard game) (row input) in
  let* p := players game !! turn game in
  let r' := set_index Undefined r (col input) (Str (name p)) in
  Some (mkGame (type game) (players game)
               (<[Z.to_nat (row input) := r']> (gameboard game))
               (if turn game =? 0 then 1 else 0)
               (winCase game)
               (remainingEmptyCells game - 1)).

(** ** Move validation *)

Definition MALFORMED : Error :=
  js "Invalid input. A valid input should look like this x,y.".
Definition OUT_OF_BOUND : Error := js "Input out of bound".
Definition CELL_TAKEN : Error := js "This cell has already been placed".

(** [\s] on code units below 256: tab, line feed, vertical tab, form
    feed, carriage return, space and the no-break space. *)
Definition isSpace (c : ascii) : bool :=
  existsb (Nat.eqb (nat_of_ascii c)) [9; 10; 11; 12; 13; 32; 160].

(** [\d] *)
Definition isDigit (c : ascii) : bool :=
  (48 <=? nat_of_ascii c) && (nat_of_ascii c <=? 57).

(** The longest prefix of [s] whose characters satisfy [p], and the rest *)
Fixpoint span (p : ascii -> bool) (s : jsstring) : jsstring * jsstring :=
  match s with
  | c :: s' =>
      if p c then let '(a, b) := span p s' in (c :: a, b) else ([], s)
  | [] => ([], [])
  end.

(** [/^\s*\d+,\s*\d+\s*$/]: the classes that follow one another are
    disjoint, so the greedy reading is the only one. The result is the
    pair of digit groups, which is what [trim], [split(',')] and [trim]
    isolate from a matching string. *)
Definition matchMove (rawInput : jsstring) : option (jsstring * jsstring) :=
  let '(_, s1) := span isSpace rawInput in
  let '(rowStr, s2) := span isDigit s1 in
  match rowStr, s2 with
  | _ :: _, sep :: s3 =>
      if Ascii.eqb sep "," then
        let '(_, s4) := span isSpace s3 in
        let '(colStr, s5) := span isDigit s4 in
        let '(_, s6) := span isSpace s5 in
        match colStr, s6 with
        | _ :: _, [] => Some (rowStr, colStr)
        | _, _ => None
        end
      else None
  | _, _ => None
  end.

(** [parseInt] on a string of decimal digits, as an exact integer. The
    number of the code is a double: it is this integer when the integer
    is below 2^53, and its rounding above. *)
Definition parseInt (digits : jsstring) : Z :=
  foldl (fun acc d => (acc * 10 + (Z.of_nat (nat_of_ascii d) - 48))%Z) 0%Z digits.

Definition convertRawInputToInput (rawInput : jsstring)
  : option Input * Error :=
  match matchMove rawInput with
  | None => (None, MALFORMED)
  | Some (rowStr, colStr) =>
      (Some (mkInput (parseInt rowStr) (parseInt colStr)), [])
  end.

Definition validateInputOutOfBound (input : Input) (gameboard : Gameboard)
  : Error :=
  let bound := (Z.of_nat (length gameboard) - 1)%Z in
  if (row input >? bound)%Z || (col input >? bound)%Z
     || (row input <? 0)%Z || (col input <? 0)%Z
  then OUT_OF_BOUND else [].

(** [gameboard[input.row][input.col]]; throws when the row is missing. *)
Definition validateEmptyCell (input : Input) (gameboard : Gameboard)
  : option Error :=
  let* r := at_index gameboard (row input) in
  let cell := match at_index r (col input) with
              | Some c => c
              | None => Undefined
              end in
  Some (if negb (truthy cell) then [] else CELL_TAKEN).

Definition validateInput (rawInput : jsstring) (gameboard : Gameboard)
  : option (option Input * Error) :=
  match convertRawInputToInput rawInput with
  | (None, convertingError) => Some (None, convertingError)
  | (Some input, convertingError) =>
      if 0 <? length convertingError then Some (None, convertingError)
      else
        let inputOutOfBounderror := validateInputOutOfBound input gameboard in
        if 0 <? length inputOutOfBounderror
        then Some (Some input, inputOutOfBounderror)
        else
          let* e := validateEmptyCell input gameboard in
          Some (Some input, e)
  end.

(** ** One answer to the prompt *)

(** The callback of [promptForInput], without its printing: the raw text
    is validated; a rejected move leaves the session as it is; an
    accepted move is placed by [updateGame] and the board is checked by
    [checkForWin], whose message is reported. *)
Inductive Answer : Type :=
  | Rejected (inputError : Error)
  | Placed (message : jsstring) (game : Game).

Definition submit (rawInput : jsstring) (game : Game) : option Answer :=
  let* v := validateInput rawInput (gameboard game) in
  match v with
  | (Some input, []) =>
      let* game' := updateGame input game in
      let* r := checkForWin game' in
      Some (Placed (fst r) (snd r))
  | (_, inputError) => Some (Rejected inputError)
  end.

(** The prompt loop fed with the answers [rawInputs]: it asks again
    after a rejected move or an empty message and stops at the first
    message. *)
Fixpoint submitAll (rawInputs : list jsstring) (game : Game)
  : option (jsstring * Game) :=
  match rawInputs with
  | [] => Some ([], game)
  | rawInput :: rest =>
      let* a := submit rawInput game in
      match a with
      | Rejected _ => submitAll rest game
      | Placed [] game' => submitAll rest game'
      | Placed message game' => Some (message, game')
      end
  end.

(** ** The marks of the two players, and well-formed boards *)

Definition markX : Cell := Str (js "X").
Definition markO : Cell := Str (js "O").
Definition emptyCell : Cell := Str [].

#[global] Instance ascii_eq_dec : EqDecision ascii := Ascii.ascii_dec.
#[global] Instance Cell_eq_dec : EqDecision Cell.
Proof. solve_decision. Defined.

(** A cell of a board in play: empty (falsy), or the mark of a player. *)
Definition wf_cell (cell : Cell) : Prop :=
  truthy cell = true -> cell = markX \/ cell = markO.

Definition wf_cellb (cell : Cell) : bool :=
  negb (truthy cell) || bool_decide (cell = markX) || bool_decide (cell = markO).

Definition wf_seq (s : Row) : Prop := Forall wf_cell s.
Definition wf_grid (b : Gameboard) : Prop := Forall wf_seq b.

(** An [N] x [N] board. *)
Definition square (N : nat) (b : Gameboard) : Prop :=
  length b = N /\ Forall (fun r => length r = N) b.

(** The players as [initPlayers] names them, whatever their counters. *)
Definition standardPlayers (g : Game) : Prop :=
  exists wx wo, players g = [mkPlayer (js "X") wx; mkPlayer (js "O") wo].

(** ** Runs, as the specification words them *)

(** [K] consecutive cells of [s] equal to [mark], starting at position [i] *)
Definition runAt (mark : Cell) (K : nat) (s : Row) (i : nat) : Prop :=
  forall j, j < K -> s !! (i + j) = Some mark.

(** [s] contains [K] or more consecutive cells equal to [mark] *)
Definition hasRun (mark : Cell) (K : nat) (s : Row) : Prop :=
  exists i, runAt mark K s i.

(** Some sequence of the collection contains such a run *)
Definition gridHasRun (mark : Cell) (K : nat) (b : Gameboard) : Prop :=
  exists s, s ∈ b /\ hasRun mark K s.

(** The same, decided by sliding a window of [K] cells *)
Fixpoint startsRun (mark : Cell) (n : nat) (s : Row) : bool :=
  match n, s with
  | 0, _ => true
  | S _, [] => false
  | S n', c :: s' => bool_decide (c = mark) && startsRun mark n' s'
  end.

Fixpoint hasRunb (mark : Cell) (K : nat) (s : Row) : bool :=
  startsRun mark K s ||
  match s with
  | [] => false
  | _ :: s' => hasRunb mark K s'
  end.

(** Scan and count: the number of consecutive cells equal to [mark] seen
    so far is [count]; any other cell resets it; a count of [K] is a run. *)
Fixpoint scanRun (mark : Cell) (K count : nat) (s : Row) : bool :=
  match s with
  | [] => false
  | c :: s' =>
      if bool_decide (c = mark)
      then (K <=? S count) || scanRun mark K (S count) s'
      else scanRun mark K 0 s'
  end.

(** ** The characters of the marks *)

Definition isMarkChar (c : ascii) : Prop := c = "X"%char \/ c = "O"%char.

(** ** The rows of a diagonal *)

(** First row index and number of cells of the diagonal of index [d] on
    a board of size [N]: the rows [max(0, d-N+1) .. min(d, N-1)] (the
    subtraction on [nat] stops at 0). *)
Definition diagLo (N d : nat) : nat := d + 1 - N.
Definition diagHi (N d : nat) : nat := Nat.min d (N - 1).
Definition diagLen (N d : nat) : nat := diagHi N d + 1 - diagLo N d.

(** ** Lines of the board *)

(** The cell at integer coordinates; [undefined] off the board. *)
Definition cellAt (b : Gameboard) (r c : Z) : Cell :=
  if (r <? 0)%Z || (c <? 0)%Z then Undefined
  else cellOf b (Z.to_nat r) (Z.to_nat c).

Definition inBounds (N : nat) (r c : Z) : Prop :=
  (0 <= r < Z.of_nat N)%Z /\ (0 <= c < Z.of_nat N)%Z.

#[global] Instance inBounds_dec (N : nat) (r c : Z) : Decision (inBounds N r c).
Proof. unfold inBounds. apply _. Defined.

(** The four principal directions, as steps (rows down, columns right) *)
Inductive Direction : Type :=
  | Horizontal      (* along a row:        (r, c+1) *)
  | Vertical        (* down a column:      (r+1, c) *)
  | FallingDiagonal (* top-left to bottom-right: (r+1, c+1) *)
  | RisingDiagonal. (* top-right to bottom-left: (r+1, c-1) *)

Definition stepOf (dir : Direction) : Z * Z :=
  match dir with
  | Horizontal => (0, 1)
  | Vertical => (1, 0)
  | FallingDiagonal => (1, 1)
  | RisingDiagonal => (1, -1)
  end%Z.

(** [K] cells equal to [mark], contiguous from [(r, c)] along [dir] *)
Definition lineRun (b : Gameboard) (mark : Cell) (K : nat)
    (dir : Direction) (r c : Z) : Prop :=
  forall j : nat, j < K ->
    cellAt b (r + Z.of_nat j * fst (stepOf dir))
             (c + Z.of_nat j * snd (stepOf dir)) = mark.

Definition boardHasRun (b : Gameboard) (mark : Cell) (K : nat) : Prop :=
  exists dir r c, lineRun b mark K dir r c.

(** [L] lists the lines of [b] of step [(dr, dc)]: every sequence of [L]
    walks the board by that step, and every cell of the board lies on a
    sequence of [L] with its neighbours along the step next to it. *)
Definition linearizes (N : nat) (b L : Gameboard) (dr dc : Z) : Prop :=
  (forall d s, L !! d = Some s ->
     exists r0 c0 : Z, forall q cell, s !! q = Some cell ->
       cellAt b (r0 + Z.of_nat q * dr) (c0 + Z.of_nat q * dc) = cell)
  /\ (forall r c : Z, inBounds N r c ->
        exists d s q, L !! d = Some s /\
          forall j : nat,
            inBounds N (r + Z.of_nat j * dr) (c + Z.of_nat j * dc) ->
            s !! (q + j)
            = Some (cellAt b (r + Z.of_nat j * dr) (c + Z.of_nat j * dc))).

(** ** Well-formed sessions and the four transforms *)

(** The state of a session in play on an [N] x [N] board: the players of
    [initPlayers], a square board of empty cells and marks, and a win
    length of at least one. *)
Record wf_game (N : nat) (g : Game) : Prop := {
  wf_players : standardPlayers g;
  wf_square : square N (gameboard g);
  wf_cells : wf_grid (gameboard g);
  wf_size : 1 <= N;
  wf_winCase : 1 <= winCase g
}.

(** Either mark has [K] in a row in the sequence *)
Definition eitherRun (K : nat) (s : Row) : bool :=
  hasRunb markX K s || hasRunb markO K s.

(** The four linearizations, in the order in which [checkForWin] builds
    them *)
Inductive Transform : Type := Rows | Columns | Diagonals | AntiDiagonals.

Definition evaluationOrder : list Transform :=
  [Rows; Columns; Diagonals; AntiDiagonals].

Definition linearization (t : Transform) (b : Gameboard) : option Gameboard :=
  match t with
  | Rows => Some b
  | Columns => transposeGameboard b
  | Diagonals => Some (diagonalizeGameboard b)
  | AntiDiagonals => Some (antiDiagonalizeGameboard b)
  end.

(** The answer of the win detector on one linearization *)
Definition detects (g : Game) (t : Transform) : option bool :=
  let* L := linearization t (gameboard g) in
  hasWinner (concatGameboard L) g.

(** The direction whose lines a transform lists *)
Definition directionOf (t : Transform) : Direction :=
  match t with
  | Rows => Horizontal
  | Columns => Vertical
  | Diagonals => RisingDiagonal
  | AntiDiagonals => FallingDiagonal
  end.

(** ** The ordered search of checkForWin *)

(** Run the detector on the transforms of [ts] in order and stop at the
    first one that matches. *)
Fixpoint firstDetected (g : Game) (ts : list Transform) : option bool :=
  match ts with
  | [] => Some false
  | t :: ts' =>
      let* w := detects g t in
      if w then Some true else firstDetected g ts'
  end.

(** The state after [game.players[i].totalWins++] *)
Definition credit (g : Game) (i : nat) (p : Player) : Game :=
  mkGame (type g) (<[i := mkPlayer (name p) (totalWins p + 1)]> (players g))
         (gameboard g) (turn g) (winCase g) (remainingEmptyCells g).

(** The outcome when no transform matches *)
Definition noWinOutcome (g : Game) : jsstring * Game :=
  if (remainingEmptyCells g =? 0)%Z then (TIED, g) else ([], g).

(** ** Boolean checks of well-formedness *)

Definition wf_gridb (b : Gameboard) : bool := forallb (forallb wf_cellb) b.

Definition squareb (N : nat) (b : Gameboard) : bool :=
  (length b =? N) && forallb (fun r => length r =? N) b.

Definition standardPlayersb (g : Game) : bool :=
  match players g with
  | [p0; p1] => jsstring_eqb (name p0) (js "X") && jsstring_eqb (name p1) (js "O")
  | _ => false
  end.

Definition wf_gameb (N : nat) (g : Game) : bool :=
  standardPlayersb g && squareb N (gameboard g) && wf_gridb (gameboard g)
  && (1 <=? N) && (1 <=? winCase g).

(** ** The number of empty cells *)

Definition countEmptyRow (s : Row) : nat :=
  length (filter (fun cell => truthy cell = false) s).

(** The number of empty (falsy) cells of the board *)
Definition countEmpty (b : Gameboard) : nat :=
  sum_list_with countEmptyRow b.

(** ** Placing a mark *)

(** The board after the mark [v] is placed at [(r, c)] *)
Definition placed (b : Gameboard) (r c : nat) (v : Cell) : Gameboard :=
  match b !! r with
  | Some s => <[r := <[c := v]> s]> b
  | None => b
  end.

(** ** Deciding runs on the board *)

(** Whether a mark has a run on the board, through the four
    linearizations *)
Definition boardHasRunb (b : Gameboard) (mark : Cell) (K : nat) : bool :=
  existsb (fun t => match linearization t b with
                    | Some L => existsb (hasRunb mark K) L
                    | None => false
                    end) evaluationOrder.

(** ** Sample states *)

(** Tic-tac-toe, X has just completed the top row. *)
Definition topRowX : Game :=
  mkGame TIC_TAC_TOE initPlayers
    [ [markX; markX; markX];
      [markO; markO; emptyCell];
      [emptyCell; emptyCell; emptyCell] ]
    1 3 4.

(** The top row and the left column are completed by the same move. *)
Definition rowAndColumnX : Game :=
  mkGame TIC_TAC_TOE initPlayers
    [ [markX; markX; markX];
      [markX; markO; markO];
      [markX; markO; markO] ]
    1 3 0.

(** A full board without three in a row. *)
Definition fullNoRun : Game :=
  mkGame TIC_TAC_TOE initPlayers
    [ [markX; markO; markX];
      [markX; markO; markO];
      [markO; markX; markX] ]
    1 3 0.

(** The top row belongs to O while X has moved last (turn is 1). *)
Definition rowOfO_afterX : Game :=
  mkGame TIC_TAC_TOE initPlayers
    [ [markO; markO; markO];
      [markX; markX; emptyCell];
      [markX; markX; emptyCell] ]
    1 3 2.

(** The middle column belongs to O while X has moved last, and X has no
    three in a row. *)
Definition columnOfO_afterX : Game :=
  mkGame TIC_TAC_TOE initPlayers
    [ [markX; markO; markX];
      [markX; markO; emptyCell];
      [emptyCell; markO; markX] ]
    1 3 2.

(** Tic-tac-toe after X (0,0), O (1,1), X (0,1), O (1,0): X to move. *)
Definition beforeTopRow : Game :=
  mkGame TIC_TAC_TOE initPlayers
    [ [markX; markX; emptyCell];
      [markO; markO; emptyCell];
      [emptyCell; emptyCell; emptyCell] ]
    0 3 5.

(** ** Numbers as text *)

Definition digitChar (d : nat) : ascii := ascii_of_nat (48 + d).

Fixpoint toDigits (fuel n : nat) (acc : jsstring) : jsstring :=
  match fuel with
  | 0 => acc
  | S fuel' =>
      let acc' := digitChar (n mod 10) :: acc in
      if n <? 10 then acc' else toDigits fuel' (n / 10) acc'
  end.

(** [`${n}`] for a non-negative integer [n]: its decimal digits (as
    JavaScript prints every integer below 10^21). *)
Definition toString (n : nat) : jsstring := toDigits (S n) n [].

(** [`${z}`] for an integer *)
Definition toStringZ (z : Z) : jsstring :=
  if (z <? 0)%Z then "-"%char :: toString (Z.to_nat (- z))
  else toString (Z.to_nat z).

(** ** Printing the board: the lines given to [console.log] *)

(** The loop [getEmptySpaces += ' '], [total] times *)
Definition getEmptySpaces (total : nat) : jsstring :=
  replicate total " "%char.

(** The line logged by [printHorizontalDivider] *)
Definition printHorizontalDivider (gameboardSize : nat) : jsstring :=
  getEmptySpaces 2
  ++ concat (replicate (gameboardSize - 1) (js "----")) ++ js "---".

(** The line logged by [printHeader]: [header += emptyCell + i] *)
Definition printHeader (gameboardSize : nat) (emptyCell : jsstring) : jsstring :=
  concat ((fun i => emptyCell ++ toString i) <$> seq 0 gameboardSize).

(** The line logged by [printRow]: a truthy cell is printed between two
    spaces, a falsy one as [emptyCell]; every cell but the last of the row
    is followed by the vertical divider. *)
Definition printRow (r : Row) (rowNum : nat) (emptyCell : jsstring) : jsstring :=
  let outputRow :=
    concat (imap (fun i cell =>
                    let cell' := match cell with
                                 | Str (c :: s) => " "%char :: (c :: s) ++ js " "
                                 | _ => emptyCell
                                 end in
                    if (Z.of_nat i =? Z.of_nat (length r) - 1)%Z
                    then cell' else cell' ++ js "|") r) in
  toString rowNum ++ " "%char :: outputRow.

(** The lines logged by [printGameboard]: the header, then every row,
    each one followed by a divider unless its index is [row.length - 1]. *)
Definition printGameboard (gameboard : Gameboard) : list jsstring :=
  let emptyCell := getEmptySpaces 3 in
  printHeader (length gameboard) emptyCell
  :: concat (imap (fun i r =>
                     printRow r i emptyCell
                     :: (if (Z.of_nat i =? Z.of_nat (length r) - 1)%Z then []
                         else [printHorizontalDivider (length gameboard)]))
                  gameboard).

(** The lines logged by [reportTotalWins] *)
Definition reportTotalWins (game : Game) : list jsstring :=
  [js "<----------------------------->"; js "Report for Players Total Wins"]
  ++ ((fun player =>
         js "Player " ++ name player ++ js ": " ++ toStringZ (totalWins player))
        <$> players game)
  ++ [js "<----------------------------->"].

(** ** The other prompts *)

(** The callback of [promptForGameType]: any answer but 1 or 2 asks
    again; 1 starts tic-tac-toe, 2 starts gomoku. *)
Inductive GameChoice : Type :=
  | AskTypeAgain
  | Start (game : Game).

Definition chooseGame (answer : jsstring) : GameChoice :=
  if negb (jsstring_eqb answer (js "1")) && negb (jsstring_eqb answer (js "2"))
  then AskTypeAgain
  else if jsstring_eqb answer (js "1") then Start (initGame TIC_TAC_TOE)
       else Start (initGame GOMOKU).

(** The callback of [promptForReplay]: yes starts a new session of the
    same type, no closes the prompt, anything else asks again. *)
Inductive ReplayChoice : Type :=
  | PlayAgain (game : Game)
  | Quit
  | AskReplayAgain.

Definition chooseReplay (answer gameType : jsstring) : ReplayChoice :=
  if jsstring_eqb answer (js "yes") then PlayAgain (initGame gameType)
  else if jsstring_eqb answer (js "no") then Quit
       else AskReplayAgain.

(** ** Sessions in play *)

(** The number of cells of the board equal to [mark] *)
Definition countMarkRow (mark : Cell) (s : Row) : nat :=
  length (filter (fun cell => cell = mark) s).

Definition countMark (mark : Cell) (b : Gameboard) : nat :=
  sum_list_with (countMarkRow mark) b.

(** What holds each time the prompt asks for a move: the players are
    those of [initPlayers] with no win counted yet, the board is square,
    holds no winning run and at least one empty cell, the counter is the
    number of empty cells, and X has played as often as O, or once more
    when it is O's turn. *)
Record playing (N : nat) (g : Game) : Prop := {
  playing_players : players g = initPlayers;
  playing_wf : wf_game N g;
  playing_turn : turn g <= 1;
  playing_counter :
    remainingEmptyCells g = Z.of_nat (countEmpty (gameboard g));
  playing_open : (1 <= remainingEmptyCells g)%Z;
  playing_marks :
    countMark markX (gameboard g) = countMark markO (gameboard g) + turn g;
  playing_noX : ~ boardHasRun (gameboard g) markX (winCase g);
  playing_noO : ~ boardHasRun (gameboard g) markO (winCase g)
}.

(** The decimal text of a move: row, comma, column *)
Definition moveText (r c : nat) : jsstring :=
  toString r ++ ","%char :: toString c.

(** ** Auxiliary definitions of the further properties *)

(** One step of reading a decimal text: the value so far and the next digit *)
Definition digitStep (acc : Z) (d : ascii) : Z :=
  (acc * 10 + (Z.of_nat (nat_of_ascii d) - 48))%Z.

(** The number that a text of decimal digits denotes, by position *)
Fixpoint decimalValue (digits : jsstring) : Z :=
  match digits with
  | [] => 0%Z
  | d :: rest =>
      ((Z.of_nat (nat_of_ascii d) - 48) * 10 ^ Z.of_nat (length rest)
       + decimalValue rest)%Z
  end.

(** A text of the pattern: blanks, digits, a comma, blanks, digits,
    blanks, with at least one digit on each side *)
Definition moveShape (rawInput rowStr colStr : jsstring) : Prop :=
  exists ws1 ws2 ws3,
    rawInput = ws1 ++ rowStr ++ ","%char :: ws2 ++ colStr ++ ws3
    /\ Forall (fun c => isSpace c = true) ws1
    /\ Forall (fun c => isSpace c = true) ws2
    /\ Forall (fun c => isSpace c = true) ws3
    /\ Forall (fun c => isDigit c = true) rowStr /\ rowStr <> []
    /\ Forall (fun c => isDigit c = true) colStr /\ colStr <> [].

(** 1 when the cell holds the mark, 0 otherwise *)
Definition isMark (mark cell : Cell) : nat :=
  if decide (cell = mark) then 1 else 0.

(** The session is in play, as a check that can be run; [playingb_true]
    relates it to [playing]. *)
Definition playingb (N : nat) (g : Game) : bool :=
  wf_gameb N g
  && forallb (fun p => (totalWins p =? 0)%Z) (players g)
  && (turn g <=? 1)
  && (remainingEmptyCells g =? Z.of_nat (countEmpty (gameboard g)))%Z
  && (1 <=? remainingEmptyCells g)%Z
  && (countMark markX (gameboard g)
      =? countMark markO (gameboard g) + turn g)
  && negb (boardHasRunb (gameboard g) markX (winCase g))
  && negb (boardHasRunb (gameboard g) markO (winCase g)).


(** An empty 3 x 3 board with a win length of 1. *)
Definition oneInARow : Game :=
  mkGame TIC_TAC_TOE initPlayers (initGameboard 3) 0 1 9.

(** The lines of the rows [l] of a board of [N] rows, [l] being its rows
    from index [k] on *)
Definition rowLines (N k : nat) (l : Gameboard) : list jsstring :=
  concat (imap (fun i r =>
                  printRow r (k + i) (getEmptySpaces 3)
                  :: (if k + i =? N - 1 then []
                      else [printHorizontalDivider N])) l).

(** The text of one cell of a printed row *)
Definition cellText (cell : Cell) : jsstring :=
  match cell with
  | Str (c :: s) => " "%char :: (c :: s) ++ js " "
  | _ => getEmptySpaces 3
  end.

(** The cells of a printed row from index [k] on, [n] being the length
    of the whole row *)
Definition cellTexts (n k : nat) (l : list Cell) : jsstring :=
  concat (imap (fun i cell =>
                  if (Z.of_nat (k + i) =? Z.of_nat n - 1)%Z
                  then cellText cell else cellText cell ++ js "|") l).

(** The session [g] on the board [b] *)
Definition withBoard (g : Game) (b : Gameboard) : Game :=
  mkGame (type g) (players g) b (turn g) (winCase g) (remainingEmptyCells g).

(** * Properties *)

(** ** The loops as list operations *)

Lemma foldl_append {A} (f : A -> jsstring) (l : list A) (acc : jsstring) :
  foldl (fun acc x => acc ++ f x) acc l = acc ++ concat (map f l).
Proof.
  revert acc; induction l as [|x l IH]; intros acc; simpl.
  - by rewrite app_nil_r.
  - by rewrite IH, app_assoc.
Qed.

Lemma rowStr_concat (r : Row) : rowStr r = concat (map cellMark r).
Proof. unfold rowStr. by rewrite foldl_append. Qed.

Lemma rowStr_cons (c : Cell) (r : Row) : rowStr (c :: r) = cellMark c ++ rowStr r.
Proof. by rewrite !rowStr_concat. Qed.

Lemma concatGameboard_concat (b : Gameboard) :
  concatGameboard b = concat (map (fun r => rowStr r ++ [ROW_BREAK]) b).
Proof. unfold concatGameboard. by rewrite foldl_append. Qed.

Lemma concatGameboard_cons (r : Row) (b : Gameboard) :
  concatGameboard (r :: b) = rowStr r ++ ROW_BREAK :: concatGameboard b.
Proof. rewrite !concatGameboard_concat. simpl. by rewrite <- app_assoc. Qed.

(** ** Searching a literal pattern in a text cut by separators *)

Lemma startsWith_sep (p x y : jsstring) (sep : ascii) :
  sep ∉ p -> startsWith p (x ++ sep :: y) = startsWith p x.
Proof.
  revert x; induction p as [|a p IH]; intros x Hsep; [by destruct x|].
  apply not_elem_of_cons in Hsep as [Hne Hsep].
  destruct x as [|b x]; simpl.
  - destruct (Ascii.eqb_spec a sep); [congruence | done].
  - by rewrite IH.
Qed.

Lemma occursIn_nil_r (p : jsstring) : p <> [] -> occursIn p [] = false.
Proof. by destruct p. Qed.

Lemma occursIn_sep (p x y : jsstring) (sep : ascii) :
  p <> [] -> sep ∉ p ->
  occursIn p (x ++ sep :: y) = occursIn p x || occursIn p y.
Proof.
  intros Hp Hsep. induction x as [|b x IH].
  - simpl app. rewrite (occursIn_nil_r p Hp). cbn [occursIn orb].
    replace (startsWith p (sep :: y)) with (startsWith p ([] ++ sep :: y)) by done.
    rewrite startsWith_sep by done. by destruct p.
  - cbn [app occursIn].
    replace (b :: x ++ sep :: y) with ((b :: x) ++ sep :: y) by done.
    rewrite startsWith_sep by done. rewrite IH. by rewrite orb_assoc.
Qed.

Lemma occursIn_concatGameboard (p : jsstring) (b : Gameboard) :
  p <> [] -> ROW_BREAK ∉ p ->
  occursIn p (concatGameboard b) = existsb (fun r => occursIn p (rowStr r)) b.
Proof.
  intros Hp Hsep. induction b as [|r b IH].
  - by apply occursIn_nil_r.
  - rewrite concatGameboard_cons, occursIn_sep by done. simpl. by rewrite IH.
Qed.

(** ** From characters to cells *)

Lemma cellMark_wf (cell : Cell) (c : ascii) :
  wf_cell cell -> isMarkChar c ->
  exists ch, cellMark cell = [ch]
             /\ Ascii.eqb c ch = bool_decide (cell = Str [c]).
Proof.
  intros Hwf Hc. destruct cell as [|[|a s]].
  - exists EMPTY_CELL_MARK. split; [done|]. by destruct Hc as [-> | ->].
  - exists EMPTY_CELL_MARK. split; [done|]. by destruct Hc as [-> | ->].
  - destruct Hwf as [Hx | Ho]; [done| |].
    + inversion Hx; subst. exists "X"%char. split; [done|].
      by destruct Hc as [-> | ->].
    + inversion Ho; subst. exists "O"%char. split; [done|].
      by destruct Hc as [-> | ->].
Qed.

Lemma startsWith_rowStr (c : ascii) (n : nat) (s : Row) :
  wf_seq s -> isMarkChar c ->
  startsWith (replicate n c) (rowStr s) = startsRun (Str [c]) n s.
Proof.
  intros Hwf Hc. revert s Hwf; induction n as [|n IH]; intros s Hwf.
  - by destruct s.
  - destruct s as [|cell s]; [done|].
    apply Forall_cons in Hwf as [Hcell Hwf].
    destruct (cellMark_wf cell c Hcell Hc) as (ch & Hmark & Heq).
    rewrite rowStr_cons, Hmark. simpl. by rewrite Heq, IH.
Qed.

Lemma occursIn_rowStr (c : ascii) (K : nat) (s : Row) :
  wf_seq s -> isMarkChar c ->
  occursIn (replicate K c) (rowStr s) = hasRunb (Str [c]) K s.
Proof.
  intros Hwf Hc. induction s as [|cell s IH].
  - by destruct K.
  - pose proof (startsWith_rowStr c K (cell :: s) Hwf Hc) as Hhead.
    apply Forall_cons in Hwf as [Hcell Hwf].
    destruct (cellMark_wf cell c Hcell Hc) as (ch & Hmark & _).
    rewrite rowStr_cons, Hmark in *. cbn [app occursIn hasRunb].
    simpl app in Hhead. by rewrite Hhead, IH.
Qed.

(** ** The window search and the positions of a run *)

Lemma startsRun_spec (mark : Cell) (n : nat) (s : Row) :
  startsRun mark n s = true <-> runAt mark n s 0.
Proof.
  unfold runAt. revert s; induction n as [|n IH]; intros s; simpl.
  - split; [intros _ j Hj; lia | done].
  - destruct s as [|c s].
    + split; [done|]. intros H. specialize (H 0 ltac:(lia)). done.
    + rewrite andb_true_iff, bool_decide_eq_true, IH. split.
      * intros [-> H] [|j] Hj; [done|]. apply (H j). lia.
      * intros H. split.
        -- specialize (H 0 ltac:(lia)). by inversion H.
        -- intros j Hj. apply (H (S j)). lia.
Qed.

Lemma hasRunb_spec (mark : Cell) (K : nat) (s : Row) :
  hasRunb mark K s = true <-> hasRun mark K s.
Proof.
  unfold hasRun. induction s as [|c s IH]; cbn [hasRunb].
  - rewrite orb_false_r, startsRun_spec. split; [by exists 0|].
    intros [i H] j Hj. specialize (H j Hj).
    by rewrite lookup_nil in H.
  - rewrite orb_true_iff, startsRun_spec, IH. split.
    + intros [H | [i H]]; [by exists 0|]. exists (S i). exact H.
    + intros [[|i] H]; [by left|]. right. exists i. exact H.
Qed.

Lemma startsRun_le (mark : Cell) (m n : nat) (s : Row) :
  m <= n -> startsRun mark n s = true -> startsRun mark m s = true.
Proof.
  rewrite !startsRun_spec. intros Hmn H j Hj. apply H. lia.
Qed.

(** Counting consecutive marks finds what the window search finds. *)
Lemma scanRun_window (mark : Cell) (K count : nat) (s : Row) :
  count < K ->
  scanRun mark K count s = startsRun mark (K - count) s || hasRunb mark K s.
Proof.
  revert count; induction s as [|c s IH]; intros count Hlt.
  - destruct K as [|K]; [lia|]. simpl.
    by replace (S K - count) with (S (K - count)) by lia.
  - cbn [scanRun hasRunb].
    replace (K - count) with (S (K - S count)) by lia.
    destruct K as [|K]; [lia|]. cbn [startsRun].
    case_bool_decide as Hc; cbn [andb orb].
    + destruct (decide (S count = S K)) as [Heq | Hne].
      * rewrite Heq, Nat.leb_refl, Nat.sub_diag. done.
      * replace (S K <=? S count) with false
          by (symmetry; apply Nat.leb_gt; lia).
        rewrite IH by lia. cbn [orb].
        destruct (startsRun mark K s) eqn:HK.
        -- rewrite (startsRun_le mark (S K - S count) K s) by (lia || done).
           done.
        -- done.
    + rewrite IH by lia. rewrite Nat.sub_0_r.
      cbn [hasRunb]. destruct s; cbn [hasRunb];
        by destruct (startsRun mark (S K) _).
Qed.

Lemma scanRun_hasRunb (mark : Cell) (K : nat) (s : Row) :
  1 <= K -> scanRun mark K 0 s = hasRunb mark K s.
Proof.
  intros HK. rewrite scanRun_window by lia. rewrite Nat.sub_0_r.
  destruct s; cbn [hasRunb]; by destruct (startsRun mark K _).
Qed.

(** ** hasWinner on the players of [initPlayers] *)

Lemma hasWinner_standard (s : jsstring) (g : Game) :
  standardPlayers g ->
  hasWinner s g
  = Some (occursIn (replicate (winCase g) "X"%char) s
          || occursIn (replicate (winCase g) "O"%char) s).
Proof.
  intros (wx & wo & Hp). unfold hasWinner. rewrite Hp. reflexivity.
Qed.

Lemma not_elem_of_replicate (c d : ascii) (n : nat) :
  c <> d -> d ∉ replicate n c.
Proof.
  intros Hne Hin. apply elem_of_replicate in Hin as [-> _]. done.
Qed.

Lemma existsb_orb {A} (f h : A -> bool) (l : list A) :
  existsb f l || existsb h l = existsb (fun x => f x || h x) l.
Proof.
  induction l as [|x l IH]; [done|]. simpl. rewrite <- IH.
  destruct (f x), (h x), (existsb f l); done.
Qed.

Lemma existsb_ext_Forall {A} (P : A -> Prop) (f h : A -> bool) (l : list A) :
  Forall P l -> (forall x, P x -> f x = h x) -> existsb f l = existsb h l.
Proof.
  intros Hl Hfh. induction Hl as [|x l Hx Hl IH]; [done|].
  simpl. by rewrite IH, Hfh.
Qed.

Lemma occursIn_grid (c : ascii) (K : nat) (b : Gameboard) :
  wf_grid b -> isMarkChar c -> 1 <= K ->
  occursIn (replicate K c) (concatGameboard b)
  = existsb (hasRunb (Str [c]) K) b.
Proof.
  intros Hwf Hc HK. rewrite occursIn_concatGameboard.
  - apply (existsb_ext_Forall wf_seq); [done|].
    intros s Hs. by apply occursIn_rowStr.
  - destruct K; [lia | done].
  - apply not_elem_of_replicate. by destruct Hc as [-> | ->].
Qed.

(** The result of [hasWinner] on a linearized grid, by windows. *)
Lemma hasWinner_grid (g : Game) (b : Gameboard) :
  standardPlayers g -> wf_grid b -> 1 <= winCase g \/ b <> [] ->
  hasWinner (concatGameboard b) g
  = Some (existsb (fun s => hasRunb markX (winCase g) s
                            || hasRunb markO (winCase g) s) b).
Proof.
  intros Hp Hwf HK. rewrite hasWinner_standard by done. f_equal.
  destruct (winCase g) as [|K] eqn:EK.
  - destruct HK as [HK | Hb]; [lia|].
    destruct b as [|s b]; [done|].
    by destruct s, (concatGameboard _).
  - rewrite (occursIn_grid "X") by (done || lia || by left).
    rewrite (occursIn_grid "O") by (done || lia || by right).
    apply existsb_orb.
Qed.

Lemma existsb_elem_of {A} (f : A -> bool) (l : list A) :
  existsb f l = true <-> exists x, x ∈ l /\ f x = true.
Proof.
  rewrite existsb_exists. split; intros (x & Hx & Hf); exists x;
    (split; [by apply list_elem_of_In | done]).
Qed.

Lemma existsb_hasRunb (K : nat) (b : Gameboard) :
  existsb (fun s => hasRunb markX K s || hasRunb markO K s) b = true
  <-> gridHasRun markX K b \/ gridHasRun markO K b.
Proof.
  rewrite existsb_elem_of. unfold gridHasRun. split.
  - intros (s & Hs & H). apply orb_true_iff in H as [H | H];
      apply hasRunb_spec in H; [left | right]; by exists s.
  - intros [(s & Hs & H) | (s & Hs & H)]; apply hasRunb_spec in H;
      exists s; (split; [done|]); rewrite H; [done | apply orb_true_r].
Qed.

(** What [hasWinner] answers on a linearized grid, by positions. *)
Lemma hasWinner_grid_iff (g : Game) (b : Gameboard) :
  standardPlayers g -> wf_grid b -> 1 <= winCase g \/ b <> [] ->
  exists w, hasWinner (concatGameboard b) g = Some w
            /\ (w = true <-> gridHasRun markX (winCase g) b
                             \/ gridHasRun markO (winCase g) b).
Proof.
  intros Hp Hwf HK. eexists. split; [by apply hasWinner_grid|].
  apply existsb_hasRunb.
Qed.

(** ** The guarded inner loops select an interval of row indices *)

Lemma omap_all_None {A B} (h : A -> option B) (l : list A) :
  (forall x, x ∈ l -> h x = None) -> omap h l = [].
Proof.
  induction l as [|x l IH]; intros H; [done|]. cbn.
  rewrite (H x) by left. apply IH. intros y Hy. apply H. by right.
Qed.

Lemma omap_all_Some {A B} (h : A -> option B) (f : A -> B) (l : list A) :
  (forall x, x ∈ l -> h x = Some (f x)) -> omap h l = f <$> l.
Proof.
  induction l as [|x l IH]; intros H; [done|]. cbn.
  rewrite (H x) by left. f_equal. apply IH. intros y Hy. apply H. by right.
Qed.

Lemma seq_three (n lo len : nat) :
  lo + len <= n ->
  seq 0 n = seq 0 lo ++ seq lo len ++ seq (lo + len) (n - (lo + len)).
Proof.
  intros H. rewrite <- !seq_app. f_equal. lia.
Qed.

Lemma omap_interval {B} (guard : nat -> bool) (f : nat -> B) (n lo len : nat) :
  lo + len <= n ->
  (forall j, j < n -> guard j = true <-> lo <= j < lo + len) ->
  omap (fun j => if guard j then Some (f j) else None) (seq 0 n)
  = f <$> seq lo len.
Proof.
  intros Hn Hg. rewrite (seq_three n lo len Hn), !omap_app.
  rewrite (omap_all_None _ (seq 0 lo)), (omap_all_Some _ f (seq lo len)),
    (omap_all_None _ (seq (lo + len) _)); [by rewrite app_nil_r | | |];
    intros j Hj; apply elem_of_seq in Hj;
    specialize (Hg j ltac:(lia)); destruct (guard j); (done || lia).
Qed.

Lemma diagLo_max (N d : nat) :
  Z.of_nat (diagLo N d) = Z.max 0 (Z.of_nat d - Z.of_nat N + 1).
Proof. unfold diagLo. lia. Qed.

Lemma diagHi_min (N d : nat) :
  1 <= N -> Z.of_nat (diagHi N d) = Z.min (Z.of_nat d) (Z.of_nat N - 1).
Proof. unfold diagHi. lia. Qed.

Lemma upTo_nat (n : nat) : upTo (Z.of_nat n) = seq 0 (S n).
Proof. unfold upTo. f_equal. lia. Qed.

Lemma upTo_size (N : nat) : upTo (2 * (Z.of_nat N - 1)) = seq 0 (2 * N - 1).
Proof. unfold upTo. f_equal. lia. Qed.

Lemma diagonalRow_interval (b : Gameboard) (d : nat) :
  d <= 2 * length b - 2 -> 1 <= length b ->
  diagonalRow b d
  = (fun r => cellOf b r (d - r))
      <$> seq (diagLo (length b) d) (diagLen (length b) d).
Proof.
  intros Hd HN. unfold diagonalRow. rewrite upTo_nat. cbv zeta.
  apply (omap_interval
           (fun j => (j <? length b) && (d - j <? length b))
           (fun r => cellOf b r (d - r)));
    unfold diagLen, diagHi, diagLo; [lia|].
  intros j Hj. rewrite andb_true_iff, !Nat.ltb_lt. lia.
Qed.

Lemma antiDiagonalRow_interval (b : Gameboard) (d : nat) :
  d <= 2 * length b - 2 -> 1 <= length b ->
  antiDiagonalRow b d
  = (fun r => cellOf b r (length b - 1 + r - d))
      <$> seq (diagLo (length b) d) (diagLen (length b) d).
Proof.
  intros Hd HN. unfold antiDiagonalRow. rewrite upTo_nat. cbv zeta.
  rewrite <- (omap_interval
           (fun j => (j <? length b)
                     && (0 <=? Z.of_nat (length b) - 1 - Z.of_nat d + Z.of_nat j)%Z)
           (fun r => cellOf b r (length b - 1 + r - d)) (S d)).
  - apply list_omap_ext. apply Forall2_same_length_lookup_2; [done|].
    intros i j j' Hi Hi'. rewrite Hi in Hi'. inversion Hi'; subst j'.
    destruct (_ && _); [|done]. do 2 f_equal. lia.
  - unfold diagLen, diagHi, diagLo. lia.
  - intros j Hj. unfold diagLen, diagHi, diagLo.
    rewrite andb_true_iff, Nat.ltb_lt, Z.leb_le. lia.
Qed.

(** ** Cells at integer coordinates *)

Lemma cellAt_nat (b : Gameboard) (r c : nat) :
  cellAt b (Z.of_nat r) (Z.of_nat c) = cellOf b r c.
Proof.
  unfold cellAt.
  replace (Z.of_nat r <? 0)%Z with false by (symmetry; apply Z.ltb_ge; lia).
  replace (Z.of_nat c <? 0)%Z with false by (symmetry; apply Z.ltb_ge; lia).
  by rewrite !Nat2Z.id.
Qed.

Lemma cellAt_to_nat (b : Gameboard) (r c : Z) :
  (0 <= r)%Z -> (0 <= c)%Z -> cellAt b r c = cellOf b (Z.to_nat r) (Z.to_nat c).
Proof.
  intros Hr Hc. rewrite <- cellAt_nat. f_equal; lia.
Qed.

Lemma cellOf_lookup (b : Gameboard) (r c : nat) (s : Row) (cell : Cell) :
  b !! r = Some s -> s !! c = Some cell -> cellOf b r c = cell.
Proof. intros Hr Hc. unfold cellOf, cellOfRow. by rewrite Hr, Hc. Qed.

Lemma square_lookup (N : nat) (b : Gameboard) (r c : nat) :
  square N b -> r < N -> c < N ->
  exists s, b !! r = Some s /\ length s = N /\ s !! c = Some (cellOf b r c).
Proof.
  intros [Hlen Hrows] Hr Hc.
  destruct (lookup_lt_is_Some_2 b r ltac:(lia)) as [s Hs].
  pose proof (Forall_lookup_1 _ _ _ _ Hrows Hs) as Hls. simpl in Hls.
  destruct (lookup_lt_is_Some_2 s c ltac:(lia)) as [cell Hcell].
  exists s. split; [done|]. split; [done|].
  by rewrite (cellOf_lookup b r c s cell).
Qed.

(** A truthy cell read at integer coordinates is on the board. *)
Lemma cellAt_truthy_inBounds (N : nat) (b : Gameboard) (r c : Z) :
  square N b -> truthy (cellAt b r c) = true -> inBounds N r c.
Proof.
  intros [Hlen Hrows]. unfold cellAt, inBounds.
  destruct (Z.ltb_spec r 0), (Z.ltb_spec c 0); simpl; try done.
  unfold cellOf, cellOfRow.
  destruct (b !! Z.to_nat r) as [s|] eqn:Hs; [|done].
  destruct (s !! Z.to_nat c) as [cell|] eqn:Hcell; [|done].
  intros _. apply lookup_lt_Some in Hs as Hr', Hcell as Hc'.
  pose proof (Forall_lookup_1 _ _ _ _ Hrows Hs) as Hls. simpl in Hls. lia.
Qed.

(** Runs along a direction and runs in its linearization. *)
Lemma lineRun_gridHasRun (N : nat) (b L : Gameboard) (mark : Cell) (K : nat)
    (dir : Direction) (r c : Z) :
  square N b -> linearizes N b L (fst (stepOf dir)) (snd (stepOf dir)) ->
  truthy mark = true -> 1 <= K ->
  lineRun b mark K dir r c -> gridHasRun mark K L.
Proof.
  intros Hsq [_ Hcover] Hmark HK Hrun.
  assert (Hin : forall j : nat, j < K ->
            inBounds N (r + Z.of_nat j * fst (stepOf dir))
                       (c + Z.of_nat j * snd (stepOf dir))).
  { intros j Hj. apply (cellAt_truthy_inBounds N b); [done|].
    by rewrite (Hrun j Hj). }
  destruct (Hcover r c) as (d & s & q & Hs & Hnext).
  { specialize (Hin 0 ltac:(lia)). by rewrite !Z.mul_0_l, !Z.add_0_r in Hin. }
  exists s. split; [by eapply list_elem_of_lookup_2|].
  exists q. intros j Hj. rewrite Hnext by auto. by rewrite Hrun.
Qed.

Lemma gridHasRun_lineRun (N : nat) (b L : Gameboard) (mark : Cell) (K : nat)
    (dir : Direction) :
  linearizes N b L (fst (stepOf dir)) (snd (stepOf dir)) ->
  gridHasRun mark K L -> exists r c, lineRun b mark K dir r c.
Proof.
  intros [Hwalk _] (s & Hs & p & Hrun).
  apply list_elem_of_lookup_1 in Hs as [d Hd].
  destruct (Hwalk d s Hd) as (r0 & c0 & Hcells).
  exists (r0 + Z.of_nat p * fst (stepOf dir))%Z,
         (c0 + Z.of_nat p * snd (stepOf dir))%Z.
  intros j Hj. rewrite <- (Hcells (p + j) mark (Hrun j Hj)).
  f_equal; lia.
Qed.

(** ** The four linearizations list the lines of the four directions *)

Lemma rows_linearize (N : nat) (b : Gameboard) :
  square N b -> linearizes N b b 0 1.
Proof.
  intros Hsq. split.
  - intros d s Hd. exists (Z.of_nat d), 0%Z. intros q cell Hq.
    replace (Z.of_nat d + Z.of_nat q * 0)%Z with (Z.of_nat d) by lia.
    replace (0 + Z.of_nat q * 1)%Z with (Z.of_nat q) by lia.
    rewrite cellAt_nat. by eapply cellOf_lookup.
  - intros r c [Hr Hc].
    destruct (square_lookup N b (Z.to_nat r) (Z.to_nat c) Hsq)
      as (s & Hs & Hlen & _); [lia..|].
    exists (Z.to_nat r), s, (Z.to_nat c). split; [done|].
    intros j [_ Hcj]. rewrite cellAt_to_nat by lia.
    replace (Z.to_nat (r + Z.of_nat j * 0)) with (Z.to_nat r) by lia.
    replace (Z.to_nat (c + Z.of_nat j * 1)) with (Z.to_nat c + j) by lia.
    destruct (square_lookup N b (Z.to_nat r) (Z.to_nat c + j) Hsq)
      as (s' & Hs' & _ & Hcell); [lia..|].
    congruence.
Qed.

Lemma transposeGameboard_lookup (b t : Gameboard) (d : nat) (s : Row) :
  transposeGameboard b = Some t -> t !! d = Some s ->
  s = (fun r => cellOfRow r d) <$> b.
Proof.
  unfold transposeGameboard. destruct (b !! 0) as [row0|]; [|done].
  simpl. intros [= <-]. rewrite list_lookup_imap.
  destruct (row0 !! d); [|done]. by intros [= <-].
Qed.

Lemma transposeGameboard_square (N : nat) (b : Gameboard) :
  square N b -> 1 <= N ->
  exists t, transposeGameboard b = Some t /\ length t = N
            /\ forall d, d < N -> t !! d = Some ((fun r => cellOfRow r d) <$> b).
Proof.
  intros Hsq HN.
  destruct (square_lookup N b 0 0 Hsq) as (row0 & H0 & Hlen & _); [lia..|].
  unfold transposeGameboard. rewrite H0. simpl. eexists. split; [done|].
  split; [by rewrite length_imap|].
  intros d Hd. rewrite list_lookup_imap.
  destruct (lookup_lt_is_Some_2 row0 d ltac:(lia)) as [x ->]. done.
Qed.

Lemma column_lookup (b : Gameboard) (c q : nat) (cell : Cell) :
  ((fun r => cellOfRow r c) <$> b) !! q = Some cell ->
  cellOf b q c = cell.
Proof.
  rewrite list_lookup_fmap. unfold cellOf.
  destruct (b !! q); [|done]. by intros [= <-].
Qed.

Lemma columns_linearize (N : nat) (b t : Gameboard) :
  square N b -> transposeGameboard b = Some t -> linearizes N b t 1 0.
Proof.
  intros Hsq Ht. split.
  - intros d s Hd. exists 0%Z, (Z.of_nat d). intros q cell Hq.
    replace (0 + Z.of_nat q * 1)%Z with (Z.of_nat q) by lia.
    replace (Z.of_nat d + Z.of_nat q * 0)%Z with (Z.of_nat d) by lia.
    rewrite cellAt_nat. apply column_lookup.
    by rewrite <- (transposeGameboard_lookup b t d s).
  - intros r c [Hr Hc].
    destruct (transposeGameboard_square N b Hsq ltac:(lia))
      as (t' & Ht' & _ & Hcols).
    assert (t' = t) as -> by congruence.
    exists (Z.to_nat c), ((fun x => cellOfRow x (Z.to_nat c)) <$> b), (Z.to_nat r).
    split; [apply Hcols; lia|].
    intros j [Hrj _]. rewrite cellAt_to_nat by lia.
    replace (Z.to_nat (r + Z.of_nat j * 1)) with (Z.to_nat r + j) by lia.
    replace (Z.to_nat (c + Z.of_nat j * 0)) with (Z.to_nat c) by lia.
    rewrite list_lookup_fmap. unfold cellOf.
    destruct Hsq as [Hlen _].
    destruct (lookup_lt_is_Some_2 b (Z.to_nat r + j) ltac:(lia)) as [x ->].
    done.
Qed.

Lemma length_diagonalizeGameboard (b : Gameboard) :
  length (diagonalizeGameboard b) = 2 * length b - 1.
Proof.
  unfold diagonalizeGameboard.
  by rewrite upTo_size, length_fmap, length_seq.
Qed.

Lemma length_antiDiagonalizeGameboard (b : Gameboard) :
  length (antiDiagonalizeGameboard b) = 2 * length b - 1.
Proof.
  unfold antiDiagonalizeGameboard.
  by rewrite upTo_size, length_fmap, length_seq.
Qed.

Lemma diagonalizeGameboard_lookup (b : Gameboard) (d : nat) :
  d < 2 * length b - 1 ->
  diagonalizeGameboard b !! d = Some (diagonalRow b d).
Proof.
  intros Hd. unfold diagonalizeGameboard.
  by rewrite upTo_size, list_lookup_fmap, lookup_seq_lt.
Qed.

Lemma antiDiagonalizeGameboard_lookup (b : Gameboard) (d : nat) :
  d < 2 * length b - 1 ->
  antiDiagonalizeGameboard b !! d = Some (antiDiagonalRow b d).
Proof.
  intros Hd. unfold antiDiagonalizeGameboard.
  by rewrite upTo_size, list_lookup_fmap, lookup_seq_lt.
Qed.

Lemma interval_lookup {B} (f : nat -> B) (lo len q : nat) (x : B) :
  (f <$> seq lo len) !! q = Some x <-> q < len /\ x = f (lo + q).
Proof.
  rewrite list_lookup_fmap. split.
  - destruct (seq lo len !! q) as [i|] eqn:Hi; [|done].
    apply lookup_seq in Hi as [-> Hq]. by intros [= <-].
  - intros [Hq ->]. by rewrite lookup_seq_lt.
Qed.

Lemma diagonals_linearize (N : nat) (b : Gameboard) :
  square N b -> 1 <= N -> linearizes N b (diagonalizeGameboard b) 1 (-1).
Proof.
  intros Hsq HN. pose proof Hsq as [Hlen _]. split.
  - intros d s Hd.
    pose proof (lookup_lt_Some _ _ _ Hd) as Hlt.
    rewrite length_diagonalizeGameboard in Hlt.
    rewrite diagonalizeGameboard_lookup in Hd by done.
    injection Hd as <-. rewrite diagonalRow_interval by lia.
    exists (Z.of_nat (diagLo (length b) d)),
           (Z.of_nat (d - diagLo (length b) d)).
    intros q cell Hq. apply interval_lookup in Hq as [Hq ->].
    unfold diagLen, diagHi, diagLo in *.
    rewrite cellAt_to_nat by lia. f_equal; lia.
  - intros r c [Hr Hc].
    set (d := Z.to_nat r + Z.to_nat c).
    exists d, (diagonalRow b d), (Z.to_nat r - diagLo (length b) d).
    split; [apply diagonalizeGameboard_lookup; lia|].
    intros j [Hrj Hcj]. rewrite diagonalRow_interval by lia.
    apply interval_lookup. unfold diagLen, diagHi, diagLo.
    split; [lia|]. rewrite cellAt_to_nat by lia. f_equal; lia.
Qed.

Lemma antiDiagonals_linearize (N : nat) (b : Gameboard) :
  square N b -> 1 <= N -> linearizes N b (antiDiagonalizeGameboard b) 1 1.
Proof.
  intros Hsq HN. pose proof Hsq as [Hlen _]. split.
  - intros d s Hd.
    pose proof (lookup_lt_Some _ _ _ Hd) as Hlt.
    rewrite length_antiDiagonalizeGameboard in Hlt.
    rewrite antiDiagonalizeGameboard_lookup in Hd by done.
    injection Hd as <-. rewrite antiDiagonalRow_interval by lia.
    exists (Z.of_nat (diagLo (length b) d)),
           (Z.of_nat (length b - 1 + diagLo (length b) d - d)).
    intros q cell Hq. apply interval_lookup in Hq as [Hq ->].
    unfold diagLen, diagHi, diagLo in *.
    rewrite cellAt_to_nat by lia. f_equal; lia.
  - intros r c [Hr Hc].
    set (d := length b - 1 + Z.to_nat r - Z.to_nat c).
    exists d, (antiDiagonalRow b d), (Z.to_nat r - diagLo (length b) d).
    split; [apply antiDiagonalizeGameboard_lookup; lia|].
    intros j [Hrj Hcj]. rewrite antiDiagonalRow_interval by lia.
    apply interval_lookup. unfold diagLen, diagHi, diagLo.
    split; [lia|]. rewrite cellAt_to_nat by lia. f_equal; lia.
Qed.

(** ** The linearizations of a well-formed board are well-formed *)

Lemma wf_cell_Undefined : wf_cell Undefined.
Proof. by intros H. Qed.

Lemma wf_cellOfRow (s : Row) (k : nat) : wf_seq s -> wf_cell (cellOfRow s k).
Proof.
  intros Hs. unfold cellOfRow. destruct (s !! k) as [cell|] eqn:Hk.
  - by apply (Forall_lookup_1 _ _ _ _ Hs Hk).
  - apply wf_cell_Undefined.
Qed.

Lemma wf_cellOf (b : Gameboard) (j k : nat) : wf_grid b -> wf_cell (cellOf b j k).
Proof.
  intros Hb. unfold cellOf. destruct (b !! j) as [s|] eqn:Hj.
  - apply wf_cellOfRow. by apply (Forall_lookup_1 _ _ _ _ Hb Hj).
  - apply wf_cell_Undefined.
Qed.

Lemma wf_transposeGameboard (b t : Gameboard) :
  wf_grid b -> transposeGameboard b = Some t -> wf_grid t.
Proof.
  intros Hb Ht. apply Forall_lookup_2. intros d s Hd.
  rewrite (transposeGameboard_lookup b t d s Ht Hd).
  apply Forall_fmap. apply (Forall_impl _ _ _ Hb).
  intros r Hr. by apply wf_cellOfRow.
Qed.

Lemma wf_diagonalizeGameboard (b : Gameboard) :
  wf_grid b -> wf_grid (diagonalizeGameboard b).
Proof.
  intros Hb. apply Forall_fmap, Forall_forall. intros d _.
  apply Forall_forall. intros cell Hcell.
  apply list_elem_of_omap in Hcell as (j & _ & Hj). cbv zeta in Hj.
  destruct (_ && _); [|done]. injection Hj as <-. by apply wf_cellOf.
Qed.

Lemma wf_antiDiagonalizeGameboard (b : Gameboard) :
  wf_grid b -> wf_grid (antiDiagonalizeGameboard b).
Proof.
  intros Hb. apply Forall_fmap, Forall_forall. intros d _.
  apply Forall_forall. intros cell Hcell.
  apply list_elem_of_omap in Hcell as (j & _ & Hj). cbv zeta in Hj.
  destruct (_ && _); [|done]. injection Hj as <-. by apply wf_cellOf.
Qed.

(** ** The transforms on a well-formed session *)

Section WellFormedSession.

Context (N : nat) (g : Game) (Hg : wf_game N g).

Lemma linearization_total (t : Transform) :
  exists L, linearization t (gameboard g) = Some L
            /\ wf_grid L
            /\ linearizes N (gameboard g) L
                 (fst (stepOf (directionOf t)))
                 (snd (stepOf (directionOf t))).
Proof.
  destruct Hg as [Hp Hsq Hwf HN HK]. destruct t; simpl.
  - eexists. split; [done|]. split; [done|]. by apply rows_linearize.
  - destruct (transposeGameboard_square N _ Hsq HN) as (L & HL & _).
    exists L. split; [done|]. split; [by eapply wf_transposeGameboard|].
    by apply columns_linearize.
  - eexists. split; [done|]. split; [by apply wf_diagonalizeGameboard|].
    by apply diagonals_linearize.
  - eexists. split; [done|]. split; [by apply wf_antiDiagonalizeGameboard|].
    by apply antiDiagonals_linearize.
Qed.

Lemma detects_wf (t : Transform) :
  exists L, linearization t (gameboard g) = Some L
            /\ detects g t = Some (existsb (eitherRun (winCase g)) L).
Proof.
  destruct (linearization_total t) as (L & HL & Hwf & _).
  exists L. split; [done|]. unfold detects. rewrite HL. simpl.
  apply hasWinner_grid; [apply Hg | done | left; apply Hg].
Qed.

(** A transform detects a win exactly when a line of its direction
    holds a run of one of the two marks. *)
Lemma detects_iff (t : Transform) :
  detects g t = Some true
  <-> exists mark r c, (mark = markX \/ mark = markO)
        /\ lineRun (gameboard g) mark (winCase g) (directionOf t) r c.
Proof.
  destruct (linearization_total t) as (L & HL & Hwf & Hlin).
  destruct (detects_wf t) as (L' & HL' & ->).
  assert (L' = L) as -> by congruence.
  split.
  - intros [= H]. apply existsb_hasRunb in H as [H | H];
      destruct (gridHasRun_lineRun N _ L _ _ (directionOf t) Hlin H)
        as (r & c & Hrun); eauto 10.
  - intros (mark & r & c & Hmark & Hrun). f_equal.
    apply existsb_hasRunb.
    destruct Hmark as [-> | ->]; [left | right];
      by eapply (lineRun_gridHasRun N (gameboard g) L); try apply Hg.
Qed.
End WellFormedSession.

(** ** checkForWin as an ordered search over the transforms *)

Lemma checkForWin_firstDetected (g : Game) :
  checkForWin g
  = let* w := firstDetected g evaluationOrder in
    if w then declareWinner g (lastMoveOf g) else Some (noWinOutcome g).
Proof.
  unfold checkForWin, evaluationOrder, firstDetected, detects, linearization,
    noWinOutcome. cbn [bind].
  destruct (hasWinner (concatGameboard (gameboard g)) g) as [[|]|]; cbn [bind];
    [done| |done].
  destruct (transposeGameboard (gameboard g)) as [t|]; cbn [bind]; [|done].
  destruct (hasWinner (concatGameboard t) g) as [[|]|]; cbn [bind];
    [done| |done].
  destruct (hasWinner (concatGameboard (diagonalizeGameboard _)) g)
    as [[|]|]; cbn [bind]; [done| |done].
  destruct (hasWinner (concatGameboard (antiDiagonalizeGameboard _)) g)
    as [[|]|]; cbn [bind]; [done| |done].
  by destruct (remainingEmptyCells g =? 0)%Z.
Qed.

Lemma firstDetected_first_match (g : Game) (before after : list Transform)
    (t : Transform) :
  (forall t', t' ∈ before -> detects g t' = Some false) ->
  detects g t = Some true ->
  firstDetected g (before ++ t :: after) = Some true.
Proof.
  intros Hbefore Ht. induction before as [|t' before IH]; simpl.
  - by rewrite Ht.
  - rewrite (Hbefore t') by left. simpl. apply IH.
    intros t'' Ht''. apply Hbefore. by right.
Qed.

Lemma firstDetected_true (g : Game) (ts : list Transform) :
  firstDetected g ts = Some true ->
  exists before t after,
    ts = before ++ t :: after
    /\ (forall t', t' ∈ before -> detects g t' = Some false)
    /\ detects g t = Some true.
Proof.
  induction ts as [|t ts IH]; simpl; [done|].
  destruct (detects g t) as [[|]|] eqn:Ht; simpl; [| |done].
  - intros _. exists [], t, ts. split; [done|]. split; [|done].
    intros t' Ht'. by apply elem_of_nil in Ht'.
  - intros H. destruct (IH H) as (before & t' & after & -> & Hb & Ht').
    exists (t :: before), t', after. split; [done|]. split; [|done].
    intros t'' Hin. apply elem_of_cons in Hin as [-> | Hin]; auto.
Qed.

Lemma firstDetected_false (g : Game) (ts : list Transform) :
  (forall t, t ∈ ts -> detects g t = Some false) ->
  firstDetected g ts = Some false.
Proof.
  induction ts as [|t ts IH]; intros H; simpl; [done|].
  rewrite (H t) by left. simpl. apply IH. intros t' Ht'. apply H. by right.
Qed.

(** If the detector answered at all, both players exist, and with them
    the player who moved last. *)
Lemma hasWinner_Some_players (s : jsstring) (g : Game) (w : bool) :
  hasWinner s g = Some w ->
  exists p, players g !! lastMoveOf g = Some p.
Proof.
  unfold hasWinner, lastMoveOf.
  destruct (players g !! 0) as [p0|] eqn:H0; simpl; [|done].
  destruct (newRegExp _ _); simpl; [|done].
  destruct (players g !! 1) as [p1|] eqn:H1; simpl; [|done].
  intros _. destruct (turn g =? 0); eauto.
Qed.

Lemma detects_Some_players (g : Game) (t : Transform) (w : bool) :
  detects g t = Some w -> exists p, players g !! lastMoveOf g = Some p.
Proof.
  unfold detects. destruct (linearization _ _); simpl; [|done].
  apply hasWinner_Some_players.
Qed.

Lemma declareWinner_Some (g : Game) (i : nat) (p : Player) :
  players g !! i = Some p ->
  declareWinner g i = Some (winsMessage (name p), credit g i p).
Proof. intros H. unfold declareWinner. by rewrite H. Qed.

(** On a well-formed session every transform is evaluated without error. *)
Lemma firstDetected_wf (N : nat) (g : Game) (ts : list Transform) :
  wf_game N g -> exists w, firstDetected g ts = Some w.
Proof.
  intros Hg. induction ts as [|t ts [w IH]]; simpl; [by eexists|].
  destruct (detects_wf N g Hg t) as (L & _ & ->). simpl.
  destruct (existsb _ L); eauto.
Qed.

Lemma boardHasRun_detects (N : nat) (g : Game) :
  wf_game N g ->
  (exists t, detects g t = Some true)
  <-> boardHasRun (gameboard g) markX (winCase g)
      \/ boardHasRun (gameboard g) markO (winCase g).
Proof.
  intros Hg. split.
  - intros [t Ht]. apply (detects_iff N g Hg t) in Ht
      as (mark & r & c & [-> | ->] & Hrun); [left | right];
      by exists (directionOf t), r, c.
  - assert (Hdir : forall dir, exists t, directionOf t = dir).
    { intros []; [by exists Rows | by exists Columns
                  | by exists AntiDiagonals | by exists Diagonals]. }
    intros [(dir & r & c & Hrun) | (dir & r & c & Hrun)];
      destruct (Hdir dir) as [t <-]; exists t;
      apply (detects_iff N g Hg t); eauto 10.
Qed.

Lemma firstDetected_iff (N : nat) (g : Game) :
  wf_game N g ->
  firstDetected g evaluationOrder = Some true
  <-> boardHasRun (gameboard g) markX (winCase g)
      \/ boardHasRun (gameboard g) markO (winCase g).
Proof.
  intros Hg. rewrite <- (boardHasRun_detects N g Hg). split.
  - intros H. apply firstDetected_true in H as (_ & t & _ & _ & _ & Ht).
    by exists t.
  - intros [t Ht].
    destruct (firstDetected_wf N g evaluationOrder Hg) as [[|] Hw]; [done|].
    exfalso. revert Hw. unfold evaluationOrder. simpl.
    destruct (detects_wf N g Hg Rows) as (? & _ & HR).
    destruct (detects_wf N g Hg Columns) as (? & _ & HC).
    destruct (detects_wf N g Hg Diagonals) as (? & _ & HD).
    destruct (detects_wf N g Hg AntiDiagonals) as (? & _ & HA).
    destruct t; rewrite HR, HC, HD, HA in *; simpl;
      injection Ht as Ht; rewrite ?Ht; simpl;
      repeat (destruct (existsb _ _); simpl; try done).
Qed.

(** ** Deciding well-formedness on concrete states *)

Lemma jsstring_eqb_eq (a b : jsstring) : jsstring_eqb a b = true -> a = b.
Proof.
  revert b; induction a as [|x a IH]; intros [|y b]; simpl; try done.
  rewrite andb_true_iff. intros [Hxy Hab].
  apply Ascii.eqb_eq in Hxy as ->. by rewrite (IH b Hab).
Qed.

Lemma wf_cellb_true (cell : Cell) : wf_cellb cell = true -> wf_cell cell.
Proof.
  unfold wf_cellb, wf_cell. rewrite !orb_true_iff, !bool_decide_eq_true.
  intros [[H | H] | H] Ht; auto. rewrite Ht in H. done.
Qed.

Lemma wf_gridb_true (b : Gameboard) : wf_gridb b = true -> wf_grid b.
Proof.
  unfold wf_gridb, wf_grid, wf_seq. rewrite forallb_forall.
  intros H. apply Forall_forall. intros s Hs.
  apply list_elem_of_In in Hs. specialize (H s Hs).
  rewrite forallb_forall in H. apply Forall_forall. intros cell Hcell.
  apply wf_cellb_true, H. by apply list_elem_of_In.
Qed.

Lemma squareb_true (N : nat) (b : Gameboard) : squareb N b = true -> square N b.
Proof.
  unfold squareb, square. rewrite andb_true_iff, Nat.eqb_eq, forallb_forall.
  intros [Hlen H]. split; [done|]. apply Forall_forall. intros s Hs.
  apply Nat.eqb_eq, H. by apply list_elem_of_In.
Qed.

Lemma standardPlayersb_true (g : Game) :
  standardPlayersb g = true -> standardPlayers g.
Proof.
  unfold standardPlayersb, standardPlayers.
  destruct (players g) as [|[n0 w0] [|[n1 w1] [|]]]; try done. simpl.
  rewrite andb_true_iff. intros [H0 H1].
  apply jsstring_eqb_eq in H0 as ->, H1 as ->. by exists w0, w1.
Qed.

Lemma wf_gameb_true (N : nat) (g : Game) : wf_gameb N g = true -> wf_game N g.
Proof.
  unfold wf_gameb. rewrite !andb_true_iff, !Nat.leb_le.
  intros [[[[Hp Hsq] Hwf] HN] HK]. split; try done.
  - by apply standardPlayersb_true.
  - by apply squareb_true.
  - by apply wf_gridb_true.
Qed.

(** ** The run detector on a linearized grid *)

Lemma existsb_scanRun (K : nat) (b : Gameboard) :
  1 <= K ->
  existsb (eitherRun K) b
  = existsb (fun s => scanRun markX K 0 s || scanRun markO K 0 s) b.
Proof.
  intros HK. induction b as [|s b IH]; [done|]. simpl.
  unfold eitherRun at 1. by rewrite IH, !scanRun_hasRunb.
Qed.

(** C10: on a grid whose non-empty cells are the marks 'X' and 'O', the
    pattern search of [hasWinner] on the text built by [concatGameboard]
    answers exactly what a scan of each row on its own answers, counting
    consecutive equal marks up to [winCase] and starting again from zero at
    an empty cell; it follows that cutting the grid between any two rows
    and searching both parts gives the same answer, so no match spans a
    row boundary. *)
Theorem hasWinner_concat_refines_row_scan (g : Game) (b : Gameboard) :
  standardPlayers g -> wf_grid b -> 1 <= winCase g ->
  hasWinner (concatGameboard b) g
  = Some (existsb (fun s => scanRun markX (winCase g) 0 s
                            || scanRun markO (winCase g) 0 s) b)
  /\ (forall b1 b2, b = b1 ++ b2 ->
        exists w1 w2,
          hasWinner (concatGameboard b1) g = Some w1
          /\ hasWinner (concatGameboard b2) g = Some w2
          /\ hasWinner (concatGameboard b) g = Some (w1 || w2)).
Proof.
  intros Hp Hwf HK. split.
  - rewrite hasWinner_grid by auto. f_equal. by apply existsb_scanRun.
  - intros b1 b2 ->. pose proof Hwf as Hwf'.
    apply Forall_app in Hwf' as [Hwf1 Hwf2].
    do 2 eexists.
    rewrite (hasWinner_grid g b1), (hasWinner_grid g b2),
      (hasWinner_grid g (b1 ++ b2)) by auto.
    split; [done|]. split; [done|]. f_equal. apply existsb_app.
Qed.

Lemma hasWinner_concat_refines_row_scan_witness :
  hasWinner (concatGameboard (gameboard topRowX)) topRowX = Some true
  /\ hasWinner (concatGameboard (gameboard fullNoRun)) fullNoRun = Some false.
Proof.
  split.
  - destruct (hasWinner_concat_refines_row_scan topRowX (gameboard topRowX))
      as [H _].
    + by apply standardPlayersb_true.
    + by apply wf_gridb_true.
    + simpl. lia.
    + exact H.
  - destruct (hasWinner_concat_refines_row_scan fullNoRun (gameboard fullNoRun))
      as [H _].
    + by apply standardPlayersb_true.
    + by apply wf_gridb_true.
    + simpl. lia.
    + exact H.
Defined.

Lemma hasRun_length (mark : Cell) (K : nat) (s : Row) :
  1 <= K -> hasRun mark K s -> K <= length s.
Proof.
  intros HK [i H]. specialize (H (K - 1) ltac:(lia)).
  apply lookup_lt_Some in H. lia.
Qed.

Lemma occursIn_nil_l (s : jsstring) : occursIn [] s = true.
Proof. by destruct s. Qed.

(** An empty cell cuts a sequence as a row break does. *)
Lemma hasWinner_empty_cell_breaks (g : Game) (s1 s2 : Row) (cell : Cell) :
  standardPlayers g -> truthy cell = false ->
  hasWinner (concatGameboard [s1 ++ cell :: s2]) g
  = hasWinner (concatGameboard [s1; s2]) g.
Proof.
  intros Hp Hcell. rewrite !hasWinner_standard by done.
  destruct (winCase g) as [|K]; [by rewrite !occursIn_nil_l|].
  rewrite !concatGameboard_cons.
  replace (concatGameboard []) with (@nil ascii) by done.
  rewrite !rowStr_concat, map_app, concat_app. cbn [map concat].
  replace (cellMark cell) with [EMPTY_CELL_MARK]
    by (by destruct cell as [|[|]]).
  rewrite <- !rowStr_concat, <- !app_assoc. cbn [app].
  rewrite !(occursIn_sep _ (rowStr s1)); try done;
    by apply not_elem_of_replicate.
Qed.

(** C2: on a collection of sequences of empty cells and marks (with a win
    length of at least 1, or at least one sequence), [hasWinner] applied
    to its linearization answers true exactly when some sequence holds
    [winCase] consecutive cells equal to the mark of one of the two
    players; an empty cell never matches and cuts a sequence as a row
    break does; sequences all shorter than [winCase] give no match; a
    sequence with [winCase] consecutive cells of one mark gives a match. *)
Theorem hasWinner_iff_consecutive_marks (g : Game) (b : Gameboard) :
  standardPlayers g -> wf_grid b -> 1 <= winCase g \/ b <> [] ->
  exists w,
    hasWinner (concatGameboard b) g = Some w
    /\ (w = true <-> gridHasRun markX (winCase g) b
                     \/ gridHasRun markO (winCase g) b)
    /\ (forall s1 s2 cell, truthy cell = false ->
          hasWinner (concatGameboard [s1 ++ cell :: s2]) g
          = hasWinner (concatGameboard [s1; s2]) g)
    /\ ((forall s, s ∈ b -> length s < winCase g) -> w = false)
    /\ (forall s i mark, s ∈ b -> mark = markX \/ mark = markO ->
          runAt mark (winCase g) s i -> w = true).
Proof.
  intros Hp Hwf HK.
  destruct (hasWinner_grid_iff g b Hp Hwf HK) as (w & Hw & Hiff).
  exists w. split; [done|]. split; [done|]. split; [|split].
  - intros s1 s2 cell Hcell. by apply hasWinner_empty_cell_breaks.
  - intros Hshort. destruct w; [|done]. exfalso.
    destruct (proj1 Hiff eq_refl) as [(s & Hs & Hrun) | (s & Hs & Hrun)];
      specialize (Hshort s Hs);
      (apply hasRun_length in Hrun; [lia|]); lia.
  - intros s i mark Hs Hmark Hrun. apply Hiff.
    destruct Hmark as [-> | ->]; [left | right]; exists s; split; try done;
      by exists i.
Qed.

Lemma hasWinner_iff_consecutive_marks_witness :
  exists w,
    hasWinner (concatGameboard (gameboard topRowX)) topRowX = Some w
    /\ (w = true <-> gridHasRun markX 3 (gameboard topRowX)
                     \/ gridHasRun markO 3 (gameboard topRowX)).
Proof.
  destruct (hasWinner_iff_consecutive_marks topRowX (gameboard topRowX))
    as (w & Hw & Hiff & _).
  - by apply standardPlayersb_true.
  - by apply wf_gridb_true.
  - left. simpl. lia.
  - exists w. split; [exact Hw | exact Hiff].
Defined.

(** ** The order of evaluation and the win counter *)

Lemma lookup_credit_eq (g : Game) (i : nat) (p : Player) :
  players g !! i = Some p ->
  players (credit g i p) !! i = Some (mkPlayer (name p) (totalWins p + 1)).
Proof.
  intros H. simpl. apply list_lookup_insert_eq. by eapply lookup_lt_Some.
Qed.

Lemma lookup_credit_ne (g : Game) (i j : nat) (p : Player) :
  i <> j -> players (credit g i p) !! j = players g !! j.
Proof. intros H. simpl. by apply list_lookup_insert_ne. Qed.

(** The transforms after the first match are not built: on a board
    without rows and a win length of 0 the rows already match (the
    pattern of length 0 matches the empty text), and the call returns
    although [transposeGameboard] would throw on this board. *)
Example rows_match_before_transpose :
  let g := mkGame TIC_TAC_TOE initPlayers [] 1 0 0 in
  detects g Rows = Some true
  /\ detects g Columns = None
  /\ checkForWin g = Some (winsMessage (js "X"), credit g 0 (mkPlayer (js "X") 0)).
Proof. repeat split. Qed.

(** ** Counting the empty cells *)

Lemma countEmptyRow_app (s1 s2 : Row) :
  countEmptyRow (s1 ++ s2) = countEmptyRow s1 + countEmptyRow s2.
Proof. unfold countEmptyRow. by rewrite filter_app, length_app. Qed.

Lemma countEmptyRow_cons (cell : Cell) (s : Row) :
  countEmptyRow (cell :: s)
  = (if truthy cell then 0 else 1) + countEmptyRow s.
Proof.
  unfold countEmptyRow. destruct (truthy cell) eqn:Ht.
  - rewrite filter_cons_False; [done|]. by rewrite Ht.
  - rewrite filter_cons_True; done.
Qed.

Lemma countEmptyRow_insert (s : Row) (c : nat) (old new : Cell) :
  s !! c = Some old -> truthy old = false -> truthy new = true ->
  countEmptyRow s = S (countEmptyRow (<[c := new]> s)).
Proof.
  intros Hc Hold Hnew.
  rewrite <- (take_drop_middle s c old Hc) at 1.
  rewrite insert_take_drop by (by eapply lookup_lt_Some).
  rewrite !countEmptyRow_app, !countEmptyRow_cons, Hold, Hnew. lia.
Qed.

Lemma countEmpty_app (b1 b2 : Gameboard) :
  countEmpty (b1 ++ b2) = countEmpty b1 + countEmpty b2.
Proof. apply sum_list_with_app. Qed.

Lemma countEmpty_cons (s : Row) (b : Gameboard) :
  countEmpty (s :: b) = countEmptyRow s + countEmpty b.
Proof. done. Qed.

Lemma countEmpty_insert (b : Gameboard) (r : nat) (s s' : Row) :
  b !! r = Some s -> countEmptyRow s = S (countEmptyRow s') ->
  countEmpty b = S (countEmpty (<[r := s']> b)).
Proof.
  intros Hr Hs.
  rewrite <- (take_drop_middle b r s Hr) at 1.
  rewrite insert_take_drop by (by eapply lookup_lt_Some).
  rewrite !countEmpty_app, !countEmpty_cons. lia.
Qed.

Lemma countEmpty_pos (b : Gameboard) (r c : nat) (s : Row) (cell : Cell) :
  b !! r = Some s -> s !! c = Some cell -> truthy cell = false ->
  1 <= countEmpty b.
Proof.
  intros Hr Hc Hcell.
  rewrite <- (take_drop_middle b r s Hr), countEmpty_app, countEmpty_cons.
  rewrite <- (take_drop_middle s c cell Hc), countEmptyRow_app,
    countEmptyRow_cons, Hcell. lia.
Qed.

(** ** No run anywhere: draw or play on *)

Lemma no_lineRun_no_detect (N : nat) (g : Game) :
  wf_game N g ->
  (forall t L, linearization t (gameboard g) = Some L ->
     ~ gridHasRun markX (winCase g) L /\ ~ gridHasRun markO (winCase g) L) ->
  firstDetected g evaluationOrder = Some false.
Proof.
  intros Hg Hno. apply firstDetected_false. intros t _.
  destruct (detects_wf N g Hg t) as (L & HL & ->). f_equal.
  destruct (existsb _ L) eqn:Hex; [|done].
  apply existsb_hasRunb in Hex. destruct (Hno t L HL). tauto.
Qed.

(** C7: when no linearization of the board holds a winning run of either
    mark, [checkForWin] returns the draw message if the counter of empty
    cells is 0 and the empty message otherwise, and leaves the state as it
    is; when the counter equals the number of empty cells of the board, an
    empty cell on the board therefore means no result yet. The three
    outcomes cannot be taken for one another: the draw message is not the
    empty message, which is the one that lets the prompt go on, and no
    player-wins message is either of them; so the draw is returned exactly
    when the counter is 0 and no result exactly when it is not. *)
Theorem checkForWin_draw_or_no_result (N : nat) (g : Game) :
  wf_game N g ->
  (forall t L, linearization t (gameboard g) = Some L ->
     ~ gridHasRun markX (winCase g) L /\ ~ gridHasRun markO (winCase g) L) ->
  (remainingEmptyCells g = 0%Z -> checkForWin g = Some (TIED, g))
  /\ (remainingEmptyCells g <> 0%Z -> checkForWin g = Some ([], g))
  /\ (remainingEmptyCells g = Z.of_nat (countEmpty (gameboard g)) ->
      (exists r c, inBounds N r c
                   /\ truthy (cellAt (gameboard g) r c) = false) ->
      checkForWin g = Some ([], g))
  /\ TIED <> []
  /\ (forall name, winsMessage name <> TIED /\ winsMessage name <> [])
  /\ (forall msg g', checkForWin g = Some (msg, g') ->
        g' = g
        /\ (msg = TIED /\ remainingEmptyCells g = 0%Z
            \/ msg = [] /\ remainingEmptyCells g <> 0%Z)).
Proof.
  intros Hg Hno.
  assert (Hcheck : checkForWin g = Some (noWinOutcome g)).
  { rewrite checkForWin_firstDetected.
    by rewrite (no_lineRun_no_detect N g Hg Hno). }
  assert (Hne : remainingEmptyCells g <> 0%Z -> checkForWin g = Some ([], g)).
  { intros H. rewrite Hcheck. unfold noWinOutcome.
    by destruct (Z.eqb_spec (remainingEmptyCells g) 0). }
  split; [|split; [done|split; [|split; [|split]]]].
  - intros H0. rewrite Hcheck. unfold noWinOutcome. by rewrite H0.
  - intros Hinv (r & c & [Hr Hc] & Hempty). apply Hne.
    destruct (square_lookup N (gameboard g) (Z.to_nat r) (Z.to_nat c))
      as (s & Hs & _ & Hcell); [apply Hg | lia | lia |].
    rewrite cellAt_to_nat in Hempty by lia.
    pose proof (countEmpty_pos _ _ _ _ _ Hs Hcell Hempty). lia.
  - intros H. discriminate H.
  - intros name. split; intros H; discriminate H.
  - intros msg g' H. rewrite Hcheck in H. unfold noWinOutcome in H.
    destruct (Z.eqb_spec (remainingEmptyCells g) 0) as [H0 | H0];
      injection H as <- <-; (split; [done|]); [by left | by right].
Qed.

Lemma no_run_by_evaluation (N : nat) (g : Game) :
  wf_game N g ->
  firstDetected g evaluationOrder = Some false ->
  forall t L, linearization t (gameboard g) = Some L ->
    ~ gridHasRun markX (winCase g) L /\ ~ gridHasRun markO (winCase g) L.
Proof.
  intros Hg Hfalse t L HL.
  assert (Ht : detects g t = Some false).
  { destruct (detects_wf N g Hg t) as (L' & _ & Hd).
    destruct (existsb _ L') eqn:Hex; [|done]. exfalso.
    assert (firstDetected g evaluationOrder = Some true); [|congruence].
    apply (firstDetected_iff N g Hg), (boardHasRun_detects N g Hg).
    exists t. by rewrite Hd. }
  destruct (detects_wf N g Hg t) as (L' & HL' & Hd).
  assert (L' = L) as -> by congruence.
  rewrite Hd in Ht. injection Ht as Ht.
  split; intros H;
    assert (existsb (eitherRun (winCase g)) L = true)
      by (apply existsb_hasRunb; auto); congruence.
Qed.

Lemma checkForWin_draw_or_no_result_witness :
  checkForWin fullNoRun = Some (TIED, fullNoRun)
  /\ checkForWin (initGame TIC_TAC_TOE) = Some ([], initGame TIC_TAC_TOE)
  /\ TIED <> [].
Proof.
  split; [|split].
  - destruct (checkForWin_draw_or_no_result 3 fullNoRun) as (Hdraw & _).
    + by apply wf_gameb_true.
    + apply (no_run_by_evaluation 3); [by apply wf_gameb_true | reflexivity].
    + apply Hdraw. reflexivity.
  - destruct (checkForWin_draw_or_no_result 3 (initGame TIC_TAC_TOE))
      as (_ & Hgo & _).
    + by apply wf_gameb_true.
    + apply (no_run_by_evaluation 3); [by apply wf_gameb_true | reflexivity].
    + apply Hgo. done.
  - destruct (checkForWin_draw_or_no_result 3 fullNoRun)
      as (_ & _ & _ & Htied & _).
    + by apply wf_gameb_true.
    + apply (no_run_by_evaluation 3); [by apply wf_gameb_true | reflexivity].
    + exact Htied.
Defined.

(** ** Move validation *)

Lemma convertRawInputToInput_cases (rawInput : jsstring) :
  convertRawInputToInput rawInput = (None, MALFORMED)
  \/ exists input, convertRawInputToInput rawInput = (Some input, []).
Proof.
  unfold convertRawInputToInput.
  destruct (matchMove rawInput) as [[rowStr colStr]|]; eauto.
Qed.

Lemma validateInputOutOfBound_cases (input : Input) (b : Gameboard) :
  (validateInputOutOfBound input b = []
   /\ inBounds (length b) (row input) (col input))
  \/ (validateInputOutOfBound input b = OUT_OF_BOUND
      /\ ~ inBounds (length b) (row input) (col input)).
Proof.
  unfold validateInputOutOfBound, inBounds.
  destruct (Z.gtb_spec (row input) (Z.of_nat (length b) - 1)),
    (Z.gtb_spec (col input) (Z.of_nat (length b) - 1)),
    (Z.ltb_spec (row input) 0), (Z.ltb_spec (col input) 0); simpl;
    ((left; split; [done | lia]) || (right; split; [done | lia])).
Qed.

Lemma at_index_inBounds {A} (l : list A) (i : Z) :
  (0 <= i < Z.of_nat (length l))%Z ->
  exists x, at_index l i = Some x /\ l !! Z.to_nat i = Some x.
Proof.
  intros Hi. unfold at_index.
  replace (i <? 0)%Z with false by (symmetry; apply Z.ltb_ge; lia).
  destruct (lookup_lt_is_Some_2 l (Z.to_nat i) ltac:(lia)) as [x Hx].
  eauto.
Qed.

(** Inside the bounds, the cell read by [validateEmptyCell] is the cell
    at these coordinates. *)
Lemma validateEmptyCell_inBounds (input : Input) (b : Gameboard) :
  inBounds (length b) (row input) (col input) ->
  validateEmptyCell input b
  = Some (if truthy (cellAt b (row input) (col input)) then CELL_TAKEN else []).
Proof.
  intros [Hr Hc]. unfold validateEmptyCell.
  destruct (at_index_inBounds b (row input) Hr) as (s & -> & Hs). simpl.
  rewrite cellAt_to_nat by lia. unfold cellOf, cellOfRow. rewrite Hs.
  unfold at_index.
  replace (col input <? 0)%Z with false by (symmetry; apply Z.ltb_ge; lia).
  by destruct (s !! Z.to_nat (col input)) as [cell|]; [destruct (truthy cell)|].
Qed.

Lemma validateInput_converted (rawInput : jsstring) (input : Input)
    (b : Gameboard) :
  convertRawInputToInput rawInput = (Some input, []) ->
  validateInput rawInput b
  = if decide (validateInputOutOfBound input b = [])
    then (let* e := validateEmptyCell input b in Some (Some input, e))
    else Some (Some input, OUT_OF_BOUND).
Proof.
  intros Hconv. unfold validateInput. rewrite Hconv. simpl.
  destruct (validateInputOutOfBound_cases input b) as [[-> _] | [-> _]];
    by case_decide.
Qed.

(** What an accepted move is: parsed, inside the board, on an empty cell. *)
Lemma validateInput_accepted (rawInput : jsstring) (input : Input)
    (b : Gameboard) :
  validateInput rawInput b = Some (Some input, []) ->
  convertRawInputToInput rawInput = (Some input, [])
  /\ inBounds (length b) (row input) (col input)
  /\ truthy (cellAt b (row input) (col input)) = false.
Proof.
  intros Hval.
  destruct (convertRawInputToInput_cases rawInput) as [Hc | [input' Hc]].
  { unfold validateInput in Hval. rewrite Hc in Hval. done. }
  rewrite (validateInput_converted _ _ _ Hc) in Hval.
  destruct (validateInputOutOfBound_cases input' b) as [[Hb Hin] | [Hb _]];
    rewrite Hb in Hval; [|done].
  rewrite decide_True in Hval by done.
  rewrite validateEmptyCell_inBounds in Hval by done. simpl in Hval.
  destruct (truthy (cellAt b (row input') (col input'))) eqn:Ht; [done|].
  injection Hval as <-. done.
Qed.

(** C5: the raw string "abc" is rejected as malformed on every board; the
    coordinates (-1,0) and (N,0) are out of bound on a board of N rows,
    and a parsed move that is out of bound is rejected with that error
    whatever the board holds; a parsed move inside the board on an
    occupied cell is rejected as cell taken; a parsed move inside the
    board on an empty cell is accepted; the checks run in this order and
    stop at the first failure; the three errors are different. *)
Theorem validateInput_rejections (b : Gameboard) :
  validateInput (js "abc") b = Some (None, MALFORMED)
  /\ validateInputOutOfBound (mkInput (-1) 0) b = OUT_OF_BOUND
  /\ validateInputOutOfBound (mkInput (Z.of_nat (length b)) 0) b = OUT_OF_BOUND
  /\ (forall rawInput,
        convertRawInputToInput rawInput = (None, MALFORMED) ->
        validateInput rawInput b = Some (None, MALFORMED))
  /\ (forall rawInput input,
        convertRawInputToInput rawInput = (Some input, []) ->
        ~ inBounds (length b) (row input) (col input) ->
        validateInput rawInput b = Some (Some input, OUT_OF_BOUND))
  /\ (forall rawInput input,
        convertRawInputToInput rawInput = (Some input, []) ->
        inBounds (length b) (row input) (col input) ->
        truthy (cellAt b (row input) (col input)) = true ->
        validateInput rawInput b = Some (Some input, CELL_TAKEN))
  /\ (forall rawInput input,
        convertRawInputToInput rawInput = (Some input, []) ->
        inBounds (length b) (row input) (col input) ->
        truthy (cellAt b (row input) (col input)) = false ->
        validateInput rawInput b = Some (Some input, []))
  /\ MALFORMED <> OUT_OF_BOUND /\ OUT_OF_BOUND <> CELL_TAKEN
  /\ MALFORMED <> CELL_TAKEN
  /\ MALFORMED <> [] /\ OUT_OF_BOUND <> [] /\ CELL_TAKEN <> [].
Proof.
  split; [done|]. split.
  { destruct (validateInputOutOfBound_cases (mkInput (-1) 0) b)
      as [[_ [H _]] | [H _]]; [simpl in H; lia | done]. }
  split.
  { destruct (validateInputOutOfBound_cases
                (mkInput (Z.of_nat (length b)) 0) b) as [[_ [H _]] | [H _]];
      [simpl in H; lia | done]. }
  split.
  { intros rawInput Hc. unfold validateInput. by rewrite Hc. }
  split.
  { intros rawInput input Hc Hout.
    rewrite (validateInput_converted _ _ _ Hc).
    destruct (validateInputOutOfBound_cases input b) as [[_ Hin] | [Hb _]];
      [done|]. by rewrite Hb. }
  split.
  { intros rawInput input Hc Hin Hcell.
    rewrite (validateInput_converted _ _ _ Hc).
    destruct (validateInputOutOfBound_cases input b) as [[Hb _] | [_ Hout]];
      [|done].
    rewrite Hb, decide_True, validateEmptyCell_inBounds by done.
    by rewrite Hcell. }
  split.
  { intros rawInput input Hc Hin Hcell.
    rewrite (validateInput_converted _ _ _ Hc).
    destruct (validateInputOutOfBound_cases input b) as [[Hb _] | [_ Hout]];
      [|done].
    rewrite Hb, decide_True, validateEmptyCell_inBounds by done.
    by rewrite Hcell. }
  repeat split; done.
Qed.

(** A minus sign does not pass the pattern: as raw text, "-1,0" is
    malformed. *)
Example validateInput_minus_sign (b : Gameboard) :
  validateInput (js "-1,0") b = Some (None, MALFORMED).
Proof. reflexivity. Qed.

Lemma validateInput_rejections_witness :
  validateInput (js "3,0") (gameboard topRowX)
  = Some (Some (mkInput 3 0), OUT_OF_BOUND)
  /\ validateInput (js " 1, 0 ") (gameboard topRowX)
     = Some (Some (mkInput 1 0), CELL_TAKEN)
  /\ validateInput (js "2,2") (gameboard topRowX)
     = Some (Some (mkInput 2 2), []).
Proof.
  destruct (validateInput_rejections (gameboard topRowX))
    as (_ & _ & _ & _ & Hout & Htaken & Hok & _).
  split; [|split].
  - apply Hout; [reflexivity|]. unfold inBounds. simpl. lia.
  - apply Htaken; [reflexivity | unfold inBounds; simpl; lia | reflexivity].
  - apply Hok; [reflexivity | unfold inBounds; simpl; lia | reflexivity].
Defined.

(** ** updateGame on an accepted move *)

Lemma set_index_inBounds {A} (undef : A) (arr : list A) (i : Z) (v : A) :
  (0 <= i < Z.of_nat (length arr))%Z ->
  set_index undef arr i v = <[Z.to_nat i := v]> arr.
Proof.
  intros Hi. unfold set_index.
  replace (i <? 0)%Z with false by (symmetry; apply Z.ltb_ge; lia).
  by replace (Z.to_nat i <? length arr) with true
    by (symmetry; apply Nat.ltb_lt; lia).
Qed.

Lemma updateGame_inBounds (N : nat) (g : Game) (input : Input) (p : Player) :
  square N (gameboard g) -> players g !! turn g = Some p ->
  inBounds N (row input) (col input) ->
  updateGame input g
  = Some (mkGame (type g) (players g)
            (placed (gameboard g) (Z.to_nat (row input))
                    (Z.to_nat (col input)) (Str (name p)))
            (if turn g =? 0 then 1 else 0) (winCase g)
            (remainingEmptyCells g - 1)).
Proof.
  intros Hsq Hp [Hr Hc]. unfold updateGame, placed.
  pose proof Hsq as [Hlen _].
  destruct (at_index_inBounds (gameboard g) (row input) ltac:(lia))
    as (s & -> & Hs).
  rewrite Hp, Hs. simpl. do 3 f_equal.
  destruct (square_lookup N _ (Z.to_nat (row input)) (Z.to_nat (col input)) Hsq)
    as (s' & Hs' & Hlens & _); [lia..|].
  assert (s' = s) as -> by congruence.
  apply set_index_inBounds. lia.
Qed.

Lemma cellAt_placed (N : nat) (b : Gameboard) (r c : nat) (v : Cell) (r' c' : Z) :
  square N b -> r < N -> c < N ->
  cellAt (placed b r c v) r' c'
  = if decide (r' = Z.of_nat r /\ c' = Z.of_nat c) then v else cellAt b r' c'.
Proof.
  intros Hsq Hr Hc.
  destruct (square_lookup N b r c Hsq Hr Hc) as (s & Hs & Hlen & _).
  unfold placed. rewrite Hs. unfold cellAt.
  destruct (Z.ltb_spec r' 0); [by rewrite decide_False by lia|].
  destruct (Z.ltb_spec c' 0); [by rewrite decide_False by lia|].
  simpl. unfold cellOf, cellOfRow. rewrite list_lookup_insert.
  destruct Hsq as [Hlenb _].
  destruct (decide (r = Z.to_nat r' /\ r < length b)) as [[-> _] | Hne].
  - rewrite Hs, list_lookup_insert.
    destruct (decide (c = Z.to_nat c' /\ c < length s)) as [[-> _] | Hne].
    + by rewrite decide_True by lia.
    + by rewrite decide_False by lia.
  - by rewrite decide_False by lia.
Qed.

Lemma square_placed (N : nat) (b : Gameboard) (r c : nat) (v : Cell) :
  square N b -> square N (placed b r c v).
Proof.
  intros [Hlen Hrows]. unfold placed.
  destruct (b !! r) as [s|] eqn:Hs; [|done].
  split; [by rewrite length_insert|].
  apply Forall_insert; [done|]. rewrite length_insert.
  by apply (Forall_lookup_1 _ _ _ _ Hrows Hs).
Qed.

Lemma wf_grid_placed (b : Gameboard) (r c : nat) (v : Cell) :
  wf_grid b -> wf_cell v -> wf_grid (placed b r c v).
Proof.
  intros Hb Hv. unfold placed.
  destruct (b !! r) as [s|] eqn:Hs; [|done].
  apply Forall_insert; [done|]. apply Forall_insert; [|done].
  by apply (Forall_lookup_1 _ _ _ _ Hb Hs).
Qed.

Lemma countEmpty_placed (N : nat) (b : Gameboard) (r c : nat) (v : Cell) :
  square N b -> r < N -> c < N ->
  truthy (cellOf b r c) = false -> truthy v = true ->
  countEmpty b = S (countEmpty (placed b r c v)).
Proof.
  intros Hsq Hr Hc Hold Hnew.
  destruct (square_lookup N b r c Hsq Hr Hc) as (s & Hs & _ & Hcell).
  unfold placed. rewrite Hs.
  apply (countEmpty_insert b r s); [done|].
  by apply (countEmptyRow_insert s c (cellOf b r c)).
Qed.

(** The player whose turn it is, on a well-formed session. *)
Lemma standardPlayers_turn (g : Game) :
  standardPlayers g -> turn g <= 1 ->
  exists p, players g !! turn g = Some p
            /\ (Str (name p) = markX \/ Str (name p) = markO).
Proof.
  intros (wx & wo & Hp) Hturn. rewrite Hp.
  destruct (turn g) as [|[|n]]; [| |lia]; eexists; (split; [done|]);
    [by left | by right].
Qed.

Lemma truthy_mark (mark : Cell) :
  mark = markX \/ mark = markO -> truthy mark = true.
Proof. by intros [-> | ->]. Qed.

Lemma wf_cell_mark (mark : Cell) :
  mark = markX \/ mark = markO -> wf_cell mark.
Proof. by intros H _. Qed.

(** C6: on a session that satisfies the invariant, a move accepted by
    [validateInput] is carried out by [updateGame]: the cell of the move
    then holds the mark of the player whose turn it was and every other cell
    is as before; [remainingEmptyCells] is one less, still the number of
    empty cells of the board, and not negative; the session stays
    well-formed and the turn passes to the other player. *)
Theorem updateGame_accepted_move (N : nat) (g : Game) (rawInput : jsstring)
    (input : Input) :
  wf_game N g -> turn g <= 1 ->
  remainingEmptyCells g = Z.of_nat (countEmpty (gameboard g)) ->
  validateInput rawInput (gameboard g) = Some (Some input, []) ->
  exists g' p,
    players g !! turn g = Some p
    /\ updateGame input g = Some g'
    /\ cellAt (gameboard g') (row input) (col input) = Str (name p)
    /\ (forall r c, ~ (r = row input /\ c = col input) ->
          cellAt (gameboard g') r c = cellAt (gameboard g) r c)
    /\ remainingEmptyCells g' = (remainingEmptyCells g - 1)%Z
    /\ remainingEmptyCells g' = Z.of_nat (countEmpty (gameboard g'))
    /\ (0 <= remainingEmptyCells g')%Z
    /\ wf_game N g'
    /\ turn g' = 1 - turn g.
Proof.
  intros Hg Hturn Hinv Hval.
  pose proof Hg as [Hp Hsq Hwf HN HK]. pose proof Hsq as [Hlen _].
  apply validateInput_accepted in Hval as (_ & Hin & Hempty).
  rewrite Hlen in Hin. pose proof Hin as [Hr Hc].
  destruct (standardPlayers_turn g Hp Hturn) as (p & Hplayer & Hmark).
  rewrite cellAt_to_nat in Hempty by lia.
  pose proof (countEmpty_placed N (gameboard g) (Z.to_nat (row input))
                (Z.to_nat (col input)) (Str (name p)) Hsq ltac:(lia)
                ltac:(lia) Hempty (truthy_mark _ Hmark)) as Hcount.
  eexists. exists p. split; [done|].
  split; [by apply (updateGame_inBounds N)|]. cbn [gameboard
    remainingEmptyCells turn].
  split.
  { rewrite (cellAt_placed N) by (done || lia). by rewrite decide_True by lia. }
  split.
  { intros r c Hne. rewrite (cellAt_placed N) by (done || lia).
    by rewrite decide_False by lia. }
  split; [done|]. split; [lia|]. split; [lia|]. split.
  - split; cbn [players gameboard winCase]; try done.
    + by apply square_placed.
    + apply wf_grid_placed; [done|]. by apply wf_cell_mark.
  - destruct (turn g) as [|[|n]]; simpl; lia.
Qed.

Lemma updateGame_accepted_move_witness :
  exists g' p,
    players topRowX !! 1 = Some p
    /\ updateGame (mkInput 2 2) topRowX = Some g'
    /\ cellAt (gameboard g') 2 2 = Str (name p)
    /\ remainingEmptyCells g' = 3%Z
    /\ remainingEmptyCells g' = Z.of_nat (countEmpty (gameboard g')).
Proof.
  destruct (updateGame_accepted_move 3 topRowX (js "2,2") (mkInput 2 2))
    as (g' & p & Hp & Hup & Hcell & _ & Hrem & Hinv & _).
  - by apply wf_gameb_true.
  - simpl. lia.
  - reflexivity.
  - reflexivity.
  - exists g', p. split; [exact Hp|]. split; [exact Hup|].
    split; [exact Hcell|]. split; [exact Hrem | exact Hinv].
Defined.

(** ** Runs after a move *)

Lemma lineRun_placed_other (N : nat) (b : Gameboard) (r c : nat) (v mark : Cell)
    (K : nat) (dir : Direction) (r0 c0 : Z) :
  square N b -> r < N -> c < N -> mark <> v ->
  lineRun (placed b r c v) mark K dir r0 c0 -> lineRun b mark K dir r0 c0.
Proof.
  intros Hsq Hr Hc Hne Hrun j Hj. specialize (Hrun j Hj).
  rewrite (cellAt_placed N) in Hrun by done.
  case_decide; [congruence | done].
Qed.

Lemma lastMoveOf_after_move (t : nat) :
  t <= 1 -> (if (if t =? 0 then 1 else 0) =? 0 then 1 else 0) = t.
Proof. destruct t as [|[|n]]; simpl; lia. Qed.

(** The state reached by an accepted move, and who made it. *)
Lemma updateGame_accepted_shape (N : nat) (g0 g : Game) (rawInput : jsstring)
    (input : Input) :
  wf_game N g0 -> turn g0 <= 1 ->
  validateInput rawInput (gameboard g0) = Some (Some input, []) ->
  updateGame input g0 = Some g ->
  exists p,
    players g !! lastMoveOf g = Some p
    /\ (Str (name p) = markX \/ Str (name p) = markO)
    /\ Z.to_nat (row input) < N /\ Z.to_nat (col input) < N
    /\ gameboard g
       = placed (gameboard g0) (Z.to_nat (row input)) (Z.to_nat (col input))
                (Str (name p))
    /\ winCase g = winCase g0
    /\ wf_game N g.
Proof.
  intros Hg Hturn Hval Hup.
  pose proof Hg as [Hp Hsq Hwf HN HK]. pose proof Hsq as [Hlen _].
  apply validateInput_accepted in Hval as (_ & Hin & Hempty).
  rewrite Hlen in Hin. pose proof Hin as [Hr Hc].
  destruct (standardPlayers_turn g0 Hp Hturn) as (p & Hplayer & Hmark).
  rewrite (updateGame_inBounds N g0 input p Hsq Hplayer Hin) in Hup.
  injection Hup as <-. exists p. unfold lastMoveOf.
  cbn [players turn gameboard winCase].
  rewrite lastMoveOf_after_move by done.
  split; [done|]. split; [done|]. split; [lia|]. split; [lia|].
  split; [done|]. split; [done|].
  split; cbn [players gameboard winCase]; try done.
  - by apply square_placed.
  - apply wf_grid_placed; [done|]. by apply wf_cell_mark.
Qed.

(** After an accepted move the player at [lastMove] is the player whose
    turn it was, and the players are the same. *)
Lemma accepted_move_mover (N : nat) (g0 g : Game) (rawInput : jsstring)
    (input : Input) :
  wf_game N g0 -> turn g0 <= 1 ->
  validateInput rawInput (gameboard g0) = Some (Some input, []) ->
  updateGame input g0 = Some g ->
  lastMoveOf g = turn g0 /\ players g = players g0.
Proof.
  intros Hg Hturn Hval Hup.
  pose proof Hg as [Hp Hsq Hwf HN HK]. pose proof Hsq as [Hlen _].
  apply validateInput_accepted in Hval as (_ & Hin & Hempty).
  rewrite Hlen in Hin.
  destruct (standardPlayers_turn g0 Hp Hturn) as (p & Hplayer & Hmark).
  rewrite (updateGame_inBounds N g0 input p Hsq Hplayer Hin) in Hup.
  injection Hup as <-. unfold lastMoveOf. cbn [players turn].
  split; [by apply lastMoveOf_after_move | done].
Qed.

(** After a move from a state without a winning run, only the mark just
    placed can have one. *)
Lemma runs_after_move_are_movers (N : nat) (g0 g : Game) (rawInput : jsstring)
    (input : Input) (mark : Cell) :
  wf_game N g0 -> turn g0 <= 1 ->
  ~ boardHasRun (gameboard g0) mark (winCase g0) ->
  validateInput rawInput (gameboard g0) = Some (Some input, []) ->
  updateGame input g0 = Some g ->
  boardHasRun (gameboard g) mark (winCase g) ->
  exists p, players g !! lastMoveOf g = Some p /\ Str (name p) = mark.
Proof.
  intros Hg Hturn Hno Hval Hup (dir & r & c & Hrun).
  destruct (updateGame_accepted_shape N g0 g rawInput input Hg Hturn Hval Hup)
    as (p & Hp & _ & Hr & Hc & Hb & HK & _).
  exists p. split; [done|].
  destruct (decide (mark = Str (name p))) as [-> | Hne]; [done|].
  exfalso. apply Hno. exists dir, r, c. rewrite Hb, HK in Hrun.
  apply (lineRun_placed_other N (gameboard g0) (Z.to_nat (row input))
           (Z.to_nat (col input)) (Str (name p)));
    [apply Hg | done | done | done | done].
Qed.

Lemma existsb_gridHasRun (mark : Cell) (K : nat) (L : Gameboard) :
  existsb (hasRunb mark K) L = true <-> gridHasRun mark K L.
Proof.
  rewrite existsb_elem_of. unfold gridHasRun.
  split; intros (s & Hs & H); exists s; (split; [done|]);
    by apply hasRunb_spec.
Qed.

Lemma boardHasRunb_spec (N : nat) (g : Game) (mark : Cell) :
  wf_game N g -> mark = markX \/ mark = markO ->
  boardHasRunb (gameboard g) mark (winCase g) = true
  <-> boardHasRun (gameboard g) mark (winCase g).
Proof.
  intros Hg Hmark. unfold boardHasRunb. rewrite existsb_elem_of. split.
  - intros (t & _ & Ht).
    destruct (linearization_total N g Hg t) as (L & HL & _ & Hlin).
    rewrite HL in Ht. apply existsb_gridHasRun in Ht.
    destruct (gridHasRun_lineRun N _ L _ _ (directionOf t) Hlin Ht)
      as (r & c & Hrun).
    by exists (directionOf t), r, c.
  - intros (dir & r & c & Hrun).
    assert (exists t, directionOf t = dir) as [t <-].
    { destruct dir; [by exists Rows | by exists Columns
                     | by exists AntiDiagonals | by exists Diagonals]. }
    exists t. split.
    { unfold evaluationOrder. rewrite !elem_of_cons. destruct t; auto. }
    destruct (linearization_total N g Hg t) as (L & HL & _ & Hlin).
    rewrite HL. apply existsb_gridHasRun.
    eapply (lineRun_gridHasRun N (gameboard g) L); try apply Hg; try done.
    by apply truthy_mark.
Qed.

(** The outcome of [checkForWin] on a well-formed session. *)
Lemma checkForWin_wf (N : nat) (g : Game) :
  wf_game N g ->
  exists p,
    players g !! lastMoveOf g = Some p
    /\ (Str (name p) = markX \/ Str (name p) = markO)
    /\ (boardHasRun (gameboard g) markX (winCase g)
        \/ boardHasRun (gameboard g) markO (winCase g) ->
        checkForWin g = Some (winsMessage (name p), credit g (lastMoveOf g) p))
    /\ (~ (boardHasRun (gameboard g) markX (winCase g)
           \/ boardHasRun (gameboard g) markO (winCase g)) ->
        checkForWin g = Some (noWinOutcome g)).
Proof.
  intros Hg. pose proof Hg as [Hp _ _ _ _].
  assert (exists p, players g !! lastMoveOf g = Some p
                    /\ (Str (name p) = markX \/ Str (name p) = markO))
    as (p & Hlast & Hmark).
  { destruct Hp as (wx & wo & Hp). rewrite Hp. unfold lastMoveOf.
    destruct (turn g =? 0); eexists; (split; [done|]); [by right | by left]. }
  exists p. split; [done|]. split; [done|].
  rewrite checkForWin_firstDetected.
  destruct (firstDetected_wf N g evaluationOrder Hg) as [w Hw].
  pose proof (firstDetected_iff N g Hg) as Hiff. rewrite Hw in *. simpl.
  split; intros H.
  - apply Hiff in H. injection H as ->. by apply declareWinner_Some.
  - destruct w; [|done]. exfalso. apply H, Hiff. done.
Qed.

(** ** A run on the board and the outcome *)

Lemma winsMessage_inj (n1 n2 : jsstring) :
  winsMessage n1 = winsMessage n2 -> n1 = n2.
Proof.
  unfold winsMessage. intros H. apply app_inv_head in H.
  by apply app_inv_tail in H.
Qed.





(** Outside play, on a state that no accepted move from a state without a
    winning run gives: the top row is three O while X moved last, and the
    outcome names X, the player at [lastMove]. *)
Example checkForWin_run_of_other_mark_names_mover :
  wf_game 3 rowOfO_afterX
  /\ lineRun (gameboard rowOfO_afterX) markO (winCase rowOfO_afterX)
       Horizontal 0 0
  /\ checkForWin rowOfO_afterX
     = Some (winsMessage (js "X"),
             credit rowOfO_afterX 0 (mkPlayer (js "X") 0))
  /\ ~ (exists g', checkForWin rowOfO_afterX = Some (winsMessage (js "O"), g')).
Proof.
  split; [by apply wf_gameb_true|]. split.
  { intros [|[|[|j]]] Hj; [reflexivity | reflexivity | reflexivity|].
    simpl in Hj. lia. }
  split; [reflexivity|].
  intros [g' H]. replace (checkForWin rowOfO_afterX)
    with (Some (winsMessage (js "X"),
                credit rowOfO_afterX 0 (mkPlayer (js "X") 0))) in H
    by reflexivity.
  assert (Hx : winsMessage (js "X") = winsMessage (js "O")) by congruence.
  apply winsMessage_inj in Hx. done.
Qed.

(** ** Whose mark the detector tests, and who is credited *)

Lemma winsMessage_not_noWin (n : jsstring) (g : Game) :
  winsMessage n <> fst (noWinOutcome g).
Proof.
  unfold noWinOutcome. by destruct (remainingEmptyCells g =? 0)%Z.
Qed.

(** C4: the transforms are evaluated in the order rows, columns, diagonals,
    anti-diagonals; when a transform matches and those before it did not,
    [checkForWin] returns the win of the player who moved last with their
    [totalWins] one higher and nothing else changed, whatever the
    transforms after it would answer; and whenever [checkForWin] returns a
    player-wins message, it is in this way: the state it leaves is the
    state it was given with that one counter one higher. The player who
    moved last is the one at index 1 minus the turn; after an accepted
    move from a state without a winning run, that is the player who made
    the move, the winning run is of that player's mark and the other mark
    has none, so the counter that goes up by one is the winning player's,
    and the other player's counter stays as it was. *)
Theorem checkForWin_first_match_counts_once (g : Game) :
  (forall before t after,
     evaluationOrder = before ++ t :: after ->
     (forall t', t' ∈ before -> detects g t' = Some false) ->
     detects g t = Some true ->
     exists p,
       players g !! lastMoveOf g = Some p
       /\ checkForWin g
          = Some (winsMessage (name p), credit g (lastMoveOf g) p)
       /\ totalWins <$> players (credit g (lastMoveOf g) p) !! lastMoveOf g
          = Some (totalWins p + 1)%Z
       /\ (forall i, i <> lastMoveOf g ->
             players (credit g (lastMoveOf g) p) !! i = players g !! i)
       /\ gameboard (credit g (lastMoveOf g) p) = gameboard g
       /\ turn (credit g (lastMoveOf g) p) = turn g
       /\ remainingEmptyCells (credit g (lastMoveOf g) p)
          = remainingEmptyCells g)
  /\ (forall msg g',
        checkForWin g = Some (msg, g') -> msg <> TIED -> msg <> [] ->
        exists before t after p,
          evaluationOrder = before ++ t :: after
          /\ (forall t', t' ∈ before -> detects g t' = Some false)
          /\ detects g t = Some true
          /\ players g !! lastMoveOf g = Some p
          /\ msg = winsMessage (name p)
          /\ g' = credit g (lastMoveOf g) p)
  /\ (turn g <= 1 -> lastMoveOf g = 1 - turn g)
  /\ (forall N g0 rawInput input msg g',
        wf_game N g0 -> turn g0 <= 1 ->
        ~ boardHasRun (gameboard g0) markX (winCase g0) ->
        ~ boardHasRun (gameboard g0) markO (winCase g0) ->
        validateInput rawInput (gameboard g0) = Some (Some input, []) ->
        updateGame input g0 = Some g ->
        checkForWin g = Some (msg, g') -> msg <> TIED -> msg <> [] ->
        exists p,
          players g0 !! turn g0 = Some p
          /\ lastMoveOf g = turn g0
          /\ msg = winsMessage (name p)
          /\ boardHasRun (gameboard g) (Str (name p)) (winCase g)
          /\ (forall other,
                other = markX \/ other = markO -> other <> Str (name p) ->
                ~ boardHasRun (gameboard g) other (winCase g))
          /\ players g'
             = <[turn g0 := mkPlayer (name p) (totalWins p + 1)]> (players g0)
          /\ (forall i, i <> turn g0 -> players g' !! i = players g0 !! i)).
Proof.
  split; [|split; [|split]].
  - intros before t after Horder Hbefore Ht.
    destruct (detects_Some_players g t true Ht) as [p Hp].
    exists p. split; [done|]. split.
    + rewrite checkForWin_firstDetected, Horder.
      rewrite (firstDetected_first_match g before after t Hbefore Ht).
      simpl. by apply declareWinner_Some.
    + split; [by rewrite (lookup_credit_eq g _ p Hp)|].
      split; [|done]. intros i Hi. by apply lookup_credit_ne.
  - intros msg g' Hcheck Htied Hempty.
    rewrite checkForWin_firstDetected in Hcheck.
    destruct (firstDetected g evaluationOrder) as [[|]|] eqn:Hfirst;
      simpl in Hcheck; [| |done].
    + apply firstDetected_true in Hfirst
        as (before & t & after & Horder & Hbefore & Ht).
      destruct (detects_Some_players g t true Ht) as [p Hp].
      rewrite (declareWinner_Some g _ p Hp) in Hcheck.
      injection Hcheck as <- <-. by exists before, t, after, p.
    + unfold noWinOutcome in Hcheck.
      destruct (remainingEmptyCells g =? 0)%Z; injection Hcheck as <- <-;
        done.
  - intros Hturn. unfold lastMoveOf. destruct (turn g) as [|[|n]]; simpl; lia.
  - intros N g0 rawInput input msg g' Hg0 Hturn HnoX HnoO Hval Hup Hcheck
      Htied Hempty.
    destruct (updateGame_accepted_shape N g0 g rawInput input Hg0 Hturn
                Hval Hup) as (p & Hp & Hmark & _ & _ & _ & _ & Hg).
    destruct (accepted_move_mover N g0 g rawInput input Hg0 Hturn Hval Hup)
      as [Hlast Hplayers].
    destruct (checkForWin_wf N g Hg) as (p' & Hp' & _ & Hwin & Hnone).
    assert (p' = p) as -> by congruence.
    assert (Hruns : boardHasRun (gameboard g) markX (winCase g)
                    \/ boardHasRun (gameboard g) markO (winCase g)).
    { destruct (decide (firstDetected g evaluationOrder = Some true))
        as [Hd | Hd]; [by apply (firstDetected_iff N g Hg)|].
      exfalso. rewrite Hnone in Hcheck.
      - unfold noWinOutcome in Hcheck.
        destruct (remainingEmptyCells g =? 0)%Z; injection Hcheck as <- <-;
          done.
      - intros H. by apply (firstDetected_iff N g Hg) in H. }
    rewrite (Hwin Hruns) in Hcheck. injection Hcheck as <- <-.
    assert (Hother : forall other,
              other = markX \/ other = markO -> other <> Str (name p) ->
              ~ boardHasRun (gameboard g) other (winCase g)).
    { intros other Ho Hne Hrun.
      destruct (runs_after_move_are_movers N g0 g rawInput input other)
        as (q & Hq & Hname); try done.
      - by destruct Ho as [-> | ->].
      - assert (q = p) as -> by congruence. done. }
    exists p. split; [by rewrite <- Hlast, <- Hplayers|].
    split; [done|]. split; [done|]. split; [|split; [done|split]].
    + destruct (decide (boardHasRunb (gameboard g) (Str (name p)) (winCase g)
                        = true)) as [Hb | Hb].
      * apply (boardHasRunb_spec N g _ Hg); [|done].
        by destruct Hmark as [-> | ->]; [left | right].
      * exfalso. destruct Hruns as [HX | HO], Hmark as [Hm | Hm].
        -- apply Hb. apply (boardHasRunb_spec N g _ Hg); rewrite Hm; auto.
        -- apply (Hother markX); [by left | by rewrite Hm | done].
        -- apply (Hother markO); [by right | by rewrite Hm | done].
        -- apply Hb. apply (boardHasRunb_spec N g _ Hg); rewrite Hm; auto.
    + cbn [credit players]. by rewrite Hlast, Hplayers.
    + intros i Hi. rewrite lookup_credit_ne by (by rewrite Hlast).
      by rewrite Hplayers.
Qed.

Lemma checkForWin_first_match_counts_once_witness :
  detects rowAndColumnX Rows = Some true
  /\ detects rowAndColumnX Columns = Some true
  /\ lastMoveOf rowAndColumnX = 1 - turn rowAndColumnX
  /\ exists p,
       players rowAndColumnX !! 0 = Some p
       /\ checkForWin rowAndColumnX
          = Some (winsMessage (name p), credit rowAndColumnX 0 p)
       /\ totalWins <$> players (credit rowAndColumnX 0 p) !! 0
          = Some (totalWins p + 1)%Z.
Proof.
  split; [reflexivity|]. split; [reflexivity|].
  destruct (checkForWin_first_match_counts_once rowAndColumnX)
    as (Hfirst & _ & Hlast & _).
  split; [apply Hlast; simpl; lia|].
  destruct (Hfirst [] Rows [Columns; Diagonals; AntiDiagonals])
    as (p & Hp & Hcheck & Hwins & _).
  - reflexivity.
  - intros t' Ht'. by apply elem_of_nil in Ht'.
  - reflexivity.
  - exists p. split; [exact Hp|]. split; [exact Hcheck | exact Hwins].
Defined.

(** C3 (as the code has it): [checkForWin] runs the detector on each
    linearization for the marks of both players, and credits a match to
    the player who moved last, whose index is 1 minus the turn index; it
    returns that player's win exactly when a line of the board holds a run
    of either mark; when the other player's mark has no winning run, a win
    is returned only if the mover's own mark has one; and the other
    player's mark has no winning run in any state reached by an accepted
    move from a state without a winning run. *)
Theorem checkForWin_tests_both_marks_credits_mover (N : nat) (g : Game) :
  wf_game N g ->
  (turn g <= 1 -> lastMoveOf g = 1 - turn g)
  /\ (forall t, exists L,
        linearization t (gameboard g) = Some L
        /\ detects g t
           = Some (existsb (fun s => hasRunb markX (winCase g) s
                                     || hasRunb markO (winCase g) s) L))
  /\ (exists p,
        players g !! lastMoveOf g = Some p
        /\ (Str (name p) = markX \/ Str (name p) = markO)
        /\ ((exists g', checkForWin g = Some (winsMessage (name p), g'))
            <-> boardHasRun (gameboard g) markX (winCase g)
                \/ boardHasRun (gameboard g) markO (winCase g))
        /\ (forall other,
              other = markX \/ other = markO -> other <> Str (name p) ->
              ~ boardHasRun (gameboard g) other (winCase g) ->
              forall g', checkForWin g = Some (winsMessage (name p), g') ->
              boardHasRun (gameboard g) (Str (name p)) (winCase g)))
  /\ (forall g0 rawInput input other,
        wf_game N g0 -> turn g0 <= 1 ->
        ~ boardHasRun (gameboard g0) markX (winCase g0) ->
        ~ boardHasRun (gameboard g0) markO (winCase g0) ->
        validateInput rawInput (gameboard g0) = Some (Some input, []) ->
        updateGame input g0 = Some g ->
        other = markX \/ other = markO ->
        (forall p, players g !! lastMoveOf g = Some p -> other <> Str (name p)) ->
        ~ boardHasRun (gameboard g) other (winCase g)).
Proof.
  intros Hg. split; [|split; [|split]].
  - intros Hturn. unfold lastMoveOf. destruct (turn g) as [|[|n]]; simpl; lia.
  - intros t. apply (detects_wf N g Hg t).
  - destruct (checkForWin_wf N g Hg) as (p & Hlast & Hmark & Hwin & Hnone).
    exists p. split; [done|]. split; [done|].
    assert (Hiff : (exists g', checkForWin g = Some (winsMessage (name p), g'))
                   <-> boardHasRun (gameboard g) markX (winCase g)
                       \/ boardHasRun (gameboard g) markO (winCase g)).
    { split; [|by eauto]. intros [g' Hcheck].
      destruct (decide (firstDetected g evaluationOrder = Some true))
        as [Hd | Hd]; [by apply (firstDetected_iff N g Hg)|].
      exfalso. rewrite Hnone in Hcheck.
      - injection Hcheck as Hcheck.
        apply (winsMessage_not_noWin (name p) g). by rewrite Hcheck.
      - intros H. by apply (firstDetected_iff N g Hg) in H. }
    split; [done|].
    intros other Hother Hne Hno g' Hcheck.
    destruct (proj1 Hiff (ex_intro _ g' Hcheck)) as [HX | HO];
      destruct Hother as [-> | ->], Hmark as [Hm | Hm];
      rewrite Hm in *; done.
  - intros g0 rawInput input other Hg0 Hturn HnoX HnoO Hval Hup Hother Hne
      Hrun.
    destruct (runs_after_move_are_movers N g0 g rawInput input other)
      as (p & Hp & Hname); try done.
    + by destruct Hother as [-> | ->].
    + by apply (Hne p).
Qed.

Lemma checkForWin_tests_both_marks_credits_mover_witness :
  lastMoveOf topRowX = 0
  /\ exists p,
       players topRowX !! lastMoveOf topRowX = Some p
       /\ ((exists g', checkForWin topRowX = Some (winsMessage (name p), g'))
           <-> boardHasRun (gameboard topRowX) markX 3
               \/ boardHasRun (gameboard topRowX) markO 3).
Proof.
  destruct (checkForWin_tests_both_marks_credits_mover 3 topRowX)
    as (Hlast & _ & (p & Hp & _ & Hiff & _) & _).
  - by apply wf_gameb_true.
  - split; [apply Hlast; simpl; lia|].
    exists p. split; [exact Hp | exact Hiff].
Defined.

(** C3 as stated fails: the middle column is three O, X moved last and
    has no three in a row, and [checkForWin] declares X the winner. *)
Lemma checkForWin_credits_mover_for_other_mark :
  wf_game 3 columnOfO_afterX
  /\ players columnOfO_afterX !! lastMoveOf columnOfO_afterX
     = Some (mkPlayer (js "X") 0)
  /\ ~ boardHasRun (gameboard columnOfO_afterX) markX
         (winCase columnOfO_afterX)
  /\ boardHasRun (gameboard columnOfO_afterX) markO
       (winCase columnOfO_afterX)
  /\ checkForWin columnOfO_afterX
     = Some (winsMessage (js "X"),
             credit columnOfO_afterX 0 (mkPlayer (js "X") 0)).
Proof.
  assert (Hwf : wf_game 3 columnOfO_afterX) by (by apply wf_gameb_true).
  split; [done|]. split; [reflexivity|]. split; [|split; [|reflexivity]].
  - intros H. by apply (boardHasRunb_spec 3 _ markX Hwf (or_introl eq_refl)) in H.
  - by apply (boardHasRunb_spec 3 _ markO Hwf (or_intror eq_refl)).
Qed.

(** ** The diagonal transforms, cell by cell *)

Lemma filter_all_False {A} (P : A -> Prop) `{forall x, Decision (P x)}
    (l : list A) :
  (forall x, x ∈ l -> ~ P x) -> filter P l = [].
Proof.
  induction l as [|x l IH]; intros Hl; [done|].
  rewrite filter_cons_False by (apply Hl; left).
  apply IH. intros y Hy. apply Hl. by right.
Qed.

Lemma filter_all_True {A} (P : A -> Prop) `{forall x, Decision (P x)}
    (l : list A) :
  (forall x, x ∈ l -> P x) -> filter P l = l.
Proof.
  induction l as [|x l IH]; intros Hl; [done|].
  rewrite filter_cons_True by (apply Hl; left).
  f_equal. apply IH. intros y Hy. apply Hl. by right.
Qed.

Lemma filter_seq_interval (P : nat -> Prop) `{forall x, Decision (P x)}
    (n lo len : nat) :
  lo + len <= n ->
  (forall j, j < n -> P j <-> lo <= j < lo + len) ->
  filter P (seq 0 n) = seq lo len.
Proof.
  intros Hn HP. rewrite (seq_three n lo len Hn), !filter_app.
  rewrite (filter_all_False P (seq 0 lo)), (filter_all_True P (seq lo len)),
    (filter_all_False P (seq (lo + len) _)); [by rewrite app_nil_r | | |];
    intros j Hj; apply elem_of_seq in Hj; rewrite HP; lia.
Qed.

(** C8: on an [N] x [N] board both diagonal transforms return [2N-1]
    sequences, indexed by [d] from 0 to [2N-2]. The [d]-th sequence of
    [diagonalizeGameboard] holds the cells [(r, d-r)] for [r] from
    [max(0, d-N+1)] to [min(d, N-1)], in this order, a single cell at both
    ends; the [d]-th sequence of [antiDiagonalizeGameboard] holds the
    cells [(r, N-1-d+r)] for the rows [r] of the board for which this
    column is on the board. Each listed cell is the value stored in the
    board at these coordinates; the transforms build new lists and the
    board they read is the board they were given. *)
Theorem diagonal_transforms_cells (N : nat) (b : Gameboard) :
  square N b ->
  length (diagonalizeGameboard b) = 2 * N - 1
  /\ length (antiDiagonalizeGameboard b) = 2 * N - 1
  /\ forall d : nat, (Z.of_nat d <= 2 * Z.of_nat N - 2)%Z ->
       let lo := Z.to_nat (Z.max 0 (Z.of_nat d - Z.of_nat N + 1)) in
       let hi := Z.to_nat (Z.min (Z.of_nat d) (Z.of_nat N - 1)) in
       diagonalizeGameboard b !! d
       = Some ((fun r => cellOf b r (d - r)) <$> seq lo (hi + 1 - lo))
       /\ antiDiagonalizeGameboard b !! d
          = Some ((fun r => cellOf b r (N - 1 + r - d))
                    <$> filter (fun r : nat =>
                                  inBounds N (Z.of_nat r)
                                    (Z.of_nat N - 1 - Z.of_nat d + Z.of_nat r))
                               (seq 0 N))
       /\ lo <= hi
       /\ (forall r, lo <= r <= hi ->
             exists s, b !! r = Some s
                       /\ s !! (d - r) = Some (cellOf b r (d - r)))
       /\ (forall r : nat,
             inBounds N (Z.of_nat r)
               (Z.of_nat N - 1 - Z.of_nat d + Z.of_nat r) ->
             exists s, b !! r = Some s
                       /\ s !! (N - 1 + r - d)
                          = Some (cellOf b r (N - 1 + r - d)))
       /\ (d = 0 \/ d = 2 * N - 2 -> hi + 1 - lo = 1).
Proof.
  intros Hsq. pose proof Hsq as [Hlen _].
  split; [by rewrite length_diagonalizeGameboard, Hlen|].
  split; [by rewrite length_antiDiagonalizeGameboard, Hlen|].
  intros d Hd lo hi.
  assert (Hlo : lo = diagLo N d) by (unfold lo, diagLo; lia).
  assert (Hhi : hi + 1 - lo = diagLen N d)
    by (unfold lo, hi, diagLen, diagHi, diagLo; lia).
  split.
  { rewrite diagonalizeGameboard_lookup, diagonalRow_interval by lia.
    by rewrite Hlen, Hhi, Hlo. }
  split.
  { rewrite antiDiagonalizeGameboard_lookup, antiDiagonalRow_interval by lia.
    rewrite Hlen. do 2 f_equal. symmetry.
    apply filter_seq_interval; unfold diagLen, diagHi, diagLo; [lia|].
    intros j Hj. unfold inBounds. lia. }
  split; [unfold lo, hi; lia|]. split; [|split].
  - intros r Hr.
    destruct (square_lookup N b r (d - r) Hsq) as (s & Hs & _ & Hcell);
      [unfold lo, hi in Hr; lia.. | eauto].
  - intros r [Hr Hc].
    destruct (square_lookup N b r (N - 1 + r - d) Hsq) as (s & Hs & _ & Hcell);
      [lia.. | eauto].
  - unfold lo, hi. lia.
Qed.

Lemma diagonal_transforms_cells_witness :
  diagonalizeGameboard (gameboard columnOfO_afterX) !! 2
  = Some [markX; markO; emptyCell]
  /\ antiDiagonalizeGameboard (gameboard columnOfO_afterX) !! 2
     = Some [markX; markO; markX].
Proof.
  destruct (diagonal_transforms_cells 3 (gameboard columnOfO_afterX))
    as (_ & _ & H).
  - by apply squareb_true.
  - destruct (H 2) as (Hd & Ha & _); [simpl; lia|].
    split; [exact Hd | exact Ha].
Defined.

(** ** Creating boards and sessions *)

Lemma initGameboard_square (size : Z) :
  square (Z.to_nat size) (initGameboard size).
Proof.
  unfold initGameboard. split; [by rewrite length_replicate|].
  apply Forall_replicate. by rewrite length_replicate.
Qed.

Lemma initGameboard_cells (size : Z) (r c : nat) :
  r < Z.to_nat size -> c < Z.to_nat size ->
  cellOf (initGameboard size) r c = emptyCell.
Proof.
  intros Hr Hc. unfold initGameboard.
  apply (cellOf_lookup _ _ _ (replicate (Z.to_nat size) (Str [])));
    by apply lookup_replicate_2.
Qed.

Lemma countEmpty_initGameboard (size : Z) :
  countEmpty (initGameboard size) = Z.to_nat size * Z.to_nat size.
Proof.
  unfold initGameboard, countEmpty.
  assert (Hrow : forall n, countEmptyRow (replicate n (Str [])) = n).
  { induction n as [|n IH]; [done|].
    change (replicate (S n) (Str [])) with (Str [] :: replicate n (Str [])).
    rewrite countEmptyRow_cons, IH. done. }
  generalize (Z.to_nat size) at 1 3. intros m.
  induction m as [|m IH]; [done|]. simpl. rewrite IH, Hrow. done.
Qed.

(** C9 (as the code has it): [initGameboard] with a size of at least 1
    returns a board of that many rows and columns whose cells are all
    empty; with a size below 1 it returns the empty board, and raises
    nothing. [initGame] takes no size: it creates a 3 x 3 session with win
    length 3 for tic-tac-toe and a 10 x 10 session with win length 5 for
    any other game type, well-formed, with the turn at 0 and the counter
    at the number of cells. *)
Theorem initGameboard_initGame_sizes (size : Z) (gameType : jsstring) :
  ((1 <= size)%Z ->
     square (Z.to_nat size) (initGameboard size)
     /\ (forall r c, inBounds (Z.to_nat size) r c ->
           cellAt (initGameboard size) r c = emptyCell)
     /\ Z.of_nat (countEmpty (initGameboard size)) = (size * size)%Z)
  /\ ((size < 1)%Z -> initGameboard size = [])
  /\ exists N : nat,
       (N = 3 /\ winCase (initGame gameType) = 3 /\ gameType = TIC_TAC_TOE
        \/ N = 10 /\ winCase (initGame gameType) = 5
           /\ gameType <> TIC_TAC_TOE)
       /\ wf_game N (initGame gameType)
       /\ gameboard (initGame gameType) = initGameboard (Z.of_nat N)
       /\ turn (initGame gameType) = 0
       /\ remainingEmptyCells (initGame gameType)
          = Z.of_nat (countEmpty (gameboard (initGame gameType)))
       /\ remainingEmptyCells (initGame gameType) = Z.of_nat (N * N).
Proof.
  split; [|split].
  - intros Hsize. split; [apply initGameboard_square|]. split.
    + intros r c [Hr Hc]. rewrite cellAt_to_nat by lia.
      apply initGameboard_cells; lia.
    + rewrite countEmpty_initGameboard. lia.
  - intros Hsize. unfold initGameboard.
    by replace (Z.to_nat size) with 0 by lia.
  - unfold initGame.
    destruct (jsstring_eqb gameType TIC_TAC_TOE) eqn:Heq.
    + exists 3. apply jsstring_eqb_eq in Heq as ->.
      split; [by left|]. split; [by apply wf_gameb_true|]. done.
    + exists 10. split.
      { right. split; [done|]. split; [done|]. intros ->. done. }
      split; [by apply wf_gameb_true|]. done.
Qed.

Lemma initGameboard_initGame_sizes_witness :
  square 3 (initGameboard 3)
  /\ initGameboard (-2) = []
  /\ Z.of_nat (countEmpty (initGameboard 3)) = 9%Z.
Proof.
  destruct (initGameboard_initGame_sizes 3 GOMOKU) as ((Hsq & _ & Hcount) & _).
  { lia. }
  destruct (initGameboard_initGame_sizes (-2) GOMOKU) as (_ & Hempty & _).
  split; [exact Hsq|]. split; [apply Hempty; lia | exact Hcount].
Defined.

(** C9 as stated fails: a size below 1 is not refused; the result is the
    board without rows, and a session is created for any game type. *)
Lemma initGameboard_nonpositive_size_returns_board :
  initGameboard 0 = []
  /\ initGameboard (-1) = []
  /\ length (gameboard (initGame (js "no such game"))) = 10.
Proof. done. Qed.

(** ** Games played through the prompt *)

(** Tic-tac-toe: X completes the top row with the fifth move. *)
Example top_row_game :
  fst <$> submitAll [js "0,0"; js "1,1"; js "0,1"; js "1,0"; js "0,2"]
            (initGame TIC_TAC_TOE)
  = Some (winsMessage (js "X"))
  /\ fst <$> submitAll [js "0,0"; js "1,1"; js "0,1"; js "1,0"]
              (initGame TIC_TAC_TOE)
     = Some [].
Proof. split; reflexivity. Qed.

(** Tic-tac-toe: X wins on the diagonal (0,0), (1,1), (2,2). *)
Example diagonal_game :
  fst <$> submitAll [js "0,0"; js "0,1"; js "1,1"; js "0,2"; js "2,2"]
            (initGame TIC_TAC_TOE)
  = Some (winsMessage (js "X")).
Proof. reflexivity. Qed.

(** Gomoku: five X on row 2, columns 2 to 6, with O playing on row 7. *)
Example gomoku_row_game :
  fst <$> submitAll [js "2,2"; js "7,0"; js "2,3"; js "7,1"; js "2,4";
                     js "7,2"; js "2,5"; js "7,3"; js "2,6"]
            (initGame GOMOKU)
  = Some (winsMessage (js "X"))
  /\ fst <$> submitAll [js "2,2"; js "7,0"; js "2,3"; js "7,1"; js "2,4";
                        js "7,2"; js "2,5"; js "7,3"]
              (initGame GOMOKU)
     = Some [].
Proof. split; vm_compute; reflexivity. Qed.

(** A full board without three in a row is a tie; a rejected move is
    asked again and changes nothing. *)
Example tie_game :
  fst <$> submitAll [js "0,0"; js "0,1"; js "0,2"; js "1,1"; js "1,0";
                     js "1,2"; js "2,1"; js "2,0"; js "abc"; js "2,1";
                     js "2,2"]
            (initGame TIC_TAC_TOE)
  = Some TIED.
Proof. vm_compute. reflexivity. Qed.

(** * Further properties of the code *)

(** ** Digits: printing a number and reading it back *)

Lemma digitChar_spec (d : nat) :
  d < 10 ->
  isDigit (digitChar d) = true /\ nat_of_ascii (digitChar d) = 48 + d.
Proof.
  intros Hd. unfold isDigit, digitChar.
  rewrite nat_ascii_embedding by lia. split; [|done].
  apply andb_true_iff. split; apply Nat.leb_le; lia.
Qed.

Lemma toDigits_digits (fuel n : nat) (acc : jsstring) :
  Forall (fun c => isDigit c = true) acc ->
  Forall (fun c => isDigit c = true) (toDigits fuel n acc).
Proof.
  revert n acc; induction fuel as [|fuel IH]; intros n acc Hacc; [done|].
  simpl.
  assert (Hd : isDigit (digitChar (n mod 10)) = true).
  { apply digitChar_spec. apply Nat.mod_upper_bound. lia. }
  destruct (n <? 10); [by constructor|]. apply IH. by constructor.
Qed.

Lemma toDigits_nonempty (fuel n : nat) (acc : jsstring) :
  toDigits (S fuel) n acc <> [].
Proof.
  revert n acc; induction fuel as [|fuel IH]; intros n acc.
  - simpl. by destruct (n <? 10).
  - change (toDigits (S (S fuel)) n acc)
      with (if n <? 10 then digitChar (n mod 10) :: acc
            else toDigits (S fuel) (n / 10) (digitChar (n mod 10) :: acc)).
    destruct (n <? 10); [done | apply IH].
Qed.

Lemma toDigits_value (fuel n : nat) (acc : jsstring) :
  n < fuel ->
  foldl digitStep 0%Z (toDigits fuel n acc)
  = foldl digitStep (Z.of_nat n) acc.
Proof.
  revert n acc; induction fuel as [|fuel IH]; intros n acc Hn; [lia|].
  cbn [toDigits]. pose proof (Nat.mod_upper_bound n 10 ltac:(lia)) as Hmod.
  destruct (digitChar_spec (n mod 10) Hmod) as [_ Hcode].
  assert (Hstep : forall a, digitStep a (digitChar (n mod 10))
                            = (a * 10 + Z.of_nat (n mod 10))%Z).
  { intros a. unfold digitStep. rewrite Hcode. lia. }
  destruct (Nat.ltb_spec n 10) as [Hlt | Hge].
  - cbn [foldl]. rewrite Hstep, Nat.mod_small by done. f_equal.
  - rewrite IH.
    + cbn [foldl]. rewrite Hstep. f_equal.
      pose proof (Nat.div_mod_eq n 10). lia.
    + pose proof (Nat.div_lt n 10 ltac:(lia) ltac:(lia)). lia.
Qed.

Lemma toString_digits (n : nat) :
  Forall (fun c => isDigit c = true) (toString n) /\ toString n <> [].
Proof.
  split; [by apply toDigits_digits | apply toDigits_nonempty].
Qed.

Lemma parseInt_toString (n : nat) : parseInt (toString n) = Z.of_nat n.
Proof.
  unfold parseInt, toString.
  change (fun acc d => (acc * 10 + (Z.of_nat (nat_of_ascii d) - 48))%Z)
    with digitStep.
  by rewrite toDigits_value by lia.
Qed.

Lemma toString_small (n : nat) : n < 10 -> toString n = [digitChar n].
Proof.
  intros Hn. unfold toString. cbn [toDigits].
  replace (n <? 10) with true by (symmetry; by apply Nat.ltb_lt).
  by rewrite Nat.mod_small.
Qed.

Lemma parseInt_nonneg (digits : jsstring) :
  Forall (fun c => isDigit c = true) digits -> (0 <= parseInt digits)%Z.
Proof.
  unfold parseInt.
  change (fun acc d => (acc * 10 + (Z.of_nat (nat_of_ascii d) - 48))%Z)
    with digitStep.
  assert (H : forall acc, (0 <= acc)%Z ->
            Forall (fun c => isDigit c = true) digits ->
            (0 <= foldl digitStep acc digits)%Z); [|by apply H].
  induction digits as [|d digits IH]; intros acc Hacc Hd; [done|].
  apply Forall_cons in Hd as [Hd Hrest]. simpl. apply IH; [|done].
  unfold isDigit in Hd. apply andb_true_iff in Hd as [Hlo _].
  apply Nat.leb_le in Hlo. unfold digitStep. lia.
Qed.

(** ** The pattern of a move, as a set of texts *)

Lemma span_spec (p : ascii -> bool) (s a b : jsstring) :
  span p s = (a, b) ->
  s = a ++ b /\ Forall (fun c => p c = true) a
  /\ match b with [] => True | c :: _ => p c = false end.
Proof.
  revert a b; induction s as [|c s IH]; intros a b; simpl.
  - by intros [= <- <-].
  - destruct (p c) eqn:Hc.
    + destruct (span p s) as [a' b'] eqn:Hs. intros [= <- <-].
      destruct (IH a' b' eq_refl) as (-> & Ha & Hb).
      split; [done|]. split; [by constructor | done].
    + intros [= <- <-]. split; [done|]. split; [constructor | exact Hc].
Qed.

Lemma span_app (p : ascii -> bool) (a b : jsstring) :
  Forall (fun c => p c = true) a ->
  match b with [] => True | c :: _ => p c = false end ->
  span p (a ++ b) = (a, b).
Proof.
  intros Ha Hb. induction Ha as [|c a Hc Ha IH]; simpl.
  - destruct b as [|c b]; [done|]. simpl. by rewrite Hb.
  - by rewrite Hc, IH.
Qed.

Lemma isDigit_not_isSpace (c : ascii) : isDigit c = true -> isSpace c = false.
Proof.
  destruct c as [[] [] [] [] [] [] [] []]; vm_compute; intros H;
    (reflexivity || discriminate H).
Qed.

Lemma isSpace_not_isDigit (c : ascii) : isSpace c = true -> isDigit c = false.
Proof.
  intros Hs. destruct (isDigit c) eqn:Hd; [|done].
  apply isDigit_not_isSpace in Hd. congruence.
Qed.

Lemma matchMove_shape (rawInput rowStr colStr : jsstring) :
  matchMove rawInput = Some (rowStr, colStr)
  <-> moveShape rawInput rowStr colStr.
Proof.
  unfold matchMove, moveShape. split.
  - destruct (span isSpace rawInput) as [ws1 s1] eqn:H1.
    destruct (span isDigit s1) as [d1 s2] eqn:H2.
    destruct d1 as [|x d1]; [done|]. destruct s2 as [|sep s3]; [done|].
    destruct (Ascii.eqb_spec sep ","%char) as [-> | _]; [|done].
    destruct (span isSpace s3) as [ws2 s4] eqn:H3.
    destruct (span isDigit s4) as [d2 s5] eqn:H4.
    destruct (span isSpace s5) as [ws3 s6] eqn:H5.
    destruct d2 as [|y d2]; [done|]. destruct s6; [|done].
    intros [= <- <-].
    apply span_spec in H1 as (-> & Hw1 & _), H2 as (-> & Hd1 & _),
      H3 as (-> & Hw2 & _), H4 as (-> & Hd2 & _), H5 as (-> & Hw3 & _).
    exists ws1, ws2, ws3. rewrite app_nil_r.
    repeat split; done.
  - intros (ws1 & ws2 & ws3 & -> & Hw1 & Hw2 & Hw3 & Hd1 & Hn1 & Hd2 & Hn2).
    destruct rowStr as [|x d1]; [done|]. destruct colStr as [|y d2]; [done|].
    pose proof (Forall_inv Hd1) as Hx. pose proof (Forall_inv Hd2) as Hy.
    simpl in Hx, Hy.
    rewrite (span_app isSpace ws1) by (done || by apply isDigit_not_isSpace).
    rewrite (span_app isDigit (x :: d1) (","%char :: _)) by done.
    rewrite Ascii.eqb_refl.
    rewrite (span_app isSpace ws2) by (done || by apply isDigit_not_isSpace).
    rewrite (span_app isDigit (y :: d2) ws3).
    + rewrite <- (app_nil_r ws3) at 1. by rewrite (span_app isSpace ws3 []).
    + done.
    + destruct Hw3 as [|c ws3 Hc _]; [done|]. by apply isSpace_not_isDigit.
Qed.

(** [parseInt] reads the digits from the left; the result is the number
    they denote by position. *)
Lemma parseInt_decimalValue (digits : jsstring) :
  parseInt digits = decimalValue digits.
Proof.
  unfold parseInt.
  change (fun acc d => (acc * 10 + (Z.of_nat (nat_of_ascii d) - 48))%Z)
    with digitStep.
  assert (H : forall acc,
            foldl digitStep acc digits
            = (acc * 10 ^ Z.of_nat (length digits) + decimalValue digits)%Z).
  { induction digits as [|d digits IH]; intros acc.
    - simpl. lia.
    - cbn [foldl decimalValue length]. rewrite IH. unfold digitStep.
      rewrite Nat2Z.inj_succ, Z.pow_succ_r by lia. lia. }
  rewrite H. lia.
Qed.

(** X1: [convertRawInputToInput] accepts exactly the texts made of
    optional blanks, one or more digits, a comma, optional blanks, one or
    more digits and optional blanks, where a blank is a character of [\s]
    and a digit one of 0 to 9; every other text gets the malformed-input
    error and no input. When the two numbers written are below 2^53, the
    range in which the numbers of the code are exact, the input returned
    holds the two numbers that the digits denote in base ten. *)
Theorem convertRawInputToInput_accepts_shape (rawInput : jsstring) :
  ((exists input, convertRawInputToInput rawInput = (Some input, []))
   <-> exists rowStr colStr, moveShape rawInput rowStr colStr)
  /\ (forall rowStr colStr,
        moveShape rawInput rowStr colStr ->
        (decimalValue rowStr < 2 ^ 53)%Z -> (decimalValue colStr < 2 ^ 53)%Z ->
        convertRawInputToInput rawInput
        = (Some (mkInput (decimalValue rowStr) (decimalValue colStr)), []))
  /\ ((forall rowStr colStr, ~ moveShape rawInput rowStr colStr)
      <-> convertRawInputToInput rawInput = (None, MALFORMED)).
Proof.
  unfold convertRawInputToInput. split; [|split].
  - split.
    + destruct (matchMove rawInput) as [[rowStr colStr]|] eqn:Hm;
        [|by intros [input H]].
      intros _. exists rowStr, colStr. by apply matchMove_shape.
    + intros (rowStr & colStr & Hshape).
      apply matchMove_shape in Hshape. rewrite Hshape. by eexists.
  - intros rowStr colStr Hshape _ _.
    apply matchMove_shape in Hshape. rewrite Hshape.
    by rewrite !parseInt_decimalValue.
  - split.
    + intros Hno. destruct (matchMove rawInput) as [[rowStr colStr]|] eqn:Hm;
        [|done].
      apply matchMove_shape in Hm. by destruct (Hno rowStr colStr).
    + destruct (matchMove rawInput) as [[rowStr colStr]|] eqn:Hm; [done|].
      intros _ rowStr colStr Hshape. apply matchMove_shape in Hshape.
      congruence.
Qed.

Lemma convertRawInputToInput_accepts_shape_witness :
  convertRawInputToInput (js " 3,  14 ") = (Some (mkInput 3 14), []).
Proof.
  destruct (convertRawInputToInput_accepts_shape (js " 3,  14 "))
    as (_ & Hvalue & _).
  apply (Hvalue (js "3") (js "14")).
  - exists (js " "), (js "  "), (js " ").
    split; [reflexivity|]. repeat split; try (repeat constructor); done.
  - reflexivity.
  - reflexivity.
Defined.

Lemma validateInput_cases (rawInput : jsstring) (b : Gameboard) :
  validateInput rawInput b = Some (None, MALFORMED)
  \/ exists input,
       convertRawInputToInput rawInput = (Some input, [])
       /\ (validateInput rawInput b = Some (Some input, OUT_OF_BOUND)
           /\ ~ inBounds (length b) (row input) (col input)
           \/ validateInput rawInput b = Some (Some input, CELL_TAKEN)
              /\ inBounds (length b) (row input) (col input)
              /\ truthy (cellAt b (row input) (col input)) = true
           \/ validateInput rawInput b = Some (Some input, [])
              /\ inBounds (length b) (row input) (col input)
              /\ truthy (cellAt b (row input) (col input)) = false).
Proof.
  destruct (convertRawInputToInput_cases rawInput) as [Hc | [input Hc]].
  { left. unfold validateInput. by rewrite Hc. }
  right. exists input. split; [done|].
  rewrite (validateInput_converted _ _ _ Hc).
  destruct (validateInputOutOfBound_cases input b) as [[Hb Hin] | [Hb Hout]];
    rewrite Hb.
  - right. rewrite decide_True, validateEmptyCell_inBounds by done. simpl.
    destruct (truthy (cellAt b (row input) (col input))); [left | right];
      done.
  - left. by rewrite decide_False.
Qed.

Lemma convertRawInputToInput_printed (r c : nat) (ws1 ws2 ws3 : jsstring) :
  Forall (fun x => isSpace x = true) ws1 ->
  Forall (fun x => isSpace x = true) ws2 ->
  Forall (fun x => isSpace x = true) ws3 ->
  convertRawInputToInput
    (ws1 ++ toString r ++ ","%char :: ws2 ++ toString c ++ ws3)
  = (Some (mkInput (Z.of_nat r) (Z.of_nat c)), []).
Proof.
  intros Hw1 Hw2 Hw3. unfold convertRawInputToInput.
  destruct (toString_digits r) as [Hdr Hnr].
  destruct (toString_digits c) as [Hdc Hnc].
  rewrite (proj2 (matchMove_shape _ (toString r) (toString c))).
  - by rewrite !parseInt_toString.
  - exists ws1, ws2, ws3. repeat split; done.
Qed.

(** X2: a move printed in base ten is read back as it was: for all
    numbers [r] and [c] below 2^53, the range in which the numbers of the
    code are exact, the text of [r], a comma and the text of [c], with any
    blanks before the row, after the comma and after the column, is
    converted to the input [(r, c)] without error; and [validateInput]
    accepts it on a board where [(r, c)] is an empty cell. *)
Theorem convertRawInputToInput_reads_printed_move (r c : nat)
    (ws1 ws2 ws3 : jsstring) :
  (Z.of_nat r < 2 ^ 53)%Z -> (Z.of_nat c < 2 ^ 53)%Z ->
  Forall (fun x => isSpace x = true) ws1 ->
  Forall (fun x => isSpace x = true) ws2 ->
  Forall (fun x => isSpace x = true) ws3 ->
  convertRawInputToInput
    (ws1 ++ toString r ++ ","%char :: ws2 ++ toString c ++ ws3)
  = (Some (mkInput (Z.of_nat r) (Z.of_nat c)), [])
  /\ parseInt (toString r) = Z.of_nat r
  /\ forall b,
       r < length b -> c < length b -> truthy (cellOf b r c) = false ->
       validateInput
         (ws1 ++ toString r ++ ","%char :: ws2 ++ toString c ++ ws3) b
       = Some (Some (mkInput (Z.of_nat r) (Z.of_nat c)), []).
Proof.
  intros _ _ Hw1 Hw2 Hw3.
  pose proof (convertRawInputToInput_printed r c ws1 ws2 ws3 Hw1 Hw2 Hw3)
    as Hconv.
  split; [done|]. split; [apply parseInt_toString|].
  intros b Hr Hc Hempty.
  rewrite (validateInput_converted _ _ _ Hconv).
  destruct (validateInputOutOfBound_cases
              (mkInput (Z.of_nat r) (Z.of_nat c)) b) as [[Hb Hin] | [_ Hout]].
  - rewrite Hb, decide_True, validateEmptyCell_inBounds by done.
    cbn [row col bind]. by rewrite cellAt_nat, Hempty.
  - destruct Hout. unfold inBounds. simpl. lia.
Qed.

Lemma convertRawInputToInput_reads_printed_move_witness :
  convertRawInputToInput (js "  12, 7 ") = (Some (mkInput 12 7), []).
Proof.
  destruct (convertRawInputToInput_reads_printed_move 12 7
              (js "  ") (js " ") (js " ")) as [H _];
    [reflexivity | reflexivity | repeat constructor.. | exact H].
Defined.

(** X3: the coordinates that [convertRawInputToInput] returns are never
    negative, so the tests [input.row < 0] and [input.col < 0] of
    [validateInputOutOfBound] never fire on a converted input: an
    out-of-bound error of [validateInput] always means a row or a column
    at or beyond the size of the board. *)
Theorem converted_input_not_negative (rawInput : jsstring) (b : Gameboard)
    (input : Input) (e : Error) :
  (convertRawInputToInput rawInput = (Some input, e) ->
   (0 <= row input)%Z /\ (0 <= col input)%Z)
  /\ (validateInput rawInput b = Some (Some input, OUT_OF_BOUND) ->
      (Z.of_nat (length b) <= row input)%Z
      \/ (Z.of_nat (length b) <= col input)%Z).
Proof.
  assert (Hnn : forall e', convertRawInputToInput rawInput = (Some input, e') ->
                (0 <= row input)%Z /\ (0 <= col input)%Z).
  { unfold convertRawInputToInput. intros e'.
    destruct (matchMove rawInput) as [[rowStr colStr]|] eqn:Hm; [|done].
    intros [= <- _].
    apply matchMove_shape in Hm
      as (_ & _ & _ & _ & _ & _ & _ & Hd1 & _ & Hd2 & _).
    split; by apply parseInt_nonneg. }
  split; [apply Hnn|].
  intros Hval.
  destruct (convertRawInputToInput_cases rawInput) as [Hc | [input' Hc]].
  { unfold validateInput in Hval. by rewrite Hc in Hval. }
  rewrite (validateInput_converted _ _ _ Hc) in Hval.
  destruct (validateInputOutOfBound_cases input' b) as [[Hb Hin] | [Hb Hout]];
    rewrite Hb in Hval.
  - rewrite decide_True in Hval by done.
    rewrite validateEmptyCell_inBounds in Hval by done. simpl in Hval.
    destruct (truthy _); by injection Hval.
  - rewrite decide_False in Hval by done. injection Hval as ->.
    destruct (Hnn _ Hc). unfold inBounds in Hout. lia.
Qed.

Lemma converted_input_not_negative_witness :
  (0 <= row (mkInput 3 0))%Z /\ (0 <= col (mkInput 3 0))%Z.
Proof.
  destruct (converted_input_not_negative (js "3,0") (gameboard topRowX)
              (mkInput 3 0) []) as [H _].
  apply H. reflexivity.
Defined.

(** ** Validation on any board *)

(** X4: [validateInput] never throws, on any text and any board, ragged
    or empty: [validateEmptyCell] on its own throws exactly when the row
    of the input is not a row of the board, and [validateInput] reaches it
    only after the bound check has passed. On the board without rows no
    move is accepted. *)
Theorem validateInput_never_throws (rawInput : jsstring) (b : Gameboard) :
  (exists input e, validateInput rawInput b = Some (input, e))
  /\ (forall input,
        validateEmptyCell input b = None
        <-> ~ (0 <= row input < Z.of_nat (length b))%Z)
  /\ (forall input, validateInput rawInput [] <> Some (Some input, [])).
Proof.
  split; [|split].
  - destruct (validateInput_cases rawInput b)
      as [H | (input & _ & [[H _] | [[H _] | [H _]]])]; eauto.
  - intros input. unfold validateEmptyCell, at_index. split.
    + destruct (Z.ltb_spec (row input) 0); [lia|].
      destruct (b !! Z.to_nat (row input)) eqn:Hr; [done|].
      intros _. apply lookup_ge_None in Hr. lia.
    + intros Hout. destruct (Z.ltb_spec (row input) 0); [done|].
      rewrite (proj2 (lookup_ge_None b (Z.to_nat (row input)))) by lia. done.
  - intros input H.
    destruct (validateInput_cases rawInput [])
      as [H' | (input' & _ & [[H' _] | [[_ [[Hin _] _]] | [_ [[Hin _] _]]]])];
      try (simpl in Hin; lia); rewrite H' in H; by inversion H.
Qed.

(** ** checkForWin leaves the position alone *)

(** X5: [checkForWin] never changes the board, the turn, the win length,
    the counter of empty cells or the game type, nor the number or the
    names of the players; with the empty message or the tie message it
    returns the state it was given, the tie message only when the counter
    is 0 and the empty message only when it is not. *)
Theorem checkForWin_changes_only_totalWins (g g' : Game) (msg : jsstring) :
  checkForWin g = Some (msg, g') ->
  gameboard g' = gameboard g /\ turn g' = turn g /\ winCase g' = winCase g
  /\ remainingEmptyCells g' = remainingEmptyCells g /\ type g' = type g
  /\ name <$> players g' = name <$> players g
  /\ (msg = [] -> g' = g /\ remainingEmptyCells g <> 0%Z)
  /\ (msg = TIED -> g' = g /\ remainingEmptyCells g = 0%Z).
Proof.
  rewrite checkForWin_firstDetected.
  destruct (firstDetected g evaluationOrder) as [[|]|]; simpl; [| |done].
  - unfold declareWinner.
    destruct (players g !! lastMoveOf g) as [p|] eqn:Hp; simpl; [|done].
    intros [= <- <-]. cbn [gameboard turn winCase remainingEmptyCells type
      players]. repeat split; try done.
    rewrite list_fmap_insert. simpl. apply list_insert_id.
    by rewrite list_lookup_fmap, Hp.
  - unfold noWinOutcome.
    destruct (Z.eqb_spec (remainingEmptyCells g) 0); intros [= <- <-];
      repeat split; done.
Qed.

Lemma checkForWin_changes_only_totalWins_witness :
  gameboard (credit topRowX 0 (mkPlayer (js "X") 0)) = gameboard topRowX
  /\ name <$> players (credit topRowX 0 (mkPlayer (js "X") 0))
     = name <$> players topRowX.
Proof.
  destruct (checkForWin_changes_only_totalWins topRowX
              (credit topRowX 0 (mkPlayer (js "X") 0))
              (winsMessage (js "X")))
    as (Hb & _ & _ & _ & _ & Hn & _).
  - reflexivity.
  - split; [exact Hb | exact Hn].
Defined.

(** ** transposeGameboard *)

Lemma cellOfRow_stored (s : Row) (k : nat) (cell : Cell) :
  s !! k = Some cell -> cellOfRow s k = cell.
Proof. intros H. unfold cellOfRow. by rewrite H. Qed.

(** X6: on a square board with at least one row, [transposeGameboard]
    returns a square board of the same size, and transposing that board
    gives the first board back. *)
Theorem transposeGameboard_involutive (N : nat) (b : Gameboard) :
  square N b -> 1 <= N ->
  exists t, transposeGameboard b = Some t
            /\ square N t
            /\ transposeGameboard t = Some b.
Proof.
  intros Hsq HN. pose proof Hsq as [Hlen Hrows].
  destruct (transposeGameboard_square N b Hsq HN) as (t & Ht & Hlent & Hcols).
  assert (Hsqt : square N t).
  { split; [done|]. apply Forall_lookup_2. intros d s Hd.
    rewrite (transposeGameboard_lookup b t d s Ht Hd). by rewrite length_fmap. }
  exists t. split; [done|]. split; [done|].
  destruct (transposeGameboard_square N t Hsqt HN) as (t' & Ht' & Hlent' & Hcols').
  rewrite Ht'. f_equal. apply list_eq. intros d.
  destruct (decide (d < N)) as [Hd | Hd].
  - rewrite (Hcols' d Hd).
    destruct (square_lookup N b d 0 Hsq Hd ltac:(lia)) as (s & Hs & Hlens & _).
    rewrite Hs. f_equal. apply list_eq. intros j.
    rewrite list_lookup_fmap.
    destruct (decide (j < N)) as [Hj | Hj].
    + rewrite (Hcols j Hj). simpl.
      destruct (lookup_lt_is_Some_2 s j ltac:(lia)) as [x Hx].
      rewrite Hx. f_equal. apply cellOfRow_stored.
      rewrite list_lookup_fmap, Hs. simpl. f_equal.
      by apply cellOfRow_stored.
    + rewrite (proj2 (lookup_ge_None t j)) by lia.
      rewrite (proj2 (lookup_ge_None s j)) by lia. done.
  - rewrite (proj2 (lookup_ge_None t' d)) by lia.
    rewrite (proj2 (lookup_ge_None b d)) by lia. done.
Qed.

Lemma transposeGameboard_involutive_witness :
  exists t, transposeGameboard (gameboard topRowX) = Some t
            /\ transposeGameboard t = Some (gameboard topRowX).
Proof.
  destruct (transposeGameboard_involutive 3 (gameboard topRowX))
    as (t & Ht & _ & Hback).
  - by apply squareb_true.
  - lia.
  - exists t. split; [exact Ht | exact Hback].
Defined.

(** X7: [transposeGameboard] throws exactly on the board without rows.
    On any other board, ragged or not, the result has one row for each
    cell of the first row of the board, each as long as the board has
    rows; its cell [(i, j)] is the cell [(j, i)] of the board, [undefined]
    where row [j] is too short, and the cells of a row beyond the length
    of the first row are left out. *)
Theorem transposeGameboard_shape (b : Gameboard) :
  (transposeGameboard b = None <-> b = [])
  /\ (forall row0 rest, b = row0 :: rest ->
        exists t, transposeGameboard b = Some t
                  /\ length t = length row0
                  /\ forall i, i < length row0 ->
                       exists column, t !! i = Some column
                                      /\ length column = length b
                                      /\ forall j, j < length b ->
                                           column !! j = Some (cellOf b j i)).
Proof.
  split.
  - unfold transposeGameboard. destruct b as [|row0 rest]; simpl; split; done.
  - intros row0 rest ->. unfold transposeGameboard.
    change ((row0 :: rest) !! 0) with (Some row0). cbn [bind].
    eexists. split; [done|]. split; [by rewrite length_imap|].
    intros i Hi. rewrite list_lookup_imap.
    destruct (lookup_lt_is_Some_2 row0 i Hi) as [x ->]. cbn [fmap option_fmap option_map].
    eexists. split; [done|]. split; [by rewrite length_fmap|].
    intros j Hj. rewrite list_lookup_fmap. unfold cellOf.
    destruct (lookup_lt_is_Some_2 (row0 :: rest) j Hj) as [s ->]. done.
Qed.

Lemma transposeGameboard_shape_witness :
  exists t, transposeGameboard [[markX; markO]; [markO]] = Some t
            /\ length t = 2
            /\ t !! 1 = Some [markO; Undefined].
Proof.
  destruct (transposeGameboard_shape [[markX; markO]; [markO]]) as [_ H].
  destruct (H [markX; markO] [[markO]] eq_refl) as (t & Ht & Hlen & Hcols).
  exists t. split; [exact Ht|]. split; [exact Hlen|].
  injection Ht as <-. reflexivity.
Defined.

(** ** The two diagonal transforms mirror each other *)

Lemma cellOf_reverse (N : nat) (b : Gameboard) (r c : nat) :
  square N b -> r < N -> c < N ->
  cellOf (reverse <$> b) r c = cellOf b r (N - 1 - c).
Proof.
  intros Hsq Hr Hc.
  destruct (square_lookup N b r (N - 1 - c) Hsq Hr ltac:(lia))
    as (s & Hs & Hlen & Hcell).
  unfold cellOf at 1. rewrite list_lookup_fmap, Hs. simpl.
  apply cellOfRow_stored. rewrite reverse_lookup by lia.
  rewrite <- Hcell. f_equal. lia.
Qed.

(** X8: on a square board, the anti-diagonals are the diagonals of the
    board with every row reversed:
    [antiDiagonalizeGameboard b = diagonalizeGameboard (b.map(reverse))]. *)
Theorem antiDiagonalize_is_diagonalize_mirrored (N : nat) (b : Gameboard) :
  square N b ->
  antiDiagonalizeGameboard b = diagonalizeGameboard (reverse <$> b).
Proof.
  intros Hsq. pose proof Hsq as [Hlen _].
  unfold antiDiagonalizeGameboard, diagonalizeGameboard.
  rewrite length_fmap, !upTo_size. apply list_fmap_ext.
  intros i d Hd. apply lookup_seq in Hd as [-> Hd]. simpl in *.
  rewrite antiDiagonalRow_interval, diagonalRow_interval
    by (rewrite ?length_fmap; lia).
  rewrite length_fmap. apply list_fmap_ext.
  intros k r Hr. apply lookup_seq in Hr as [-> Hk].
  unfold diagLen, diagHi, diagLo in *.
  rewrite (cellOf_reverse N) by (done || lia). f_equal. lia.
Qed.

Lemma antiDiagonalize_is_diagonalize_mirrored_witness :
  antiDiagonalizeGameboard (gameboard columnOfO_afterX)
  = diagonalizeGameboard (reverse <$> gameboard columnOfO_afterX).
Proof.
  apply (antiDiagonalize_is_diagonalize_mirrored 3). by apply squareb_true.
Defined.

(** ** A win length beyond the board *)

Lemma lineRun_fits (N : nat) (b : Gameboard) (mark : Cell) (K : nat)
    (dir : Direction) (r c : Z) :
  square N b -> truthy mark = true -> lineRun b mark K dir r c -> K <= N.
Proof.
  intros Hsq Hmark Hrun. destruct K as [|K]; [lia|].
  pose proof (Hrun 0 ltac:(lia)) as H0. pose proof (Hrun K ltac:(lia)) as HK.
  assert (Hin0 : truthy (cellAt b (r + Z.of_nat 0 * fst (stepOf dir))
                           (c + Z.of_nat 0 * snd (stepOf dir))) = true)
    by (by rewrite H0).
  assert (HinK : truthy (cellAt b (r + Z.of_nat K * fst (stepOf dir))
                           (c + Z.of_nat K * snd (stepOf dir))) = true)
    by (by rewrite HK).
  apply (cellAt_truthy_inBounds N b _ _ Hsq) in Hin0 as [Hr0 Hc0],
    HinK as [HrK HcK].
  destruct dir; simpl in *; lia.
Qed.

(** X9: when the win length is greater than the size of the board,
    nobody can win: on every well-formed session [checkForWin] returns the
    tie message or the empty message and leaves the state as it is. *)
Theorem checkForWin_win_length_beyond_board (N : nat) (g : Game) :
  wf_game N g -> N < winCase g ->
  checkForWin g = Some (noWinOutcome g).
Proof.
  intros Hg HK. destruct (checkForWin_wf N g Hg) as (p & _ & _ & _ & Hnone).
  apply Hnone. intros [(dir & r & c & Hrun) | (dir & r & c & Hrun)];
    apply (lineRun_fits N) in Hrun; try apply Hg; try done; lia.
Qed.

Lemma checkForWin_win_length_beyond_board_witness :
  checkForWin (mkGame TIC_TAC_TOE initPlayers (gameboard topRowX) 1 4 4)
  = Some ([], mkGame TIC_TAC_TOE initPlayers (gameboard topRowX) 1 4 4).
Proof.
  apply (checkForWin_win_length_beyond_board 3).
  - by apply wf_gameb_true.
  - simpl. lia.
Defined.

(** ** Counting the marks *)

Lemma countMarkRow_app (mark : Cell) (s1 s2 : Row) :
  countMarkRow mark (s1 ++ s2) = countMarkRow mark s1 + countMarkRow mark s2.
Proof. unfold countMarkRow. by rewrite filter_app, length_app. Qed.

Lemma countMarkRow_cons (mark cell : Cell) (s : Row) :
  countMarkRow mark (cell :: s) = isMark mark cell + countMarkRow mark s.
Proof.
  unfold countMarkRow, isMark. case_decide.
  - by rewrite filter_cons_True.
  - by rewrite filter_cons_False.
Qed.

Lemma countMarkRow_insert (mark : Cell) (s : Row) (c : nat) (old new : Cell) :
  s !! c = Some old ->
  countMarkRow mark (<[c := new]> s) + isMark mark old
  = countMarkRow mark s + isMark mark new.
Proof.
  intros Hc. rewrite <- (take_drop_middle s c old Hc) at 2.
  rewrite insert_take_drop by (by eapply lookup_lt_Some).
  rewrite !countMarkRow_app, !countMarkRow_cons. lia.
Qed.

Lemma countMark_app (mark : Cell) (b1 b2 : Gameboard) :
  countMark mark (b1 ++ b2) = countMark mark b1 + countMark mark b2.
Proof. apply sum_list_with_app. Qed.

Lemma countMark_placed (N : nat) (mark : Cell) (b : Gameboard) (r c : nat)
    (v : Cell) :
  square N b -> r < N -> c < N ->
  countMark mark (placed b r c v) + isMark mark (cellOf b r c)
  = countMark mark b + isMark mark v.
Proof.
  intros Hsq Hr Hc.
  destruct (square_lookup N b r c Hsq Hr Hc) as (s & Hs & _ & Hcell).
  unfold placed. rewrite Hs.
  pose proof (countMarkRow_insert mark s c (cellOf b r c) v Hcell) as Hrow.
  rewrite <- (take_drop_middle b r s Hs) at 3.
  rewrite insert_take_drop by (by eapply lookup_lt_Some).
  rewrite !countMark_app.
  change (countMark mark (?x :: ?l)) with (countMarkRow mark x + countMark mark l).
  lia.
Qed.

Lemma countEmpty_exists (N : nat) (b : Gameboard) :
  square N b -> 1 <= countEmpty b ->
  exists r c, r < N /\ c < N /\ truthy (cellOf b r c) = false.
Proof.
  intros [Hlen Hrows] Hcount.
  assert (Hrow : forall s, 1 <= countEmptyRow s ->
            exists c cell, s !! c = Some cell /\ truthy cell = false).
  { induction s as [|cell s IH]; [intros H; cbv in H; lia|].
    rewrite countEmptyRow_cons. destruct (truthy cell) eqn:Ht.
    - intros H. destruct (IH ltac:(lia)) as (c & x & Hc & Hx).
      by exists (S c), x.
    - intros _. by exists 0, cell. }
  assert (Hboard : forall b', 1 <= countEmpty b' ->
            exists r s, b' !! r = Some s /\ 1 <= countEmptyRow s).
  { induction b' as [|s b' IH]; [intros H; cbv in H; lia|].
    rewrite countEmpty_cons. destruct (decide (1 <= countEmptyRow s)).
    - intros _. by exists 0, s.
    - intros H. destruct (IH ltac:(lia)) as (r & s' & Hr & Hs').
      by exists (S r), s'. }
  destruct (Hboard b Hcount) as (r & s & Hr & Hs).
  destruct (Hrow s Hs) as (c & cell & Hc & Hcell).
  pose proof (Forall_lookup_1 _ _ _ _ Hrows Hr) as Hls. simpl in Hls.
  exists r, c. apply lookup_lt_Some in Hr as Hr', Hc as Hc'.
  split; [lia|]. split; [lia|]. by rewrite (cellOf_lookup b r c s cell).
Qed.

(** ** One answer to the prompt, in play *)

Lemma playing_mover (N : nat) (g : Game) :
  playing N g ->
  exists p, players g !! turn g = Some p
            /\ (turn g = 0 /\ p = mkPlayer (js "X") 0
                \/ turn g = 1 /\ p = mkPlayer (js "O") 0).
Proof.
  intros Hg. rewrite (playing_players N g Hg).
  pose proof (playing_turn N g Hg) as Hturn.
  destruct (turn g) as [|[|n]]; [| |lia]; eexists; (split; [done|]); auto.
Qed.

(** The cases of an answer in play. *)
Lemma submit_playing (N : nat) (g : Game) (rawInput : jsstring) :
  playing N g ->
  (exists input e,
     validateInput rawInput (gameboard g) = Some (input, e) /\ e <> []
     /\ submit rawInput g = Some (Rejected e))
  \/ (exists input p g1,
        validateInput rawInput (gameboard g) = Some (Some input, [])
        /\ players g !! turn g = Some p
        /\ updateGame input g = Some g1
        /\ wf_game N g1 /\ players g1 = initPlayers
        /\ lastMoveOf g1 = turn g
        /\ gameboard g1
           = placed (gameboard g) (Z.to_nat (row input))
               (Z.to_nat (col input)) (Str (name p))
        /\ remainingEmptyCells g1 = (remainingEmptyCells g - 1)%Z
        /\ remainingEmptyCells g1 = Z.of_nat (countEmpty (gameboard g1))
        /\ (forall mark, mark = markX \/ mark = markO ->
              boardHasRun (gameboard g1) mark (winCase g1) ->
              mark = Str (name p))
        /\ (submit rawInput g = Some (Placed [] g1) /\ playing N g1
            \/ submit rawInput g = Some (Placed TIED g1)
               /\ remainingEmptyCells g1 = 0%Z
               /\ ~ boardHasRun (gameboard g1) markX (winCase g1)
               /\ ~ boardHasRun (gameboard g1) markO (winCase g1)
            \/ submit rawInput g
               = Some (Placed (winsMessage (name p)) (credit g1 (turn g) p))
               /\ boardHasRun (gameboard g1) (Str (name p)) (winCase g1))).
Proof.
  intros Hg. pose proof (playing_wf N g Hg) as Hwf.
  pose proof Hwf as [Hp Hsq Hcells HN HK]. pose proof Hsq as [Hlen _].
  unfold submit.
  destruct (validateInput_cases rawInput (gameboard g))
    as [H | (input & Hconv & [[H Hout] | [[H _] | [H [Hin Hempty]]]])].
  { left. exists None, MALFORMED. by rewrite H. }
  { left. exists (Some input), OUT_OF_BOUND. by rewrite H. }
  { left. exists (Some input), CELL_TAKEN. by rewrite H. }
  right. rewrite H. cbn [bind]. rewrite Hlen in Hin. pose proof Hin as [Hr Hc].
  destruct (playing_mover N g Hg) as (p & Hplayer & Hwho).
  pose proof (updateGame_inBounds N g input p Hsq Hplayer Hin) as Hup.
  destruct (updateGame_accepted_shape N g _ rawInput input Hwf
              (playing_turn N g Hg) H Hup)
    as (p' & Hlast & Hmark & _ & _ & Hb1 & HK1 & Hwf1).
  set (g1 := mkGame (type g) (players g)
               (placed (gameboard g) (Z.to_nat (row input))
                  (Z.to_nat (col input)) (Str (name p)))
               (if turn g =? 0 then 1 else 0) (winCase g)
               (remainingEmptyCells g - 1)) in *.
  assert (Hlast1 : lastMoveOf g1 = turn g).
  { unfold lastMoveOf, g1. cbn [turn].
    apply lastMoveOf_after_move, (playing_turn N g Hg). }
  assert (p' = p) as ->.
  { rewrite Hlast1 in Hlast. change (players g1) with (players g) in Hlast.
    congruence. }
  rewrite cellAt_to_nat in Hempty by lia.
  assert (Hcount : remainingEmptyCells g1
                   = Z.of_nat (countEmpty (gameboard g1))).
  { pose proof (countEmpty_placed N (gameboard g) (Z.to_nat (row input))
                  (Z.to_nat (col input)) (Str (name p)) Hsq ltac:(lia)
                  ltac:(lia) Hempty (truthy_mark _ Hmark)) as Hc1.
    pose proof (playing_counter N g Hg). unfold g1.
    cbn [remainingEmptyCells gameboard]. lia. }
  assert (Hruns : forall mark, mark = markX \/ mark = markO ->
            boardHasRun (gameboard g1) mark (winCase g1) ->
            mark = Str (name p)).
  { intros mark Hm Hrun.
    destruct (runs_after_move_are_movers N g g1 rawInput input mark Hwf
                (playing_turn N g Hg)) as (p2 & Hp2 & Hname); try done.
    - destruct Hm as [-> | ->]; [apply (playing_noX N g Hg)
                                 | apply (playing_noO N g Hg)].
    - congruence. }
  exists input, p, g1. rewrite Hup. cbn [bind].
  split; [done|]. split; [done|]. split; [done|]. split; [done|].
  split; [apply (playing_players N g Hg)|]. split; [done|].
  split; [done|]. split; [done|]. split; [done|]. split; [done|].
  destruct (checkForWin_wf N g1 Hwf1) as (p3 & Hp3 & _ & Hwin & Hnone).
  assert (p3 = p) as -> by congruence.
  destruct (boardHasRunb (gameboard g1) markX (winCase g1)) eqn:HX;
    [|destruct (boardHasRunb (gameboard g1) markO (winCase g1)) eqn:HO].
  - apply (boardHasRunb_spec N g1 markX Hwf1 (or_introl eq_refl)) in HX.
    right; right. rewrite Hwin by auto. cbn [bind fst snd].
    rewrite Hlast1. split; [done|].
    by rewrite <- (Hruns markX (or_introl eq_refl) HX).
  - apply (boardHasRunb_spec N g1 markO Hwf1 (or_intror eq_refl)) in HO.
    right; right. rewrite Hwin by auto. cbn [bind fst snd].
    rewrite Hlast1. split; [done|].
    by rewrite <- (Hruns markO (or_intror eq_refl) HO).
  - assert (HnoX : ~ boardHasRun (gameboard g1) markX (winCase g1)).
    { intros Hrun.
      apply (boardHasRunb_spec N g1 markX Hwf1 (or_introl eq_refl)) in Hrun.
      congruence. }
    assert (HnoO : ~ boardHasRun (gameboard g1) markO (winCase g1)).
    { intros Hrun.
      apply (boardHasRunb_spec N g1 markO Hwf1 (or_intror eq_refl)) in Hrun.
      congruence. }
    rewrite Hnone by tauto. cbn [bind]. unfold noWinOutcome.
    destruct (Z.eqb_spec (remainingEmptyCells g1) 0) as [H0 | H0];
      cbn [fst snd].
    + right; left. done.
    + left. split; [done|]. split; try done.
      * apply (playing_players N g Hg).
      * unfold g1. cbn [turn]. destruct (turn g =? 0); lia.
      * lia.
      * pose proof (countMark_placed N markX (gameboard g)
                      (Z.to_nat (row input)) (Z.to_nat (col input))
                      (Str (name p)) Hsq ltac:(lia) ltac:(lia)) as HcX.
        pose proof (countMark_placed N markO (gameboard g)
                      (Z.to_nat (row input)) (Z.to_nat (col input))
                      (Str (name p)) Hsq ltac:(lia) ltac:(lia)) as HcO.
        pose proof (playing_marks N g Hg) as Hmarks.
        assert (HeX : isMark markX (cellOf (gameboard g) (Z.to_nat (row input))
                                      (Z.to_nat (col input))) = 0).
        { unfold isMark. case_decide as Heq; [|done]. by rewrite Heq in Hempty. }
        assert (HeO : isMark markO (cellOf (gameboard g) (Z.to_nat (row input))
                                      (Z.to_nat (col input))) = 0).
        { unfold isMark. case_decide as Heq; [|done]. by rewrite Heq in Hempty. }
        unfold g1. cbn [gameboard turn].
        assert (HXX : isMark markX markX = 1) by done.
        assert (HOO : isMark markO markO = 1) by done.
        assert (HXO : isMark markX markO = 0) by done.
        assert (HOX : isMark markO markX = 0) by done.
        destruct Hwho as [[Ht ->] | [Ht ->]]; rewrite Ht in *;
          [change (Str (name (mkPlayer (js "X") 0))) with markX in *
          |change (Str (name (mkPlayer (js "O") 0))) with markO in *];
          cbn [Nat.eqb]; lia.
Qed.

Lemma validateInput_moveText (b : Gameboard) (r c : nat) :
  r < length b -> c < length b -> truthy (cellOf b r c) = false ->
  validateInput (moveText r c) b
  = Some (Some (mkInput (Z.of_nat r) (Z.of_nat c)), []).
Proof.
  intros Hr Hc Hempty.
  pose proof (convertRawInputToInput_printed r c [] [] [] ltac:(done)
                ltac:(done) ltac:(done)) as Hconv.
  rewrite app_nil_r in Hconv. change ([] ++ ?x) with x in Hconv.
  rewrite (validateInput_converted (moveText r c) _ _ Hconv).
  destruct (validateInputOutOfBound_cases
              (mkInput (Z.of_nat r) (Z.of_nat c)) b) as [[Hb Hin] | [_ Hout]].
  - rewrite Hb, decide_True, validateEmptyCell_inBounds by done.
    cbn [row col bind]. by rewrite cellAt_nat, Hempty.
  - destruct Hout. unfold inBounds. simpl. lia.
Qed.

Lemma initGame_playing (gameType : jsstring) :
  exists N, (N = 3 \/ N = 10) /\ playing N (initGame gameType).
Proof.
  unfold initGame. destruct (jsstring_eqb gameType TIC_TAC_TOE).
  - exists 3. split; [by left|].
    assert (Hwf : wf_game 3 (mkGame gameType initPlayers (initGameboard 3) 0 3
                               (3 * 3))) by (by apply wf_gameb_true).
    split; [reflexivity | exact Hwf | simpl; lia | reflexivity | simpl; lia
           | reflexivity | |]; intros H.
    + by apply (boardHasRunb_spec 3 _ markX Hwf (or_introl eq_refl)) in H.
    + by apply (boardHasRunb_spec 3 _ markO Hwf (or_intror eq_refl)) in H.
  - exists 10. split; [by right|].
    assert (Hwf : wf_game 10 (mkGame gameType initPlayers (initGameboard 10) 0 5
                                (10 * 10))) by (by apply wf_gameb_true).
    split; [reflexivity | exact Hwf | simpl; lia | reflexivity | simpl; lia
           | reflexivity | |]; intros H.
    + apply (boardHasRunb_spec 10 _ markX Hwf (or_introl eq_refl)) in H.
      vm_compute in H. done.
    + apply (boardHasRunb_spec 10 _ markO Hwf (or_intror eq_refl)) in H.
      vm_compute in H. done.
Qed.

(** X10: every new session is in play with both win counters at 0: the
    one [initGame] creates for any game type, the one started by the
    answer 1 or 2 to the first prompt, and the one started by the answer
    yes to the replay prompt, which calls [initPlayers] anew, so that no
    win is carried over from the game before. *)
Theorem new_session_in_play (gameType answer : jsstring) :
  (exists N, (N = 3 \/ N = 10) /\ playing N (initGame gameType))
  /\ (forall game, chooseGame answer = Start game ->
        exists N, playing N game /\ players game = initPlayers)
  /\ (forall game, chooseReplay answer gameType = PlayAgain game ->
        exists N, playing N game /\ players game = initPlayers)
  /\ (chooseGame answer = AskTypeAgain
      <-> answer <> js "1" /\ answer <> js "2").
Proof.
  split; [apply initGame_playing|]. split; [|split].
  - unfold chooseGame. intros game.
    destruct (_ && _); [done|].
    destruct (jsstring_eqb answer (js "1")); intros [= <-];
      [destruct (initGame_playing TIC_TAC_TOE) as (N & _ & H)
      |destruct (initGame_playing GOMOKU) as (N & _ & H)];
      exists N; (split; [done | apply H]).
  - unfold chooseReplay. intros game.
    destruct (jsstring_eqb answer (js "yes")).
    + intros [= <-]. destruct (initGame_playing gameType) as (N & _ & H).
      exists N. split; [done | apply H].
    + by destruct (jsstring_eqb answer (js "no")).
  - unfold chooseGame.
    destruct (jsstring_eqb answer (js "1")) eqn:H1;
      [apply jsstring_eqb_eq in H1 as ->; split; [done | by intros [? _]]|].
    destruct (jsstring_eqb answer (js "2")) eqn:H2;
      [apply jsstring_eqb_eq in H2 as ->; split; [done | by intros [_ ?]]|].
    simpl. split; [|done]. intros _.
    split; intros ->; [by rewrite (proj2 (Nat.eqb_eq 0 0) eq_refl) in H1
                       || done | done].
Qed.

(** X11: in play the callback of the prompt never throws; it rejects a
    move with a non-empty error, or places it. When the placed move
    leaves the message empty, the session is in play again: the board
    differs in the one cell of the move, which holds the mark of the
    player whose turn it was, the counter is one less, and the turn has
    passed to the other player. *)
Theorem submit_keeps_session_in_play (N : nat) (g : Game)
    (rawInput : jsstring) :
  playing N g ->
  exists a,
    submit rawInput g = Some a
    /\ (forall e, a = Rejected e -> e <> [])
    /\ (forall g1, a = Placed [] g1 ->
          playing N g1
          /\ remainingEmptyCells g1 = (remainingEmptyCells g - 1)%Z
          /\ turn g1 = 1 - turn g
          /\ exists input p,
               validateInput rawInput (gameboard g) = Some (Some input, [])
               /\ players g !! turn g = Some p
               /\ gameboard g1
                  = placed (gameboard g) (Z.to_nat (row input))
                      (Z.to_nat (col input)) (Str (name p))).
Proof.
  intros Hg.
  destruct (submit_playing N g rawInput Hg)
    as [(input & e & _ & He & Hs)
       | (input & p & g1 & Hval & Hp & Hup & _ & _ & Hlast & Hb & Hrem & _ & _
          & [[Hs Hplay] | [[Hs _] | [Hs _]]])];
    rewrite Hs; eexists; (split; [done|]); split; try congruence.
  - intros g1' [= <-]. split; [done|]. split; [done|]. split; [|eauto].
    pose proof (playing_turn N g Hg). pose proof (playing_turn N g1 Hplay).
    unfold lastMoveOf in Hlast.
    destruct (turn g1) as [|[|n]], (turn g) as [|[|m]]; simpl in *; lia.
  - intros g1' H. by inversion H.
  - intros g1' H. unfold winsMessage in H. by inversion H.
Qed.

Lemma submit_keeps_session_in_play_witness :
  exists a, submit (js "1,2") beforeTopRow = Some a
            /\ forall g1, a = Placed [] g1 -> playing 3 g1.
Proof.
  assert (Hwf : wf_game 3 beforeTopRow) by (by apply wf_gameb_true).
  destruct (submit_keeps_session_in_play 3 beforeTopRow (js "1,2"))
    as (a & Ha & _ & Hcont).
  - split; [reflexivity | exact Hwf | simpl; lia | reflexivity | simpl; lia
           | reflexivity | |]; intros H.
    + by apply (boardHasRunb_spec 3 _ markX Hwf (or_introl eq_refl)) in H.
    + by apply (boardHasRunb_spec 3 _ markO Hwf (or_intror eq_refl)) in H.
  - exists a. split; [exact Ha|]. intros g1 Hg1. by destruct (Hcont g1 Hg1).
Defined.

Lemma wf_game_credit (N : nat) (g : Game) (i : nat) (p : Player) :
  wf_game N g -> players g !! i = Some p -> wf_game N (credit g i p).
Proof.
  intros [(wx & wo & Hst) Hsq Hcells HN HK] Hp.
  split; cbn [credit players gameboard winCase]; try done.
  unfold standardPlayers. cbn [credit players]. rewrite Hst in *.
  destruct i as [|[|i]]; [| |done]; injection Hp as <-; simpl; eauto.
Qed.

(** How a game fed with a list of answers ends. *)
Lemma submitAll_playing (N : nat) (rawInputs : list jsstring) (g : Game) :
  playing N g ->
  exists msg g',
    submitAll rawInputs g = Some (msg, g')
    /\ (remainingEmptyCells g' <= remainingEmptyCells g)%Z
    /\ (msg = [] /\ playing N g'
        \/ msg = TIED /\ players g' = initPlayers
           /\ wf_game N g'
           /\ countEmpty (gameboard g') = 0
           /\ ~ boardHasRun (gameboard g') markX (winCase g')
           /\ ~ boardHasRun (gameboard g') markO (winCase g')
        \/ exists p,
             initPlayers !! lastMoveOf g' = Some p
             /\ msg = winsMessage (name p)
             /\ players g'
                = <[lastMoveOf g' := mkPlayer (name p) 1]> initPlayers
             /\ wf_game N g'
             /\ boardHasRun (gameboard g') (Str (name p)) (winCase g')
             /\ forall mark, mark = markX \/ mark = markO ->
                  boardHasRun (gameboard g') mark (winCase g') ->
                  mark = Str (name p)).
Proof.
  revert g; induction rawInputs as [|rawInput rest IH]; intros g Hg.
  { exists [], g. split; [done|]. split; [lia|]. by left. }
  cbn [submitAll].
  destruct (submit_playing N g rawInput Hg)
    as [(input & e & _ & He & Hs)
       | (input & p & g1 & Hval & Hp & Hup & Hwf1 & Hpl1 & Hlast & Hb & Hrem
          & Hcount & Hruns & [[Hs Hplay] | [[Hs (H0 & HnoX & HnoO)] | [Hs Hrun]]])];
    rewrite Hs; cbn [bind].
  - apply IH, Hg.
  - destruct (IH g1 Hplay) as (msg & g' & Hall & Hle & Hcases).
    exists msg, g'. split; [done|]. split; [lia | done].
  - exists TIED, g1. split; [done|]. split; [lia|]. right; left.
    split; [done|]. split; [done|]. split; [done|]. split; [lia|]. done.
  - assert (Hp0 : totalWins p = 0%Z /\ initPlayers !! turn g = Some p).
    { destruct (playing_mover N g Hg) as (p' & Hp' & Hwho).
      assert (p' = p) as -> by congruence.
      rewrite (playing_players N g Hg) in Hp.
      by destruct Hwho as [[_ ->] | [_ ->]]. }
    destruct Hp0 as [Hzero Hinit].
    exists (winsMessage (name p)), (credit g1 (turn g) p).
    split; [done|]. split; [cbn [credit remainingEmptyCells]; lia|].
    right; right. exists p.
    change (lastMoveOf (credit g1 (turn g) p)) with (lastMoveOf g1).
    rewrite Hlast.
    split; [done|]. split; [done|].
    split; [cbn [credit players]; by rewrite Hpl1, Hzero|].
    split; [|done].
    apply wf_game_credit; [done|]. by rewrite Hpl1.
Qed.

Lemma playingb_true (N : nat) (g : Game) : playingb N g = true -> playing N g.
Proof.
  unfold playingb. rewrite !andb_true_iff, !negb_true_iff.
  intros [[[[[[[Hwfb Hzero] Hturn] Hcount] Hopen] Hmarks] HX] HO].
  apply wf_gameb_true in Hwfb.
  split; try done.
  - destruct Hwfb as [(wx & wo & Hp) _ _ _ _]. rewrite Hp in *.
    simpl in Hzero. rewrite !andb_true_iff, !Z.eqb_eq in Hzero.
    by destruct Hzero as (-> & -> & _).
  - by apply Nat.leb_le.
  - by apply Z.eqb_eq.
  - by apply Z.leb_le.
  - by apply Nat.eqb_eq.
  - intros Hrun.
    apply (boardHasRunb_spec N g markX Hwfb (or_introl eq_refl)) in Hrun.
    congruence.
  - intros Hrun.
    apply (boardHasRunb_spec N g markO Hwfb (or_intror eq_refl)) in Hrun.
    congruence.
Qed.

(** X12: every game played through the prompt from a session in play,
    whatever the answers typed, ends in one of three ways and never
    throws. Either the answers run out with the session still in play;
    or the tie message is given on a board with no empty cell and no
    winning run; or a player is declared the winner, and then that player
    moved last, a line of the board holds a winning run of that player's
    mark, no line holds one of the other mark, and that player's counter
    is 1 while the other's is 0. *)
Theorem prompt_loop_outcome (N : nat) (rawInputs : list jsstring) (g : Game) :
  playing N g ->
  exists msg g',
    submitAll rawInputs g = Some (msg, g')
    /\ (msg = [] /\ playing N g'
        \/ msg = TIED /\ players g' = initPlayers
           /\ countEmpty (gameboard g') = 0
           /\ ~ boardHasRun (gameboard g') markX (winCase g')
           /\ ~ boardHasRun (gameboard g') markO (winCase g')
        \/ exists p,
             initPlayers !! lastMoveOf g' = Some p
             /\ msg = winsMessage (name p)
             /\ players g'
                = <[lastMoveOf g' := mkPlayer (name p) 1]> initPlayers
             /\ boardHasRun (gameboard g') (Str (name p)) (winCase g')
             /\ forall mark, mark = markX \/ mark = markO ->
                  mark <> Str (name p) ->
                  ~ boardHasRun (gameboard g') mark (winCase g')).
Proof.
  intros Hg.
  destruct (submitAll_playing N rawInputs g Hg)
    as (msg & g' & Hall & _
        & [H | [(Hm & Hp & _ & H0 & HX & HO)
               | (p & Hp & Hm & Hpl & _ & Hrun & Hruns)]]).
  - exists msg, g'. split; [done|]. by left.
  - exists msg, g'. split; [done|]. right; left. done.
  - exists msg, g'. split; [done|]. right; right. exists p.
    repeat (split; [done|]). intros mark Hmark Hne Hr.
    by apply Hne, Hruns.
Qed.

Lemma prompt_loop_outcome_witness :
  exists msg g',
    submitAll [js "0,0"; js "1,1"; js "0,1"; js "1,0"; js "0,2"]
      (initGame TIC_TAC_TOE) = Some (msg, g')
    /\ msg = winsMessage (js "X").
Proof.
  destruct (prompt_loop_outcome 3
              [js "0,0"; js "1,1"; js "0,1"; js "1,0"; js "0,2"]
              (initGame TIC_TAC_TOE)) as (msg & g' & Hall & _).
  - by apply playingb_true.
  - exists msg, g'. split; [exact Hall|].
    revert Hall. vm_compute. by intros [= <- _].
Defined.

(** X13: the report printed at the end of such a game shows 1 for the
    declared winner and 0 for the other player, and 0 for both after a
    tie. *)
Theorem reportTotalWins_after_game (N : nat) (rawInputs : list jsstring)
    (g g' : Game) (msg : jsstring) :
  playing N g ->
  submitAll rawInputs g = Some (msg, g') -> msg <> [] ->
  let rule := js "<----------------------------->" in
  let title := js "Report for Players Total Wins" in
  msg = winsMessage (js "X")
  /\ reportTotalWins g'
     = [rule; title; js "Player X: 1"; js "Player O: 0"; rule]
  \/ msg = winsMessage (js "O")
     /\ reportTotalWins g'
        = [rule; title; js "Player X: 0"; js "Player O: 1"; rule]
  \/ msg = TIED
     /\ reportTotalWins g'
        = [rule; title; js "Player X: 0"; js "Player O: 0"; rule].
Proof.
  intros Hg Hall Hmsg rule title.
  destruct (submitAll_playing N rawInputs g Hg)
    as (msg' & g'' & Hall' & _
        & [[H _] | [(Hm & Hp & _) | (p & Hp & Hm & Hpl & _)]]);
    rewrite Hall in Hall'; injection Hall' as <- <-; [done| |].
  - right; right. split; [done|]. unfold reportTotalWins. by rewrite Hp.
  - unfold reportTotalWins. rewrite Hpl. unfold lastMoveOf in *.
    destruct (turn g' =? 0); injection Hp as <-; [right; left | left];
      (split; [done|reflexivity]).
Qed.

Lemma reportTotalWins_after_game_witness :
  reportTotalWins
    (credit topRowX 0 (mkPlayer (js "X") 0))
  = [js "<----------------------------->"; js "Report for Players Total Wins";
     js "Player X: 1"; js "Player O: 0"; js "<----------------------------->"].
Proof.
  destruct (reportTotalWins_after_game 3 [js "0,2"] beforeTopRow
              (credit topRowX 0 (mkPlayer (js "X") 0)) (winsMessage (js "X")))
    as [[_ H] | [[H _] | [H _]]].
  - by apply playingb_true.
  - reflexivity.
  - done.
  - exact H.
  - apply winsMessage_inj in H. done.
  - done.
Defined.

(** X14: while a session is in play there is a move to make: for some
    cell [(r, c)] of the board, the text of [r], a comma and the text of
    [c] is accepted and placed. *)
Theorem in_play_some_move_is_accepted (N : nat) (g : Game) :
  playing N g ->
  exists r c msg g1,
    r < N /\ c < N
    /\ submit (moveText r c) g = Some (Placed msg g1).
Proof.
  intros Hg. pose proof (playing_wf N g Hg) as [_ Hsq _ _ _].
  pose proof Hsq as [Hlen _].
  destruct (countEmpty_exists N (gameboard g) Hsq) as (r & c & Hr & Hc & He).
  { pose proof (playing_counter N g Hg). pose proof (playing_open N g Hg). lia. }
  pose proof (validateInput_moveText (gameboard g) r c ltac:(lia) ltac:(lia) He)
    as Hval.
  destruct (submit_playing N g (moveText r c) Hg)
    as [(input & e & Hv & Hne & _)
       | (input & p & g1 & _ & _ & _ & _ & _ & _ & _ & _ & _ & _
          & [[Hs _] | [[Hs _] | [Hs _]]])].
  - rewrite Hval in Hv. by injection Hv as _ <-.
  - by exists r, c, [], g1.
  - by exists r, c, TIED, g1.
  - by eexists r, c, _, _.
Qed.

Lemma in_play_some_move_is_accepted_witness :
  exists r c msg g1,
    r < 3 /\ c < 3 /\ submit (moveText r c) beforeTopRow = Some (Placed msg g1).
Proof.
  apply (in_play_some_move_is_accepted 3 beforeTopRow).
  by apply playingb_true.
Defined.



(** X16: with a win length of 1 the first move placed wins: in play,
    every placed move is answered with the win of the player who made
    it. *)
Theorem win_length_one_first_move_wins (N : nat) (g g1 : Game)
    (rawInput msg : jsstring) :
  playing N g -> winCase g = 1 ->
  submit rawInput g = Some (Placed msg g1) ->
  exists p, players g !! turn g = Some p /\ msg = winsMessage (name p).
Proof.
  intros Hg HK Hsub. pose proof (playing_wf N g Hg) as [_ Hsq _ _ _].
  destruct (submit_playing N g rawInput Hg)
    as [(input & e & _ & _ & Hs)
       | (input & p & g2 & Hval & Hp & Hup & Hwf2 & _ & _ & Hb & _ & _ & _
          & Hcases)].
  { rewrite Hs in Hsub. done. }
  apply validateInput_accepted in Hval as (_ & [Hr Hc] & _).
  destruct Hsq as [Hlen Hrows]. rewrite Hlen in Hr, Hc.
  assert (HK2 : winCase g2 = 1).
  { unfold updateGame in Hup.
    destruct (at_index _ _); simpl in Hup; [|done].
    destruct (players g !! turn g); simpl in Hup; [|done].
    by injection Hup as <-. }
  assert (Hrun : boardHasRun (gameboard g2) (Str (name p)) (winCase g2)).
  { exists Horizontal, (row input), (col input). rewrite HK2.
    intros j Hj. assert (j = 0) as -> by lia. simpl.
    rewrite !Z.add_0_r, Hb.
    rewrite (cellAt_placed N) by (done || lia).
    by rewrite decide_True by lia. }
  assert (Hmark : Str (name p) = markX \/ Str (name p) = markO).
  { destruct (playing_mover N g Hg) as (p' & Hp' & Hwho).
    assert (p' = p) as -> by congruence.
    destruct Hwho as [[_ Hx] | [_ Hx]]; rewrite Hx; [by left | by right]. }
  exists p. split; [done|].
  destruct Hcases as [[Hs Hplay] | [[Hs (_ & HnoX & HnoO)] | [Hs _]]];
    rewrite Hs in Hsub; injection Hsub as <- <-; [| |done]; exfalso.
  - destruct Hmark as [Hm | Hm]; rewrite Hm in Hrun;
      [by apply (playing_noX N g2 Hplay) | by apply (playing_noO N g2 Hplay)].
  - destruct Hmark as [Hm | Hm]; rewrite Hm in Hrun; done.
Qed.

Lemma win_length_one_first_move_wins_witness :
  exists msg g1,
    submit (js "1,1") oneInARow = Some (Placed msg g1)
    /\ exists p, players oneInARow !! turn oneInARow = Some p
                 /\ msg = winsMessage (name p).
Proof.
  eexists _, _. split; [reflexivity|].
  eapply (win_length_one_first_move_wins 3 oneInARow _ (js "1,1")).
  - by apply playingb_true.
  - reflexivity.
  - reflexivity.
Defined.

(** ** The printed board *)

Lemma rowLines_cons (N k : nat) (r : list Cell) (l : Gameboard) :
  rowLines N k (r :: l)
  = printRow r k (getEmptySpaces 3)
    :: (if k =? N - 1 then [] else [printHorizontalDivider N])
    ++ rowLines N (S k) l.
Proof.
  unfold rowLines. rewrite imap_cons. cbn [concat]. rewrite Nat.add_0_r.
  cbn [app]. do 3 f_equal. apply imap_ext. intros i x _. simpl.
  by replace (k + S i) with (S (k + i)) by lia.
Qed.

Lemma rowLines_lookup (N : nat) (l : Gameboard) (k : nat) :
  k + length l = N ->
  length (rowLines N k l) = 2 * length l - 1
  /\ (forall j r, l !! j = Some r ->
        rowLines N k l !! (2 * j)
        = Some (printRow r (k + j) (getEmptySpaces 3)))
  /\ (forall j, j + 1 < length l ->
        rowLines N k l !! (2 * j + 1) = Some (printHorizontalDivider N)).
Proof.
  revert k; induction l as [|r l IH]; intros k Hk.
  { split; [done|]. split; [done|]. simpl. lia. }
  rewrite rowLines_cons. simpl in Hk.
  destruct l as [|r' l'].
  - replace (k =? N - 1) with true by (symmetry; apply Nat.eqb_eq; simpl in Hk; lia).
    split; [done|]. split.
    + intros [|j] r0 Hj; [|done]. injection Hj as <-.
      by rewrite Nat.add_0_r.
    + simpl. lia.
  - replace (k =? N - 1) with false
      by (symmetry; apply Nat.eqb_neq; simpl in Hk; lia).
    destruct (IH (S k) ltac:(lia)) as (Hlen & Hrows & Hdivs).
    split; [|split].
    + cbn [app length]. rewrite Hlen. simpl. lia.
    + intros [|j] r0 Hj.
      * injection Hj as <-. by rewrite Nat.add_0_r.
      * replace (2 * S j) with (S (S (2 * j))) by lia.
        change (rowLines N (S k) (r' :: l') !! (2 * j)
                = Some (printRow r0 (k + S j) (getEmptySpaces 3))).
        rewrite (Hrows j r0 Hj). do 2 f_equal. lia.
    + intros [|j] Hj; [done|].
      replace (2 * S j + 1) with (S (S (2 * j + 1))) by lia.
      change (rowLines N (S k) (r' :: l') !! (2 * j + 1)
              = Some (printHorizontalDivider N)).
      apply Hdivs. simpl in Hj |- *. lia.
Qed.

Lemma printGameboard_rowLines (N : nat) (b : Gameboard) :
  square N b -> 1 <= N ->
  printGameboard b = printHeader N (getEmptySpaces 3) :: rowLines N 0 b.
Proof.
  intros [Hlen Hrows] HN. unfold printGameboard, rowLines. rewrite Hlen.
  f_equal. f_equal. apply imap_ext. intros i r Hr. simpl.
  pose proof (Forall_lookup_1 _ _ _ _ Hrows Hr) as Hlr. simpl in Hlr.
  rewrite Hlr. f_equal.
  destruct (Z.eqb_spec (Z.of_nat i) (Z.of_nat N - 1)),
    (Nat.eqb_spec i (N - 1)); (done || lia).
Qed.

(** X17: on a square board of [N >= 1] rows [printGameboard] logs [2N]
    lines: the header, then the rows in order, with one divider between
    two consecutive rows and none after the last row. *)
Theorem printGameboard_lines (N : nat) (b : Gameboard) :
  square N b -> 1 <= N ->
  length (printGameboard b) = 2 * N
  /\ printGameboard b !! 0 = Some (printHeader N (getEmptySpaces 3))
  /\ (forall i r, b !! i = Some r ->
        printGameboard b !! (2 * i + 1)
        = Some (printRow r i (getEmptySpaces 3)))
  /\ (forall i, i + 1 < N ->
        printGameboard b !! (2 * i + 2) = Some (printHorizontalDivider N)).
Proof.
  intros Hsq HN. pose proof Hsq as [Hlen _].
  rewrite (printGameboard_rowLines N b Hsq HN).
  destruct (rowLines_lookup N b 0 ltac:(lia)) as (Hl & Hrows & Hdivs).
  split; [cbn [length]; rewrite Hl; lia|]. split; [done|]. split.
  - intros i r Hr. replace (2 * i + 1) with (S (2 * i)) by lia.
    change (rowLines N 0 b !! (2 * i)
            = Some (printRow r i (getEmptySpaces 3))).
    by rewrite (Hrows i r Hr).
  - intros i Hi. replace (2 * i + 2) with (S (2 * i + 1)) by lia.
    change (rowLines N 0 b !! (2 * i + 1) = Some (printHorizontalDivider N)).
    apply Hdivs. lia.
Qed.

Lemma printGameboard_lines_witness :
  length (printGameboard (gameboard topRowX)) = 6
  /\ printGameboard (gameboard topRowX) !! 1 = Some (js "0  X | X | X ")
  /\ printGameboard (gameboard topRowX) !! 2 = Some (js "  -----------").
Proof.
  destruct (printGameboard_lines 3 (gameboard topRowX))
    as (Hlen & _ & Hrows & Hdivs).
  - by apply squareb_true.
  - lia.
  - split; [exact Hlen|]. split.
    + apply (Hrows 0 [markX; markX; markX]). reflexivity.
    + apply (Hdivs 0). lia.
Defined.

Lemma cellTexts_cons (n k : nat) (cell : Cell) (l : list Cell) :
  cellTexts n k (cell :: l)
  = (if (Z.of_nat k =? Z.of_nat n - 1)%Z
     then cellText cell else cellText cell ++ js "|")
    ++ cellTexts n (S k) l.
Proof.
  unfold cellTexts. rewrite imap_cons. cbn [concat]. rewrite Nat.add_0_r.
  do 2 f_equal. apply imap_ext. intros i x _. simpl.
  by replace (k + S i) with (S (k + i)) by lia.
Qed.

Lemma cellText_length (cell : Cell) : wf_cell cell -> length (cellText cell) = 3.
Proof.
  intros Hcell. destruct cell as [|[|c s]]; [done | done|].
  destruct Hcell as [Hx | Ho]; [done | by inversion Hx | by inversion Ho].
Qed.

Lemma cellTexts_length (n : nat) (l : list Cell) (k : nat) :
  wf_seq l -> k + length l = n -> l <> [] ->
  length (cellTexts n k l) = 4 * length l - 1.
Proof.
  revert k; induction l as [|cell l IH]; intros k Hwf Hk Hne; [done|].
  apply Forall_cons in Hwf as [Hcell Hwf]. simpl in Hk.
  rewrite cellTexts_cons, length_app.
  destruct l as [|cell' l'].
  - replace (Z.of_nat k =? Z.of_nat n - 1)%Z with true
      by (symmetry; apply Z.eqb_eq; simpl in Hk; lia).
    by rewrite cellText_length.
  - replace (Z.of_nat k =? Z.of_nat n - 1)%Z with false
      by (symmetry; apply Z.eqb_neq; simpl in Hk; lia).
    rewrite length_app, cellText_length, (IH (S k)) by (done || lia).
    simpl. lia.
Qed.

(** X18: the printed grid is aligned: on a board of [N >= 1] columns
    whose cells are empty or hold a mark, the line of every row with a
    one-digit number is [4N + 1] characters wide, as wide as the divider,
    and for [N <= 10] the header is [4N] characters wide. *)
Theorem printed_lines_widths (N : nat) (r : list Cell) (rowNum : nat) :
  1 <= N -> length r = N -> wf_seq r -> rowNum < 10 ->
  length (printRow r rowNum (getEmptySpaces 3)) = 4 * N + 1
  /\ length (printHorizontalDivider N) = 4 * N + 1
  /\ (N <= 10 -> length (printHeader N (getEmptySpaces 3)) = 4 * N).
Proof.
  intros HN Hlen Hwf Hnum. split; [|split].
  - unfold printRow. rewrite length_app, (toString_small rowNum Hnum).
    cbn [length].
    change (concat _) with (cellTexts (length r) 0 r).
    rewrite cellTexts_length; [lia | done | lia |].
    intros ->. simpl in Hlen. lia.
  - unfold printHorizontalDivider. rewrite !length_app.
    assert (H : forall n, length (concat (replicate n (js "----"))) = 4 * n).
    { induction n as [|n IH]; [done|].
      change (replicate (S n) ?x) with (x :: replicate n x).
      cbn [concat]. rewrite length_app, IH. simpl. lia. }
    rewrite H. simpl. lia.
  - intros H10. unfold printHeader.
    assert (H : forall k n, k + n <= 10 ->
              length (concat ((fun i => getEmptySpaces 3 ++ toString i)
                                <$> seq k n)) = 4 * n).
    { intros k n; revert k; induction n as [|n IH]; intros k Hk; [done|].
      cbn [seq fmap list_fmap concat]. rewrite !length_app.
      rewrite (toString_small k) by lia.
      change (list_fmap _ _ ?f ?l) with (f <$> l).
      rewrite IH by lia. simpl. lia. }
    apply H. lia.
Qed.

Lemma printed_lines_widths_witness :
  length (printRow [markX; markX; markX] 0 (getEmptySpaces 3)) = 13
  /\ length (printHorizontalDivider 3) = 13.
Proof.
  destruct (printed_lines_widths 3 [markX; markX; markX] 0)
    as (Hrow & Hdiv & _).
  - lia.
  - reflexivity.
  - assert (H : wf_grid [[markX; markX; markX]]) by (by apply wf_gridb_true).
    exact (Forall_inv H).
  - lia.
  - split; [exact Hrow | exact Hdiv].
Defined.

(** ** The detector has no preferred direction *)

Lemma cellAt_outside (N : nat) (b : Gameboard) (r c : Z) :
  square N b -> ~ inBounds N r c -> cellAt b r c = Undefined.
Proof.
  intros [Hlen Hrows] Hout. unfold cellAt, cellOf, cellOfRow.
  destruct (Z.ltb_spec r 0), (Z.ltb_spec c 0); simpl; try done.
  destruct (b !! Z.to_nat r) as [s|] eqn:Hs; [|done].
  destruct (s !! Z.to_nat c) as [cell|] eqn:Hcell; [|done].
  apply lookup_lt_Some in Hs as Hr', Hcell as Hc'.
  pose proof (Forall_lookup_1 _ _ _ _ Hrows Hs) as Hls. simpl in Hls.
  destruct Hout. unfold inBounds. lia.
Qed.

Lemma cellAt_transposed (N : nat) (b t : Gameboard) (r c : Z) :
  square N b -> 1 <= N -> transposeGameboard b = Some t ->
  cellAt t r c = cellAt b c r.
Proof.
  intros Hsq HN Ht.
  destruct (transposeGameboard_square N b Hsq HN) as (t' & Ht' & Hlent & Hcols).
  assert (t' = t) as -> by congruence.
  assert (Hsqt : square N t).
  { split; [done|]. apply Forall_lookup_2. intros d s Hd.
    rewrite (transposeGameboard_lookup b t d s Ht Hd), length_fmap.
    apply Hsq. }
  destruct (decide (inBounds N r c)) as [[Hr Hc] | Hout].
  - rewrite !cellAt_to_nat by lia.
    unfold cellOf at 1. rewrite (Hcols (Z.to_nat r)) by lia.
    unfold cellOfRow. rewrite list_lookup_fmap.
    destruct (square_lookup N b (Z.to_nat c) (Z.to_nat r) Hsq)
      as (s & Hs & _ & Hcell); [lia..|].
    rewrite Hs. simpl. unfold cellOf. rewrite Hs. done.
  - rewrite (cellAt_outside N t r c Hsqt Hout).
    symmetry. apply (cellAt_outside N b c r Hsq).
    unfold inBounds in *. lia.
Qed.

Lemma boardHasRun_transposed (N : nat) (b t : Gameboard) (mark : Cell)
    (K : nat) :
  square N b -> 1 <= N -> transposeGameboard b = Some t -> 1 <= K ->
  boardHasRun t mark K -> boardHasRun b mark K.
Proof.
  intros Hsq HN Ht HK (dir & r & c & Hrun).
  assert (Hcell : forall j, j < K ->
            cellAt b (c + Z.of_nat j * snd (stepOf dir))
                     (r + Z.of_nat j * fst (stepOf dir)) = mark).
  { intros j Hj. rewrite <- (cellAt_transposed N b t) by done. by apply Hrun. }
  destruct dir; simpl in Hcell.
  - exists Vertical, c, r. intros j Hj. simpl. by apply Hcell.
  - exists Horizontal, c, r. intros j Hj. simpl. by apply Hcell.
  - exists FallingDiagonal, c, r. intros j Hj. simpl. by apply Hcell.
  - exists RisingDiagonal, (c - Z.of_nat (K - 1))%Z, (r + Z.of_nat (K - 1))%Z.
    intros j Hj. simpl. rewrite <- (Hcell (K - 1 - j)) by lia. f_equal; lia.
Qed.

(** X19: the outcome does not depend on the orientation of the board:
    on a well-formed session, [checkForWin] gives the same message on the
    transposed board as on the board itself. *)
Theorem checkForWin_same_on_transposed_board (N : nat) (g : Game)
    (t : Gameboard) :
  wf_game N g -> transposeGameboard (gameboard g) = Some t ->
  fst <$> checkForWin (withBoard g t) = fst <$> checkForWin g.
Proof.
  intros Hg Ht. pose proof Hg as [Hp Hsq Hcells HN HK].
  assert (Hsqt : square N t /\ transposeGameboard t = Some (gameboard g)).
  { destruct (transposeGameboard_square N _ Hsq HN) as (t' & Ht' & Hlent & Hcols).
    assert (t' = t) as -> by congruence.
    assert (Hsqt : square N t).
    { split; [done|]. apply Forall_lookup_2. intros d s Hd.
      rewrite (transposeGameboard_lookup _ t d s Ht Hd), length_fmap.
      apply Hsq. }
    split; [done|].
    destruct (transposeGameboard_square N t Hsqt HN)
      as (b' & Hb' & Hlenb' & Hcols').
    rewrite Hb'. f_equal. apply list_eq. intros d.
    destruct Hsq as [Hlen Hrows].
    destruct (decide (d < N)) as [Hd | Hd].
    - rewrite (Hcols' d Hd).
      destruct (lookup_lt_is_Some_2 (gameboard g) d ltac:(lia)) as [s Hs].
      pose proof (Forall_lookup_1 _ _ _ _ Hrows Hs) as Hls. simpl in Hls.
      rewrite Hs. f_equal. apply list_eq. intros j.
      rewrite list_lookup_fmap.
      destruct (decide (j < N)) as [Hj | Hj].
      + rewrite (Hcols j Hj). simpl.
        destruct (lookup_lt_is_Some_2 s j ltac:(lia)) as [x Hx].
        rewrite Hx. f_equal. apply cellOfRow_stored.
        rewrite list_lookup_fmap, Hs. simpl. f_equal.
        by apply cellOfRow_stored.
      + rewrite (proj2 (lookup_ge_None t j)) by lia.
        rewrite (proj2 (lookup_ge_None s j)) by lia. done.
    - rewrite (proj2 (lookup_ge_None b' d)) by lia.
      rewrite (proj2 (lookup_ge_None (gameboard g) d)) by lia. done. }
  destruct Hsqt as [Hsqt Hback].
  assert (Hgt : wf_game N (withBoard g t)).
  { split; cbn [withBoard players gameboard winCase]; try done.
    by apply (wf_transposeGameboard (gameboard g)). }
  destruct (checkForWin_wf N g Hg) as (p & Hlast & _ & Hwin & Hnone).
  destruct (checkForWin_wf N (withBoard g t) Hgt)
    as (p' & Hlast' & _ & Hwin' & Hnone').
  change (players (withBoard g t) !! lastMoveOf (withBoard g t))
    with (players g !! lastMoveOf g) in Hlast'.
  assert (p' = p) as -> by congruence.
  cbn [withBoard gameboard winCase] in Hwin', Hnone'.
  destruct (boardHasRunb (gameboard g) markX (winCase g)
            || boardHasRunb (gameboard g) markO (winCase g)) eqn:Hany.
  - assert (Hruns : boardHasRun (gameboard g) markX (winCase g)
                    \/ boardHasRun (gameboard g) markO (winCase g)).
    { apply orb_true_iff in Hany as [H | H]; [left | right].
      - by apply (boardHasRunb_spec N g markX Hg (or_introl eq_refl)).
      - by apply (boardHasRunb_spec N g markO Hg (or_intror eq_refl)). }
    rewrite (Hwin Hruns), Hwin'; [done|].
    destruct Hruns as [H | H]; [left | right];
      by apply (boardHasRun_transposed N t (gameboard g)).
  - apply orb_false_iff in Hany as [HX HO].
    assert (Hno : ~ (boardHasRun (gameboard g) markX (winCase g)
                     \/ boardHasRun (gameboard g) markO (winCase g))).
    { intros [H | H].
      - apply (boardHasRunb_spec N g markX Hg (or_introl eq_refl)) in H.
        congruence.
      - apply (boardHasRunb_spec N g markO Hg (or_intror eq_refl)) in H.
        congruence. }
    rewrite (Hnone Hno), Hnone'.
    + unfold noWinOutcome. cbn [withBoard remainingEmptyCells].
      by destruct (remainingEmptyCells g =? 0)%Z.
    + intros [H | H]; apply Hno; [left | right];
        by apply (boardHasRun_transposed N (gameboard g) t).
Qed.

Lemma checkForWin_same_on_transposed_board_witness :
  fst <$> checkForWin
            (withBoard columnOfO_afterX
               [ [markX; markX; emptyCell];
                 [markO; markO; markO];
                 [markX; emptyCell; markX] ])
  = fst <$> checkForWin columnOfO_afterX.
Proof.
  apply (checkForWin_same_on_transposed_board 3).
  - by apply wf_gameb_true.
  - reflexivity.
Defined.
